(** * Khai's weekly chess puzzle: the puzzle-progression state machine

    A shallow embedding of [puzzles.ts] and [App.tsx]: the puzzle catalog,
    the weekly selector, the move / hint / restart / submit handlers of the
    [App] component, and the properties of the session state machine.

    Conventions.
    - JavaScript numbers that the program uses as integers are [Z]; where
      the program divides (the clock display), the rounding of doubles is
      written out.
    - A JavaScript string is a sequence of UTF-16 code units.  Text that the
      program treats as chess notation (FEN, squares, UCI moves) is ASCII and
      is kept as a Rocq [string]; text that comes from the user or is hashed
      character by character is a [jsstring], a list of code units.
    - The React state of [App] is one record; every handler is a function
      from the state of the render in which it was created to the way the
      call ends: it returns with the next state, or an error thrown inside
      it leaves it, with the cells as the calls made until then left them.
    - [chess.js] is consumed through an interface ([ChessEngine]); the
      theorems hold for every engine that satisfies the stated laws, and a
      small reference engine instantiates them on the real puzzle. *)

From Stdlib Require Import ZArith List String Ascii Bool Lia DecimalString.
From Stdlib Require DecimalPos.
Import ListNotations.
Local Open Scope string_scope.
Local Open Scope Z_scope.

(* ================================================================== *)
(** ** JavaScript values *)

Module JS.

(** UTF-16 code units. *)
Definition jsstring := list Z.

Definition code (a : ascii) : Z := Z.of_N (N_of_ascii a).

(** The code units of an ASCII literal. *)
Definition ofString (s : string) : jsstring :=
  map code (list_ascii_of_string s).

(** [x >>> 0]: ToUint32 of an integral number. *)
Definition toUint32 (x : Z) : Z := x mod 2 ^ 32.

(** [xs[i]]: [undefined] (here [None]) outside the array. *)
Definition item {A} (xs : list A) (i : Z) : option A :=
  if i <? 0 then None else nth_error xs (Z.to_nat i).

(** [!s] for a value that is a string or [undefined]. *)
Definition falsyStr (s : option string) : bool :=
  match s with
  | None => true
  | Some s => String.eqb s ""
  end.

(** [s || ""] for a value that is a string or [undefined]. *)
Definition orEmpty (s : option string) : string :=
  match s with
  | None => ""
  | Some s => s
  end.

(** [String.prototype.toLowerCase] on code units below 256: the ASCII
    capitals and the Latin-1 capitals have a lower-case partner 32 above;
    every other unit of that range is its own image. *)
Definition lowerAscii (a : ascii) : ascii :=
  let n := N_of_ascii a in
  if ((65 <=? n) && (n <=? 90))%N
     || ((192 <=? n) && (n <=? 222) && negb (n =? 215))%N
  then ascii_of_N (n + 32) else a.

Fixpoint toLowerCase (s : string) : string :=
  match s with
  | EmptyString => EmptyString
  | String a r => String (lowerAscii a) (toLowerCase r)
  end.

(** [s.slice(i, j)] for [0 <= i <= j]. *)
Definition slice (i j : nat) (s : string) : string :=
  substring i (j - i) s.

(** White space and line terminators, the units [trim] strips. *)
Definition isWhite (c : Z) : bool :=
  (9 <=? c) && (c <=? 13)
  || (c =? 32) || (c =? 160) || (c =? 5760)
  || (8192 <=? c) && (c <=? 8202)
  || (c =? 8232) || (c =? 8233) || (c =? 8239) || (c =? 8287)
  || (c =? 12288) || (c =? 65279).

Fixpoint trimStart (s : jsstring) : jsstring :=
  match s with
  | c :: r => if isWhite c then trimStart r else s
  | [] => []
  end.

Definition trimEnd (s : jsstring) : jsstring := rev (trimStart (rev s)).

Definition trim (s : jsstring) : jsstring := trimEnd (trimStart s).

(** [s.slice(0, n)] on code units. *)
Definition take (n : nat) (s : jsstring) : jsstring := firstn n s.

(** [!s] for a string. *)
Definition isEmpty (s : jsstring) : bool :=
  match s with [] => true | _ => false end.

End JS.

Import JS.

(* ================================================================== *)
(** ** puzzles.ts *)

Record WeeklyPuzzle := mkPuzzle {
  id : string;
  title : string;
  fen : string;
  (* Full line in UCI including opponent replies: the player's moves are
     at the indices 0,2,4,6,8 and the replies at 1,3,5,7. *)
  solution : list string;
  hint : option string
}.

Definition italian5 : WeeklyPuzzle := {|
  id := "wk-midgame-italian-5";
  title := "Weekly Midgame Puzzle (5 moves)";
  fen := "r1bqk2r/pppp1ppp/2n2n2/2b5/2BpP3/2P2N2/PP3PPP/RNBQK2R w KQkq - 0 6";
  solution :=
    [ "c3d4"; "c5b4"; "b1c3"; "f6e4"; "e1g1"; "e4c3"; "b2c3"; "b4a5"; "f1e1" ];
  hint := Some
    "First: fix the center pawn. Then develop and castle. Watch the knight jumps."
|}.

Definition PUZZLES : list WeeklyPuzzle := [ italian5 ].

(* ================================================================== *)
(** ** Week selector *)

(** One round of the loop body: [hash = (hash * 31 + charCode) >>> 0]. *)
Definition hashStep (hash c : Z) : Z := toUint32 (hash * 31 + c).

(** The loop [for (i = 0; i < weekKey.length; i++)] from [hash = 0]. *)
Definition weekHash (weekKey : jsstring) : Z := fold_left hashStep weekKey 0.

(** [catalog[hash % catalog.length]]; for the empty catalog the index is
    [NaN] and the result [undefined]. *)
Definition pickFrom (catalog : list WeeklyPuzzle) (weekKey : jsstring)
  : option WeeklyPuzzle :=
  let hash := weekHash weekKey in
  match catalog with
  | [] => None
  | _ => item catalog (Z.rem hash (Z.of_nat (List.length catalog)))
  end.

Definition pickWeeklyPuzzle (weekKey : jsstring) : option WeeklyPuzzle :=
  pickFrom PUZZLES weekKey.

(** The hash the specification describes: the polynomial in 31 whose
    coefficients are the code units, reduced modulo [2^32]. *)
Fixpoint polyValue (acc : Z) (cs : jsstring) : Z :=
  match cs with
  | [] => acc
  | c :: r => polyValue (acc * 31 + c) r
  end.

Definition specHash (weekKey : jsstring) : Z := polyValue 0 weekKey mod 2 ^ 32.

(* ================================================================== *)
(** ** The rules adapter

    [chess.js] is consumed, not built.  The component uses a game object
    through [new Chess(fen)], [.fen()], [.move({from, to, promotion})] and
    [.undo()].  [.move] and [.undo] change the object in place; here they
    return the changed object.  For a legal move [.move] answers the move
    it made, of which the component reads [from] and [to].  A move that is
    not legal in the position leaves the object as it was; what the caller
    gets depends on the version of the library: before 1.0 the answer
    [null] (here [Normal None]), from 1.0 on an [Error] with the message
    [Invalid move:] and the move that was asked for (here [Throw]).
    [new Chess(fen)] is called on the position of the puzzle and on what
    [.fen()] has given, encodings that the engine reads. *)

Record MoveArg := mkArg {
  arg_from : string;
  arg_to : string;
  arg_promotion : string
}.

Record Move := mkMove {
  mv_from : string;
  mv_to : string
}.

(** [new Error(`Invalid move: ${JSON.stringify(move)}`)] *)
Inductive JSError :=
| InvalidMove (a : MoveArg).

(** How a call ends: it returns a value, or it throws. *)
Inductive Completion (A : Type) :=
| Normal (a : A)
| Throw (e : JSError).

Arguments Normal {A} a.
Arguments Throw {A} e.

Class ChessEngine := {
  Chess : Type;
  newChess : string -> Chess;
  chess_fen : Chess -> string;
  chess_move : Chess -> MoveArg -> Completion (option (Chess * Move));
  chess_undo : Chess -> Chess
}.

(** What the component relies on: the move an engine reports is the move
    that was asked for, and undoing a move gives back the encoding the
    position had before it. *)
Class ChessLaws (E : ChessEngine) : Prop := {
  move_reports_squares :
    forall g a g' m,
      chess_move g a = Normal (Some (g', m)) ->
      mv_from m = arg_from a /\ mv_to m = arg_to a;
  undo_restores_fen :
    forall g a g' m,
      chess_move g a = Normal (Some (g', m)) ->
      chess_fen (chess_undo g') = chess_fen g
}.

(* ================================================================== *)
(** ** App.tsx: helpers *)

(** [s.trim().slice(0, 24)] *)
Definition clampName (s : jsstring) : jsstring := take 24 (trim s).

(** [{ from, to, promotion }] of a UCI string; [promotion] is [undefined]
    for a string shorter than five characters. *)
Definition parseUci (uci : string) : string * string * option string :=
  let from := slice 0 2 uci in
  let to := slice 2 4 uci in
  let promotion :=
    if (5 <=? String.length uci)%nat then
      match String.get 4 uci with
      | Some c => Some (String c EmptyString)
      | None => None
      end
    else None in
  (from, to, promotion).

(** [promotion ?? "q"] *)
Definition promotionOrQueen (p : option string) : string :=
  match p with
  | Some c => c
  | None => "q"
  end.

(** Rows of the [leaderboard] table as the component inserts them. *)
Module Leaderboard.

Record Insert := mkInsert {
  week_key : jsstring;
  name : jsstring;
  time_ms : Z;
  mistakes : Z
}.

End Leaderboard.

(** [!startRef.current] for a value that is a number or [null]. *)
Definition falsyNum (r : option Z) : bool :=
  match r with
  | None => true
  | Some t => t =? 0
  end.

(* ================================================================== *)
(** ** App.tsx: the component state and its handlers *)

Section App.

Context {E : ChessEngine}.

(** The [useState] cells and the [startRef] cell of [App] that the
    puzzle logic reads or writes (themes and the fetched leaderboard are
    left out: no handler below touches them).

    [game] is the game object of the [game] cell as it is now.  [board]
    is the game object as it was when the [board] memo was last computed:
    [useMemo(..., [game])] computes the cells again when [setGame] has put
    another object into the cell, not when the object in the cell has
    been changed in place. *)
Record AppState := mkState {
  game : Chess;
  board : Chess;
  selected : option (Z * Z);
  playerMoveIndex : Z;
  mistakes : Z;
  done : bool;
  name : jsstring;
  startRef : option Z;
  timeMs : Z;
  hintStage : Z
}.

(** How a call of a handler ends: it returns, or an error thrown by a
    call inside it is not caught and leaves it.  Either way the cells
    hold what the statements run until then have put into them. *)
Inductive Handled :=
| Returned (s : AppState)
| Threw (e : JSError) (s : AppState).

Definition stateOf (h : Handled) : AppState :=
  match h with
  | Returned s => s
  | Threw _ s => s
  end.

Definition thrown (h : Handled) : option JSError :=
  match h with
  | Returned _ => None
  | Threw e _ => Some e
  end.

Variable weekKey : jsstring.
Variable puzzle : WeeklyPuzzle.

Definition REQUIRED_PLAYER_MOVES : Z := 5.

(** The state of the first render. *)
Definition initialState : AppState := {|
  game := newChess (fen puzzle);
  board := newChess (fen puzzle);
  selected := None;
  playerMoveIndex := 0;
  mistakes := 0;
  done := false;
  name := [];
  startRef := None;
  timeMs := 0;
  hintStage := 0
|}.

Definition restartPuzzle (s : AppState) : AppState := {|
  game := newChess (fen puzzle);
  board := newChess (fen puzzle);
  selected := None;
  playerMoveIndex := 0;
  mistakes := 0;
  done := false;
  name := name s;
  startRef := None;
  timeMs := 0;
  hintStage := 0
|}.

(** [if (!startRef.current) startRef.current = Date.now()] *)
Definition startTimerIfNeeded (now : Z) (r : option Z) : option Z :=
  if falsyNum r then Some now else r.

(** [puzzle.solution[playerMoveIndex * 2] || ""] *)
Definition nextPlayerUci (s : AppState) : string :=
  orEmpty (item (solution puzzle) (playerMoveIndex s * 2)).

Definition hintSquares (s : AppState) : option (string * string) :=
  if done s then None
  else
    let u := nextPlayerUci s in
    if String.eqb u "" || (String.length u <? 4)%nat then None
    else let '(from, to, _) := parseUci u in Some (from, to).

(** [{ from, to, promotion: promotion ?? "q" }] for a UCI string. *)
Definition uciArg (uci : string) : MoveArg :=
  let '(from, to, promotion) := parseUci uci in
  mkArg from to (promotionOrQueen promotion).

(** [g.move(a)] as a statement: the answer is not looked at, a move the
    engine answers [null] to leaves [g] as it was, and an error the
    engine throws is passed on. *)
Definition moveUnchecked (g : Chess) (a : MoveArg) : Completion Chess :=
  match chess_move g a with
  | Normal (Some (g', _)) => Normal g'
  | Normal None => Normal g
  | Throw e => Throw e
  end.

(** The reply after the player's move number [n] is at index [n*2 - 1]. *)
Definition applyOpponentMoveIfExists (nextPlayerIdx : Z) (g : Chess)
  : Completion Chess :=
  let oppIdx := nextPlayerIdx * 2 - 1 in
  let uci := item (solution puzzle) oppIdx in
  if falsyStr uci then Normal g
  else moveUnchecked g (uciArg (orEmpty uci)).

(** [now] is the reading of [Date.now()] during the call.

    [game.move] works on the object of the [game] cell.  When it throws,
    nothing has been done yet.  When [g.move] inside
    [applyOpponentMoveIfExists] throws, the timer has been started and
    the object of the [game] cell holds the player's move, and no [set]
    function has been called. *)
Definition tryPlayerMove (now : Z) (from to : string) (s : AppState)
  : Handled :=
  if done s then Returned s
  else
    match chess_move (game s) (mkArg from to "q") with
    | Throw e => Threw e s
    | Normal None => Returned s (* illegal move *)
    | Normal (Some (moved, attempted)) =>
        let started := startTimerIfNeeded now (startRef s) in
        let uci := toLowerCase (mv_from attempted ++ mv_to attempted) in
        let expected := toLowerCase (nextPlayerUci s) in
        if negb (String.eqb uci expected) then
          let g := newChess (chess_fen (chess_undo moved)) in
          Returned
            {| game := g;
               board := g;
               selected := selected s;
               playerMoveIndex := playerMoveIndex s;
               mistakes := mistakes s + 1;
               done := done s;
               name := name s;
               startRef := started;
               timeMs := timeMs s;
               hintStage := 0 |}
        else
          let nextIdx := playerMoveIndex s + 1 in
          match applyOpponentMoveIfExists nextIdx
                  (newChess (chess_fen moved)) with
          | Throw e =>
              Threw e
                {| game := moved;
                   board := board s;
                   selected := selected s;
                   playerMoveIndex := playerMoveIndex s;
                   mistakes := mistakes s;
                   done := done s;
                   name := name s;
                   startRef := started;
                   timeMs := timeMs s;
                   hintStage := hintStage s |}
          | Normal g =>
              Returned
                {| game := g;
                   board := g;
                   selected := None;
                   playerMoveIndex := nextIdx;
                   mistakes := mistakes s;
                   done := if nextIdx >=? REQUIRED_PLAYER_MOVES then true
                           else done s;
                   name := name s;
                   startRef := started;
                   timeMs := timeMs s;
                   hintStage := 0 |}
          end
    end.

(** The hint button: [disabled={done || !hintSquares}] and
    [setHintStage(s => (s === 0 ? 1 : s === 1 ? 2 : 0))]. *)
Definition nextHintStage (h : Z) : Z :=
  if h =? 0 then 1 else if h =? 1 then 2 else 0.

Definition hintDisabled (s : AppState) : bool :=
  done s || match hintSquares s with None => true | Some _ => false end.

Definition requestHint (s : AppState) : AppState :=
  if hintDisabled s then s
  else
    {| game := game s;
       board := board s;
       selected := selected s;
       playerMoveIndex := playerMoveIndex s;
       mistakes := mistakes s;
       done := done s;
       name := name s;
       startRef := startRef s;
       timeMs := timeMs s;
       hintStage := nextHintStage (hintStage s) |}.

(** The interval callback:
    [if (startRef.current && !done) setTimeMs(Date.now() - startRef.current)] *)
Definition tick (now : Z) (s : AppState) : AppState :=
  match startRef s with
  | Some t =>
      if negb (t =? 0) && negb (done s) then
        {| game := game s;
           board := board s;
           selected := selected s;
           playerMoveIndex := playerMoveIndex s;
           mistakes := mistakes s;
           done := done s;
           name := name s;
           startRef := startRef s;
           timeMs := now - t;
           hintStage := hintStage s |}
      else s
  | None => s
  end.

(** The name field: [onChange={e => setName(e.target.value)}] *)
Definition setName (n : jsstring) (s : AppState) : AppState :=
  {| game := game s;
     board := board s;
     selected := selected s;
     playerMoveIndex := playerMoveIndex s;
     mistakes := mistakes s;
     done := done s;
     name := n;
     startRef := startRef s;
     timeMs := timeMs s;
     hintStage := hintStage s |}.

(** [submitScore]: the row handed to [insert], or [None] when the
    handler returns before the insert. *)
Definition submitScore (s : AppState) : option Leaderboard.Insert :=
  let finalName := clampName (name s) in
  if negb (done s) || isEmpty finalName then None
  else Some {| Leaderboard.week_key := weekKey;
               Leaderboard.name := finalName;
               Leaderboard.time_ms := timeMs s;
               Leaderboard.mistakes := mistakes s |}.

(** *** Events and reachable states *)

(** What can happen to a session: a move attempt, a press of the hint
    button, a restart, a timer tick, an edit of the name.  Clock readings
    are readings of [Date.now()], milliseconds since 1970. *)
Inductive Event :=
| EvMove (now : Z) (from to : string)
| EvHint
| EvRestart
| EvTick (now : Z)
| EvName (n : jsstring).

Definition clockOk (e : Event) : Prop :=
  match e with
  | EvMove now _ _ => 0 < now
  | EvTick now => 0 < now
  | _ => True
  end.

(** The state an event leaves behind.  After an error that left a
    handler the component goes on with the cells as they are. *)
Definition step (e : Event) (s : AppState) : AppState :=
  match e with
  | EvMove now from to => stateOf (tryPlayerMove now from to s)
  | EvHint => requestHint s
  | EvRestart => restartPuzzle s
  | EvTick now => tick now s
  | EvName n => setName n s
  end.

Definition run (es : list Event) (s : AppState) : AppState :=
  fold_left (fun s e => step e s) es s.

Inductive reachable : AppState -> Prop :=
| reach_init : reachable initialState
| reach_step : forall e s, reachable s -> clockOk e -> reachable (step e s).

(** The engine accepts the move from [from] to [to] in the position. *)
Definition legalAttempt (s : AppState) (from to : string) : bool :=
  match chess_move (game s) (mkArg from to "q") with
  | Normal (Some _) => true
  | _ => false
  end.

(** The engine throws on the scripted reply to the attempt: the puzzle is
    not complete, the attempt is accepted and is the expected move, and
    [g.move] in [applyOpponentMoveIfExists] ends with an error. *)
Definition replyThrows (s : AppState) (from to : string) : bool :=
  negb (done s)
  && match chess_move (game s) (mkArg from to "q") with
     | Normal (Some (moved, attempted)) =>
         String.eqb (toLowerCase (mv_from attempted ++ mv_to attempted))
                    (toLowerCase (nextPlayerUci s))
         && match applyOpponentMoveIfExists (playerMoveIndex s + 1)
                    (newChess (chess_fen moved)) with
            | Throw _ => true
            | Normal _ => false
            end
     | _ => false
     end.

(** The line of the puzzle can be played on the engine: in no state of a
    session does the engine throw on a scripted reply.  (The replies of a
    line are legal moves where they are played; the catalog's line on the
    reference engine is an instance, see [refEngine_plays_line].) *)
Definition LinePlayable : Prop :=
  forall (es : list Event) (from to : string),
    replyThrows (run es initialState) from to = false.

(** A move attempt given as a UCI string, as a player who reads the
    solution would make it: select [from], then click [to]. *)
Definition attempt (now : Z) (uci : string) (s : AppState) : AppState :=
  let '(from, to, _) := parseUci uci in
  stateOf (tryPlayerMove now from to s).

Definition legalUci (s : AppState) (uci : string) : bool :=
  let '(from, to, _) := parseUci uci in legalAttempt s from to.

(** The player's half-moves of the line: [solution[0]], [solution[2]],
    [solution[4]], [solution[6]], [solution[8]]. *)
Definition playerMoves : list string :=
  map (fun k => orEmpty (item (solution puzzle) (k * 2))) [0; 1; 2; 3; 4].

(** Attempts made one after the other, each with its clock reading. *)
Fixpoint replay (plays : list (Z * string)) (s : AppState) : AppState :=
  match plays with
  | [] => s
  | (now, uci) :: rest => replay rest (attempt now uci s)
  end.

(** Each attempt of the list is legal in the position it is made in. *)
Fixpoint legalRun (plays : list (Z * string)) (s : AppState) : Prop :=
  match plays with
  | [] => True
  | (now, uci) :: rest =>
      legalUci s uci = true /\ legalRun rest (attempt now uci s)
  end.

(** The clock reading of the first move attempt of [es] that the engine
    accepts, the events being applied from [s] on. *)
Fixpoint firstLegalAttempt (es : list Event) (s : AppState) : option Z :=
  match es with
  | [] => None
  | e :: rest =>
      match e with
      | EvMove now from to =>
          if legalAttempt s from to then Some now
          else firstLegalAttempt rest (step e s)
      | _ => firstLegalAttempt rest (step e s)
      end
  end.

Definition isRestart (e : Event) : bool :=
  match e with EvRestart => true | _ => false end.

(** The states of the specification's machine. *)
Inductive Phase :=
| AwaitingMove (slot : Z)
| Complete.

Definition phase (s : AppState) : Phase :=
  if done s then Complete else AwaitingMove (playerMoveIndex s).

(** What holds of the cells together in every state a session can be in:
    the move index is 5 once the puzzle is done and at most 4 before, the
    hint stage is one of 0, 1, 2 and is 0 once done, and as long as the
    timer has not been started nothing has been played. *)
Definition consistent (s : AppState) : Prop :=
  (if done s then playerMoveIndex s = 5 else 0 <= playerMoveIndex s <= 4)
  /\ 0 <= hintStage s <= 2
  /\ (done s = true -> hintStage s = 0)
  /\ 0 <= mistakes s
  /\ match startRef s with
     | None => done s = false /\ playerMoveIndex s = 0 /\ mistakes s = 0
     | Some t => 0 < t
     end.

End App.

(* ================================================================== *)
(** ** A reference engine

    An executable engine with the rules of chess, used to run the handlers
    on the catalog's puzzle.  It stands in for [chess.js] from version 1.0
    on (a move that is not legal is refused with an error) in the examples
    only; the theorems below are stated for every engine with the laws of
    [ChessLaws].  Squares are [(r, c)] as the component's [sqName] counts
    them: [r] from the eighth rank down, [c] from the a-file. *)

Module RefChess.

Inductive Color := White | Black.

Inductive Kind := Pawn | Knight | Bishop | Rook | Queen | King.

Definition Piece := (Color * Kind)%type.

Definition Square := (Z * Z)%type.

Record Position := mkPos {
  board : list (option Piece);
  turn : Color;
  whiteShort : bool;
  whiteLong : bool;
  blackShort : bool;
  blackLong : bool;
  enPassant : option Square;
  halfMoves : Z;
  moveNumber : Z
}.

Definition sameColor (a b : Color) : bool :=
  match a, b with
  | White, White | Black, Black => true
  | _, _ => false
  end.

Definition sameKind (a b : Kind) : bool :=
  match a, b with
  | Pawn, Pawn | Knight, Knight | Bishop, Bishop
  | Rook, Rook | Queen, Queen | King, King => true
  | _, _ => false
  end.

Definition other (c : Color) : Color :=
  match c with White => Black | Black => White end.

Definition onBoard (sq : Square) : bool :=
  let '(r, c) := sq in (0 <=? r) && (r <? 8) && (0 <=? c) && (c <? 8).

Definition sameSquare (a b : Square) : bool :=
  (fst a =? fst b) && (snd a =? snd b).

Definition pieceAt (b : list (option Piece)) (sq : Square) : option Piece :=
  if onBoard sq then
    match nth_error b (Z.to_nat (fst sq * 8 + snd sq)) with
    | Some x => x
    | None => None
    end
  else None.

Definition place (b : list (option Piece)) (sq : Square) (v : option Piece)
  : list (option Piece) :=
  if onBoard sq then
    let n := Z.to_nat (fst sq * 8 + snd sq) in
    firstn n b ++ v :: skipn (S n) b
  else b.

Definition holds (b : list (option Piece)) (sq : Square) (col : Color)
  (k : Kind) : bool :=
  match pieceAt b sq with
  | Some (c', k') => sameColor c' col && sameKind k' k
  | None => false
  end.

Definition isEmptySq (b : list (option Piece)) (sq : Square) : bool :=
  match pieceAt b sq with Some _ => false | None => true end.

Definition hasColor (b : list (option Piece)) (sq : Square) (col : Color)
  : bool :=
  match pieceAt b sq with
  | Some (c', _) => sameColor c' col
  | None => false
  end.

(** The first piece met from [(r, c)] in the direction [(dr, dc)]. *)
Fixpoint firstOnRay (fuel : nat) (b : list (option Piece)) (r c dr dc : Z)
  : option Piece :=
  match fuel with
  | O => None
  | S f =>
      let sq := (r + dr, c + dc) in
      if onBoard sq then
        match pieceAt b sq with
        | Some p => Some p
        | None => firstOnRay f b (r + dr) (c + dc) dr dc
        end
      else None
  end.

Definition knightJumps : list Square :=
  [ (1, 2); (2, 1); (-1, 2); (-2, 1); (1, -2); (2, -1); (-1, -2); (-2, -1) ].

Definition straight : list Square := [ (1, 0); (-1, 0); (0, 1); (0, -1) ].

Definition diagonal : list Square := [ (1, 1); (1, -1); (-1, 1); (-1, -1) ].

(** Toward the eighth rank the row number falls. *)
Definition forward (col : Color) : Z :=
  match col with White => -1 | Black => 1 end.

(** Does a piece of colour [col] attack the square? *)
Definition attackedBy (b : list (option Piece)) (col : Color) (sq : Square)
  : bool :=
  let '(r, c) := sq in
  let slider k d :=
    match firstOnRay 7 b r c (fst d) (snd d) with
    | Some (c', k') => sameColor c' col && (sameKind k' k || sameKind k' Queen)
    | None => false
    end in
  holds b (r - forward col, c - 1) col Pawn
  || holds b (r - forward col, c + 1) col Pawn
  || existsb (fun d => holds b (r + fst d, c + snd d) col Knight) knightJumps
  || existsb (fun d => holds b (r + fst d, c + snd d) col King)
       (straight ++ diagonal)
  || existsb (slider Rook) straight
  || existsb (slider Bishop) diagonal.

(** Every square strictly between the two is empty (the two are on one
    line). *)
Fixpoint pathClear (fuel : nat) (b : list (option Piece)) (r c dr dc : Z)
  (target : Square) : bool :=
  match fuel with
  | O => false
  | S f =>
      let sq := (r + dr, c + dc) in
      if sameSquare sq target then true
      else if onBoard sq && isEmptySq b sq
           then pathClear f b (r + dr) (c + dc) dr dc target
           else false
  end.

Definition allSquares : list Square :=
  flat_map (fun r => map (fun c => (r, c)) [0; 1; 2; 3; 4; 5; 6; 7])
           [0; 1; 2; 3; 4; 5; 6; 7].

Definition kingSquare (b : list (option Piece)) (col : Color) : option Square :=
  find (fun sq => holds b sq col King) allSquares.

Definition inCheck (b : list (option Piece)) (col : Color) : bool :=
  match kingSquare b col with
  | Some sq => attackedBy b (other col) sq
  | None => false
  end.

(** The piece can go from [from] to [to] by the way it moves, captures
    included, castling apart. *)
Definition reaches (p : Position) (col : Color) (k : Kind) (from to : Square)
  : bool :=
  let b := board p in
  let '(fr, fc) := from in
  let '(tr, tc) := to in
  let dr := tr - fr in
  let dc := tc - fc in
  let line := pathClear 8 b fr fc (Z.sgn dr) (Z.sgn dc) to in
  let rookLine := ((dr =? 0) || (dc =? 0)) && line in
  let bishopLine := (Z.abs dr =? Z.abs dc) && line in
  negb (sameSquare from to) && negb (hasColor b to col) &&
  match k with
  | Knight =>
      (Z.abs dr =? 1) && (Z.abs dc =? 2) || (Z.abs dr =? 2) && (Z.abs dc =? 1)
  | King => (Z.abs dr <=? 1) && (Z.abs dc <=? 1)
  | Rook => rookLine
  | Bishop => bishopLine
  | Queen => rookLine || bishopLine
  | Pawn =>
      let home := match col with White => 6 | Black => 1 end in
      (dc =? 0) && (dr =? forward col) && isEmptySq b to
      || (dc =? 0) && (dr =? 2 * forward col) && (fr =? home)
         && isEmptySq b to && isEmptySq b (fr + forward col, fc)
      || (Z.abs dc =? 1) && (dr =? forward col)
         && (hasColor b to (other col)
             || match enPassant p with
                | Some e => sameSquare e to
                | None => false
                end)
  end.

(** Castling: the king's two-square step from its home square, with the
    right still held, the squares between king and rook empty, the king
    not in check and not passing an attacked square.  The answer is the
    rook's step. *)
Definition castles (p : Position) (col : Color) (from to : Square)
  : option (Square * Square) :=
  let b := board p in
  let hr := match col with White => 7 | Black => 0 end in
  let short := match col with White => whiteShort p | Black => blackShort p end in
  let long := match col with White => whiteLong p | Black => blackLong p end in
  let free sq := negb (attackedBy b (other col) sq) in
  if negb (sameSquare from (hr, 4)) || inCheck b col then None
  else if sameSquare to (hr, 6) && short
          && isEmptySq b (hr, 5) && isEmptySq b (hr, 6)
          && holds b (hr, 7) col Rook && free (hr, 5)
  then Some ((hr, 7), (hr, 5))
  else if sameSquare to (hr, 2) && long
          && isEmptySq b (hr, 1) && isEmptySq b (hr, 2) && isEmptySq b (hr, 3)
          && holds b (hr, 0) col Rook && free (hr, 3)
  then Some ((hr, 0), (hr, 3))
  else None.

Definition promotionKind (promo : string) : option Kind :=
  if String.eqb promo "q" then Some Queen
  else if String.eqb promo "r" then Some Rook
  else if String.eqb promo "b" then Some Bishop
  else if String.eqb promo "n" then Some Knight
  else None.

(** The position after the move, or [None] when the move is not legal. *)
Definition makeMove (p : Position) (from to : Square) (promo : string)
  : option Position :=
  let b := board p in
  match pieceAt b from with
  | None => None
  | Some (col, k) =>
      let castle := if sameKind k King then castles p col from to else None in
      let rookStep := match castle with Some _ => true | None => false end in
      if negb (sameColor col (turn p)) || negb (onBoard to)
         || negb (reaches p col k from to || rookStep)
      then None
      else
        let lastRow := match col with White => 0 | Black => 7 end in
        let promotes := sameKind k Pawn && (fst to =? lastRow) in
        match (if promotes then promotionKind promo else Some k) with
        | None => None
        | Some k' =>
            let taken := negb (isEmptySq b to) in
            let passing :=
              sameKind k Pawn && negb (snd from =? snd to) && negb taken in
            let b1 := place (place b from None) to (Some (col, k')) in
            let b2 := if passing then place b1 (fst from, snd to) None else b1 in
            let b3 :=
              match castle with
              | Some (rf, rt) => place (place b2 rf None) rt (Some (col, Rook))
              | None => b2
              end in
            let touched sq := sameSquare from sq || sameSquare to sq in
            let keeps r k1 k2 := r && negb (touched k1) && negb (touched k2) in
            if inCheck b3 col then None
            else Some {|
              board := b3;
              turn := other col;
              whiteShort := keeps (whiteShort p) (7, 4) (7, 7);
              whiteLong := keeps (whiteLong p) (7, 4) (7, 0);
              blackShort := keeps (blackShort p) (0, 4) (0, 7);
              blackLong := keeps (blackLong p) (0, 4) (0, 0);
              enPassant :=
                if sameKind k Pawn && (Z.abs (fst to - fst from) =? 2)
                then Some (fst from + forward col, snd from) else None;
              halfMoves := if sameKind k Pawn || taken || passing then 0
                           else halfMoves p + 1;
              moveNumber := match col with
                            | White => moveNumber p
                            | Black => moveNumber p + 1
                            end
            |}
        end
  end.

(** *** Forsyth-Edwards notation *)

Definition pieceOfAscii (a : ascii) : option Piece :=
  let k (x : ascii) :=
    if Ascii.eqb x "p" then Some Pawn else if Ascii.eqb x "n" then Some Knight
    else if Ascii.eqb x "b" then Some Bishop else if Ascii.eqb x "r" then Some Rook
    else if Ascii.eqb x "q" then Some Queen else if Ascii.eqb x "k" then Some King
    else None in
  match k a with
  | Some x => Some (Black, x)
  | None =>
      match k (ascii_of_N (N_of_ascii a + 32)) with
      | Some x => if (N_of_ascii a <? 97)%N then Some (White, x) else None
      | None => None
      end
  end.

Definition asciiOfPiece (p : Piece) : ascii :=
  let a := match snd p with
           | Pawn => "p" | Knight => "n" | Bishop => "b"
           | Rook => "r" | Queen => "q" | King => "k"
           end%char in
  match fst p with
  | Black => a
  | White => ascii_of_N (N_of_ascii a - 32)
  end.

Definition digit (n : Z) : string := NilZero.string_of_int (Z.to_int n).

Definition number (s : string) : Z :=
  match NilZero.int_of_string s with
  | Some i => Z.of_int i
  | None => 0
  end.

Fixpoint parsePlacement (s : string) : list (option Piece) :=
  match s with
  | EmptyString => []
  | String a r =>
      match pieceOfAscii a with
      | Some p => Some p :: parsePlacement r
      | None =>
          let n := code a - 48 in
          (if (1 <=? n) && (n <=? 8) then repeat None (Z.to_nat n) else [])
          ++ parsePlacement r
      end
  end.

Fixpoint printRow (row : list (option Piece)) (run : Z) : string :=
  let gap := if run =? 0 then "" else digit run in
  match row with
  | [] => gap
  | None :: r => printRow r (run + 1)
  | Some p :: r => gap ++ String (asciiOfPiece p) (printRow r 0)
  end.

Definition printPlacement (b : list (option Piece)) : string :=
  String.concat "/"
    (map (fun r => printRow (firstn 8 (skipn (8 * r) b)) 0)
         [0; 1; 2; 3; 4; 5; 6; 7]%nat).

Fixpoint fields (s : string) : list string :=
  match s with
  | EmptyString => [EmptyString]
  | String a r =>
      match fields r with
      | w :: ws => if Ascii.eqb a " " then EmptyString :: w :: ws
                   else String a w :: ws
      | [] => [String a EmptyString]
      end
  end.

Definition squareName (sq : Square) : string :=
  String (ascii_of_N (Z.to_N (97 + snd sq)))
    (String (ascii_of_N (Z.to_N (48 + 8 - fst sq))) EmptyString).

(** A square is named by exactly two characters. *)
Definition parseSquare (s : string) : option Square :=
  match s with
  | String f (String d EmptyString) =>
      let sq := (8 - (code d - 48), code f - 97) in
      if onBoard sq then Some sq else None
  | _ => None
  end.

Definition hasChar (a : ascii) (s : string) : bool :=
  existsb (Ascii.eqb a) (list_ascii_of_string s).

Definition parseFen (f : string) : Position :=
  let fs := fields f in
  let field n := nth n fs "" in
  {| board := parsePlacement (field 0%nat);
     turn := if String.eqb (field 1%nat) "b" then Black else White;
     whiteShort := hasChar "K" (field 2%nat);
     whiteLong := hasChar "Q" (field 2%nat);
     blackShort := hasChar "k" (field 2%nat);
     blackLong := hasChar "q" (field 2%nat);
     enPassant := parseSquare (field 3%nat);
     halfMoves := number (field 4%nat);
     moveNumber := number (field 5%nat) |}.

Definition printFen (p : Position) : string :=
  let rights :=
    (if whiteShort p then "K" else "") ++ (if whiteLong p then "Q" else "")
    ++ (if blackShort p then "k" else "") ++ (if blackLong p then "q" else "") in
  String.concat " "
    [ printPlacement (board p);
      match turn p with White => "w" | Black => "b" end;
      if String.eqb rights "" then "-" else rights;
      match enPassant p with Some e => squareName e | None => "-" end;
      digit (halfMoves p);
      digit (moveNumber p) ].

(** *** Counting move sequences

    The number of legal move sequences of a given length from a position
    (promotions to a queen only): a standard test of a move generator. *)

Definition successors (p : Position) : list Position :=
  flat_map
    (fun from =>
       flat_map
         (fun to =>
            match makeMove p from to "q" with
            | Some q => [q]
            | None => []
            end)
         allSquares)
    allSquares.

Fixpoint perft (depth : nat) (p : Position) : Z :=
  match depth with
  | O => 1
  | S d => fold_left (fun n q => n + perft d q) (successors p) 0
  end.

(** *** The game object: the position and the positions before it *)

Record Game := mkGame {
  cur : Position;
  past : list Position
}.

Definition load (f : string) : Game := {| cur := parseFen f; past := [] |}.

Definition move (g : Game) (a : MoveArg)
  : Completion (option (Game * Move)) :=
  match parseSquare (arg_from a), parseSquare (arg_to a) with
  | Some from, Some to =>
      match makeMove (cur g) from to (arg_promotion a) with
      | Some p =>
          Normal (Some ({| cur := p; past := cur g :: past g |},
                        mkMove (arg_from a) (arg_to a)))
      | None => Throw (InvalidMove a)
      end
  | _, _ => Throw (InvalidMove a)
  end.

Definition undo (g : Game) : Game :=
  match past g with
  | p :: h => {| cur := p; past := h |}
  | [] => g
  end.

Definition engine : ChessEngine := {|
  Chess := Game;
  newChess := load;
  chess_fen := fun g => printFen (cur g);
  chess_move := move;
  chess_undo := undo
|}.

End RefChess.

(* ================================================================== *)
(** ** The catalog's puzzle on the reference engine *)

(** The session of the catalog's puzzle, before any move. *)
Definition start : @AppState RefChess.engine :=
  @initialState RefChess.engine italian5.

(** The player's five moves, one every two seconds. *)
Definition solving : list (Z * string) :=
  [ (1000, "c3d4"); (3000, "b1c3"); (5000, "e1g1"); (7000, "b2c3");
    (9000, "f1e1") ].

(** The same as events of the session: five move attempts. *)
Definition solvingEvents : list Event :=
  [ EvMove 1000 "c3" "d4"; EvMove 3000 "b1" "c3"; EvMove 5000 "e1" "g1";
    EvMove 7000 "b2" "c3"; EvMove 9000 "f1" "e1" ].

(** The session after the five moves. *)
Definition solved : @AppState RefChess.engine :=
  @run RefChess.engine italian5 solvingEvents start.

(** A whole session: a look at the hint, a wrong move, the five moves
    with a tick of the timer before the last one, and a name typed at the
    end. *)
Definition sessionEvents : list Event :=
  [ EvHint; EvMove 900 "e4" "e5";
    EvMove 1000 "c3" "d4"; EvMove 3000 "b1" "c3"; EvMove 5000 "e1" "g1";
    EvMove 7000 "b2" "c3"; EvTick 8800; EvMove 9000 "f1" "e1";
    EvName (ofString "  Khai  ") ].

Definition finished : @AppState RefChess.engine :=
  @run RefChess.engine italian5 sessionEvents start.

(** The boards of the line with the player to move: the starting
    position, the boards after each of the first four moves and their
    replies, and the board after the fifth move. *)
Definition lineFens : list string :=
  [ fen italian5;
    "r1bqk2r/pppp1ppp/2n2n2/8/1bBPP3/5N2/PP3PPP/RNBQK2R w KQkq - 1 7";
    "r1bqk2r/pppp1ppp/2n5/8/1bBPn3/2N2N2/PP3PPP/R1BQK2R w KQkq - 0 8";
    "r1bqk2r/pppp1ppp/2n5/8/1bBP4/2n2N2/PP3PPP/R1BQ1RK1 w kq - 0 9";
    "r1bqk2r/pppp1ppp/2n5/b7/2BP4/2P2N2/P4PPP/R1BQ1RK1 w kq - 1 10";
    "r1bqk2r/pppp1ppp/2n5/b7/2BP4/2P2N2/P4PPP/R1BQR1K1 b kq - 2 10" ].

(** One step along the line on the reference engine: on the board [F]
    the player's move number [k] (counted from 0), made as the component
    makes it, is followed by a reply that the engine does not refuse, and
    the board is then [F']. *)
Definition lineStep (k : Z) (F F' : string) : Prop :=
  forall (u : string) (f t : RefChess.Square) (Q : RefChess.Position),
    item (solution italian5) (k * 2) = Some u ->
    RefChess.parseSquare (slice 0 2 u) = Some f ->
    RefChess.parseSquare (slice 2 4 u) = Some t ->
    RefChess.makeMove (RefChess.parseFen F) f t "q" = Some Q ->
    match @applyOpponentMoveIfExists RefChess.engine italian5 (k + 1)
            (RefChess.load (RefChess.printFen Q)) with
    | Normal g => RefChess.cur g = RefChess.parseFen F'
    | Throw _ => False
    end.

(** What the cells of a session of the catalog's puzzle on the reference
    engine hold together: the board is the board of the line that goes
    with the move index. *)
Definition onLine (s : @AppState RefChess.engine) : Prop :=
  exists (k : Z) (F : string),
    0 <= k <= 5
    /\ playerMoveIndex s = k
    /\ done s = (k >=? 5)
    /\ item lineFens k = Some F
    /\ RefChess.cur (game s) = RefChess.parseFen F.

(* ================================================================== *)
(** ** App.tsx: squares and the clock display *)

(** A JavaScript number that is an integer or [NaN]. *)
Inductive jsnum :=
| Num (z : Z)
| NaN.

(** [x === n] for a number [x] and an integer [n]. *)
Definition numIs (x : jsnum) (n : Z) : bool :=
  match x with
  | Num z => z =? n
  | NaN => false
  end.

(** [String(n)] for an integer [n]. *)
Definition numberToString (n : Z) : string :=
  NilZero.string_of_int (Z.to_int n).

(** [s[i]] as an operand of [+]: the character, or the text of
    [undefined] outside the string. *)
Definition charOrUndefined (s : string) (i : Z) : string :=
  if i <? 0 then "undefined"
  else match String.get (Z.to_nat i) s with
       | Some a => String a EmptyString
       | None => "undefined"
       end.

(** ["abcdefgh"[c] + String(8 - r)] *)
Definition sqName (r c : Z) : string :=
  charOrUndefined "abcdefgh" c ++ numberToString (8 - r).

(** [Number(x)] for [x] a one-character string or [undefined]: a digit
    is its value, a white-space character is 0, anything else is [NaN]. *)
Definition numberOfChar (x : option ascii) : jsnum :=
  match x with
  | None => NaN
  | Some a =>
      let n := code a in
      if (48 <=? n) && (n <=? 57) then Num (n - 48)
      else if isWhite n then Num 0
      else NaN
  end.

(** [files.indexOf(x)] for [x] a one-character string. *)
Fixpoint indexOfChar (files : string) (a : ascii) : Z :=
  match files with
  | EmptyString => -1
  | String f rest =>
      if Ascii.eqb f a then 0
      else let i := indexOfChar rest a in
           if i <? 0 then -1 else i + 1
  end.

Module Coords.

Record t := mk {
  r : jsnum;
  c : Z
}.

End Coords.

(** [{ r: 8 - Number(sq[1]), c: files.indexOf(sq[0]) }]; for the empty
    string [sq[0]] is [undefined], which [indexOf] does not find. *)
Definition coordsFromSq (sq : string) : Coords.t :=
  let files := "abcdefgh" in
  {| Coords.r := match numberOfChar (String.get 1 sq) with
                 | Num d => Num (8 - d)
                 | NaN => NaN
                 end;
     Coords.c := match String.get 0 sq with
                 | Some a => indexOfChar files a
                 | None => -1
                 end |}.

(** [s.padStart(2, "0")] *)
Definition padStart2 (s : string) : string :=
  match String.length s with
  | O => "00"
  | S O => "0" ++ s
  | _ => s
  end.

(** *** Doubles

    The numbers of the clock display are doubles whose value is an
    integer, kept as that integer.  A quotient is rounded to the nearest
    double, a tie going to the even one. *)

Definition safeInteger (x : Z) : Prop := Z.abs x < 2 ^ 53.

(** The integer nearest to [p / q], a tie going to the even one
    ([0 <= p], [0 < q]). *)
Definition roundHalfEven (p q : Z) : Z :=
  let f := p / q in
  let twice := 2 * (p mod q) in
  if twice <? q then f
  else if q <? twice then f + 1
  else if Z.even f then f else f + 1.

(** The double nearest to [p / q] for [0 < p] and [0 < q], as
    [(m, e)] with the value [m * 2^e]: [e] is taken so that [p / q] lies
    between [2^(e+52)] and [2^(e+53)], and [m] is [p / q / 2^e] rounded
    to an integer.  (The numbers here are far from the smallest and the
    largest doubles.) *)
Definition nearestDouble (p q : Z) : Z * Z :=
  let k0 := Z.log2 p - Z.log2 q in
  let below := if 0 <=? k0 then p <? q * 2 ^ k0 else p * 2 ^ (- k0) <? q in
  let k := if below then k0 - 1 else k0 in
  let e := k - 52 in
  let m := if 0 <=? e then roundHalfEven p (q * 2 ^ e)
           else roundHalfEven (p * 2 ^ (- e)) q in
  (m, e).

(** [Math.floor] and [Math.ceil] of a double [m * 2^e], [0 <= m]. *)
Definition floorOf (d : Z * Z) : Z :=
  let '(m, e) := d in
  if 0 <=? e then m * 2 ^ e else m / 2 ^ (- e).

Definition ceilOf (d : Z * Z) : Z :=
  let '(m, e) := d in
  if 0 <=? e then m * 2 ^ e else - ((- m) / 2 ^ (- e)).

(** [Math.floor(x / y)] for [0 < y]. *)
Definition floorDiv (x y : Z) : Z :=
  if x =? 0 then 0
  else if 0 <? x then floorOf (nearestDouble x y)
  else - ceilOf (nearestDouble (- x) y).

(** The double nearest to a positive integer. *)
Definition toDouble (v : Z) : Z :=
  if v <? 2 ^ 53 then v
  else let '(m, e) := nearestDouble v 1 in m * 2 ^ e.

(** The digits of [String(x)] for a double [x] of [2^53] and more:
    integers [s] of [k] digits and [n] with [x] the double nearest to
    [s * 10^(n-k)], for the smallest [k] there is; of two such [s] the
    one nearer to [x], and of two equally near the even one.  The search
    goes up from [k]; [digits] is the number of digits of [x]. *)
Fixpoint shortestDigits (fuel : nat) (x digits k : Z) : Z * Z * Z :=
  match fuel with
  | O => (x, digits, digits)
  | S f =>
      let scale := 10 ^ (digits - k) in
      let lo := x / scale in
      let hi := lo + 1 in
      let okLo := toDouble (lo * scale) =? x in
      let okHi := toDouble (hi * scale) =? x in
      let under := x - lo * scale in
      let over := hi * scale - x in
      let takeLo :=
        okLo && (negb okHi || (under <? over)
                 || ((under =? over) && Z.even lo)) in
      if takeLo then (lo, k, digits)
      else if okHi then
        if hi =? 10 ^ k then (10 ^ (k - 1), k, digits + 1)
        else (hi, k, digits)
      else shortestDigits f x digits (k + 1)
  end.

(** [String(x)] for a double [x] whose value is an integer, [0 <= x]:
    below [2^53] the decimal numeral of [x]; from there on the shortest
    digits, with zeros after them up to 21 digits and with an exponent
    beyond. *)
Definition stringOfNumber (x : Z) : string :=
  if x <? 2 ^ 53 then numberToString x
  else
    let digits := Z.of_nat (String.length (numberToString x)) in
    let '(s, k, n) := shortestDigits 17 x digits 1 in
    let text := numberToString s in
    if n <=? 21 then
      text ++ string_of_list_ascii (repeat "0"%char (Z.to_nat (n - k)))
    else
      match text with
      | String d EmptyString => String d EmptyString
      | String d rest => String d (String "." rest)
      | EmptyString => EmptyString
      end ++ "e+" ++ numberToString (n - 1).

(** [formatTime(ms)] for a number of milliseconds whose value is an
    integer. *)
Definition formatTime (ms : Z) : string :=
  let total := Z.max 0 (floorDiv ms 1000) in
  let m := floorDiv total 60 in
  let s := total mod 60 in
  padStart2 (stringOfNumber m) ++ ":" ++ padStart2 (stringOfNumber s).

(** Reading a clock display back: the text before the first colon as
    minutes, the text after it as seconds. *)
Fixpoint beforeColon (s : string) : string :=
  match s with
  | EmptyString => EmptyString
  | String a r => if Ascii.eqb a ":" then EmptyString
                  else String a (beforeColon r)
  end.

Fixpoint afterColon (s : string) : string :=
  match s with
  | EmptyString => EmptyString
  | String a r => if Ascii.eqb a ":" then r else afterColon r
  end.

Definition decimalValue (s : string) : Z :=
  match NilZero.int_of_string s with
  | Some i => Z.of_int i
  | None => 0
  end.

Definition secondsShown (s : string) : Z :=
  60 * decimalValue (beforeColon s) + decimalValue (afterColon s).

(** A text of decimal digits only. *)
Fixpoint allDigits (s : string) : bool :=
  match s with
  | EmptyString => true
  | String a r =>
      (48 <=? code a) && (code a <=? 57) && allDigits r
  end.

(* ================================================================== *)
(** ** App.tsx: the cells of the board

    The cells read two more things of the game object: [game.get(square)],
    the piece on a square ([null] for an empty one), and [game.turn()],
    the side to move. *)

Module Color.

Inductive t := w | b.

Definition eqb (x y : t) : bool :=
  match x, y with
  | w, w | b, b => true
  | _, _ => false
  end.

End Color.

Module Piece.

Record t := mk {
  type : string;
  color : Color.t
}.

End Piece.

Class ChessView (E : ChessEngine) := {
  chess_get : Chess -> string -> option Piece.t;
  chess_turn : Chess -> Color.t
}.

Section AppView.

Context {E : ChessEngine} {V : ChessView E}.
Variable puzzle : WeeklyPuzzle.

(** [setSelected(v)] *)
Definition setSelected (v : option (Z * Z)) (s : AppState) : AppState :=
  {| game := game s;
     board := board s;
     selected := v;
     playerMoveIndex := playerMoveIndex s;
     mistakes := mistakes s;
     done := done s;
     name := name s;
     startRef := startRef s;
     timeMs := timeMs s;
     hintStage := hintStage s |}.

(** [cell && cell.color === game.turn()] for the cell at [(r, c)]: the
    cell is the one of the [board] memo, which holds what
    [game.get(sqName(r, c))] answered when the memo was computed, and
    [game.turn()] asks the game object as it is now. *)
Definition ownPieceAt (s : AppState) (r c : Z) : bool :=
  match chess_get (board s) (sqName r c) with
  | Some cell => Color.eqb (Piece.color cell) (chess_turn (game s))
  | None => false
  end.

(** The [onClick] of the cell at [(r, c)]; [now] is the reading of
    [Date.now()] if the click leads to a move attempt.  When
    [tryPlayerMove] throws, the [setSelected(null)] after it is not
    reached. *)
Definition onCellClick (now : Z) (r c : Z) (s : AppState) : Handled :=
  let sq := sqName r c in
  match selected s with
  | None =>
      Returned (if ownPieceAt s r c then setSelected (Some (r, c)) s else s)
  | Some (sr, sc) =>
      match tryPlayerMove puzzle now (sqName sr sc) sq s with
      | Returned s' => Returned (setSelected None s')
      | Threw e s' => Threw e s'
      end
  end.

(** [hintCoords]: the coordinates of the two squares of [hintSquares]. *)
Definition hintCoords (s : AppState) : option (Coords.t * Coords.t) :=
  match hintSquares puzzle s with
  | None => None
  | Some (from, to) => Some (coordsFromSq from, coordsFromSq to)
  end.

(** [!!hintCoords && hintStage >= 1 && hintCoords.from.r === r
    && hintCoords.from.c === c] *)
Definition isHintFrom (s : AppState) (r c : Z) : bool :=
  match hintCoords s with
  | None => false
  | Some (from, _) =>
      (hintStage s >=? 1) && numIs (Coords.r from) r && (Coords.c from =? c)
  end.

(** The same for the destination, from stage 2 on. *)
Definition isHintTo (s : AppState) (r c : Z) : bool :=
  match hintCoords s with
  | None => false
  | Some (_, to) =>
      (hintStage s >=? 2) && numIs (Coords.r to) r && (Coords.c to =? c)
  end.

(** [selected?.r === r && selected?.c === c] *)
Definition isSelected (s : AppState) (r c : Z) : bool :=
  match selected s with
  | Some (sr, sc) => (sr =? r) && (sc =? c)
  | None => false
  end.

(** *** What the user can do

    Clicks on the cells of the board (the rows and columns the component
    renders are 0 to 7), the hint button, the restart button, the ticks
    of the timer and edits of the name. *)
Inductive UiEvent :=
| UiClick (now : Z) (r c : Z)
| UiHint
| UiRestart
| UiTick (now : Z)
| UiName (n : jsstring).

Definition uiOk (e : UiEvent) : Prop :=
  match e with
  | UiClick now r c => 0 < now /\ 0 <= r < 8 /\ 0 <= c < 8
  | UiTick now => 0 < now
  | _ => True
  end.

Definition uiStep (e : UiEvent) (s : AppState) : AppState :=
  match e with
  | UiClick now r c => stateOf (onCellClick now r c s)
  | UiHint => requestHint puzzle s
  | UiRestart => restartPuzzle puzzle s
  | UiTick now => tick now s
  | UiName n => setName n s
  end.

Inductive uiReachable : AppState -> Prop :=
| ui_init : uiReachable (initialState puzzle)
| ui_step : forall e s, uiReachable s -> uiOk e -> uiReachable (uiStep e s).

End AppView.

(** *** Counting and clocks over a run of events *)

Section Runs.

Context {E : ChessEngine}.
Variable puzzle : WeeklyPuzzle.

(** The number of move attempts of [es] that are made before completion
    and accepted by the engine, the events being applied from [s] on. *)
Fixpoint acceptedAttempts (es : list Event) (s : AppState) : Z :=
  match es with
  | [] => 0
  | e :: rest =>
      match e with
      | EvMove now from to =>
          if negb (done s) && legalAttempt s from to then 1 else 0
      | _ => 0
      end + acceptedAttempts rest (step puzzle e s)
  end.

(** The number of move attempts of [es] on whose scripted reply the
    engine throws. *)
Fixpoint refusedReplies (es : list Event) (s : AppState) : Z :=
  match es with
  | [] => 0
  | e :: rest =>
      match e with
      | EvMove now from to => if replyThrows puzzle s from to then 1 else 0
      | _ => 0
      end + refusedReplies rest (step puzzle e s)
  end.

(** The clock reading an event carries, if it carries one. *)
Definition clockOf (e : Event) : option Z :=
  match e with
  | EvMove now _ _ => Some now
  | EvTick now => Some now
  | _ => None
  end.

(** The readings of [es] never go back, starting from [prev]. *)
Fixpoint clockAscends (prev : Z) (es : list Event) : Prop :=
  match es with
  | [] => True
  | e :: rest =>
      match clockOf e with
      | Some now => prev <= now /\ clockAscends now rest
      | None => clockAscends prev rest
      end
  end.

(** The last reading of [es], or [prev] if there is none. *)
Fixpoint latestClock (prev : Z) (es : list Event) : Z :=
  match es with
  | [] => prev
  | e :: rest =>
      match clockOf e with
      | Some now => latestClock now rest
      | None => latestClock prev rest
      end
  end.

End Runs.

(** *** The cells on the reference engine *)

Module RefView.

Definition letter (k : RefChess.Kind) : string :=
  match k with
  | RefChess.Pawn => "p" | RefChess.Knight => "n" | RefChess.Bishop => "b"
  | RefChess.Rook => "r" | RefChess.Queen => "q" | RefChess.King => "k"
  end.

Definition side (c : RefChess.Color) : Color.t :=
  match c with
  | RefChess.White => Color.w
  | RefChess.Black => Color.b
  end.

Definition get (g : RefChess.Game) (sq : string) : option Piece.t :=
  match RefChess.parseSquare sq with
  | Some q =>
      match RefChess.pieceAt (RefChess.board (RefChess.cur g)) q with
      | Some (c, k) => Some (Piece.mk (letter k) (side c))
      | None => None
      end
  | None => None
  end.

Definition view : ChessView RefChess.engine :=
  Build_ChessView RefChess.engine get
    (fun g => side (RefChess.turn (RefChess.cur g))).

End RefView.

(** The first move made with two clicks: on c3 (row 5, column 2), then
    on d4 (row 4, column 3). *)
Definition afterFirstClick : @AppState RefChess.engine :=
  @uiStep RefChess.engine RefView.view italian5 (UiClick 1000 5 2) start.

Definition afterSecondClick : @AppState RefChess.engine :=
  @uiStep RefChess.engine RefView.view italian5 (UiClick 1000 4 3)
    afterFirstClick.

(** A slip of the hand: with c3 selected, a click on c4 (row 4, column
    2), where the bishop stands; then the click on d4. *)
Definition afterRefusedClick : @AppState RefChess.engine :=
  @uiStep RefChess.engine RefView.view italian5 (UiClick 1000 4 2)
    afterFirstClick.

Definition afterThirdClick : @AppState RefChess.engine :=
  @uiStep RefChess.engine RefView.view italian5 (UiClick 2000 4 3)
    afterRefusedClick.

(* ================================================================== *)
(** ** App.tsx: the week key

    A [Date] is its time value, the milliseconds since
    1970-01-01T00:00:00Z.  Local time is taken to run a fixed [zone]
    milliseconds ahead of UTC (behind it for a negative [zone]): a zone
    whose offset does not change in the days concerned.  The calendar is
    the one ECMAScript defines for time values. *)

Module JSDate.

Definition msPerDay : Z := 86400000.

(** [Day(t)]: the day number of a time value. *)
Definition Day (t : Z) : Z := t / msPerDay.

(** [DayFromYear(y)]: the day number of the first day of year [y]. *)
Definition DayFromYear (y : Z) : Z :=
  365 * (y - 1970) + (y - 1969) / 4 - (y - 1901) / 100 + (y - 1601) / 400.

(** Going up from a year that starts on or before day [d] while the next
    year does too. *)
Fixpoint climb (fuel : nat) (y d : Z) : Z :=
  match fuel with
  | O => y
  | S f => if DayFromYear (y + 1) <=? d then climb f (y + 1) d else y
  end.

(** The year of day [d]: the largest [y] with [DayFromYear(y) <= d],
    found from a year that is not after it. *)
Definition yearOfDay (d : Z) : Z :=
  let low := 1970 + (if 0 <=? d then d / 366 else d / 365) in
  climb (Z.to_nat (Z.abs d / 100000 + 3)) low d.

(** [InLeapYear]: 1 in a leap year, 0 otherwise. *)
Definition leapDay (y : Z) : Z :=
  if (y mod 4 =? 0) && (negb (y mod 100 =? 0) || (y mod 400 =? 0))
  then 1 else 0.

(** The day within the year on which each month begins. *)
Definition monthStarts (leap : Z) : list Z :=
  [ 0; 31; 59 + leap; 90 + leap; 120 + leap; 151 + leap; 181 + leap;
    212 + leap; 243 + leap; 273 + leap; 304 + leap; 334 + leap ].

(** [MonthFromTime]: 0 for January to 11 for December. *)
Definition monthOf (leap within : Z) : Z :=
  Z.of_nat (List.length
              (filter (fun start => start <=? within)
                      (tl (monthStarts leap)))).

(** [DateFromTime]: the day of the month, from 1. *)
Definition dateOf (leap within : Z) : Z :=
  within - nth (Z.to_nat (monthOf leap within)) (monthStarts leap) 0 + 1.

(** [s.padStart(width, "0")] *)
Definition padZeros (width : nat) (s : string) : string :=
  string_of_list_ascii (repeat "0"%char (width - String.length s)) ++ s.

(** The first characters of [toISOString()], up to the [T]: the year in
    four digits, or with a sign and six digits outside 0 to 9999, then
    the month and the day of the month in two digits each. *)
Definition isoDate (d : Z) : string :=
  let y := yearOfDay d in
  let within := d - DayFromYear y in
  let leap := leapDay y in
  (if (0 <=? y) && (y <=? 9999) then padZeros 4 (numberToString y)
   else (if y <? 0 then "-" else "+")
        ++ padZeros 6 (numberToString (Z.abs y)))
  ++ "-" ++ padZeros 2 (numberToString (monthOf leap within + 1))
  ++ "-" ++ padZeros 2 (numberToString (dateOf leap within)).

(** [d.toISOString().slice(0, 10)] *)
Definition yyyyMmDd (t : Z) : string := slice 0 10 (isoDate (Day t)).

(** [d.getDay()]: 0 for Sunday to 6 for Saturday, in local time. *)
Definition getDay (zone t : Z) : Z := (Day (t + zone) + 4) mod 7.

(** [d.setDate(d.getDate() + diff)]: the local date moves by [diff]
    days and the local time of day stays. *)
Definition addDays (diff t : Z) : Z := t + diff * msPerDay.

(** [d.setHours(0, 0, 0, 0)]: local midnight of the local date. *)
Definition startOfLocalDay (zone t : Z) : Z :=
  Day (t + zone) * msPerDay - zone.

End JSDate.

Definition getWeekKey (zone : Z) (date : Z) : string :=
  let dt := date in
  let day := JSDate.getDay zone dt in (* 0 Sun..6 Sat *)
  let diff := (if day =? 0 then -6 else 1) - day in (* move to Monday *)
  let dt := JSDate.addDays diff dt in
  let dt := JSDate.startOfLocalDay zone dt in
  JSDate.yyyyMmDd dt.

(** Reading a key back: the day number of the date that a text
    [YYYY-MM-DD] names. *)
Definition dayOfKey (key : string) : Z :=
  let y := decimalValue (slice 0 4 key) in
  let m := decimalValue (slice 5 7 key) in
  let d := decimalValue (slice 8 10 key) in
  JSDate.DayFromYear y
  + nth (Z.to_nat (m - 1)) (JSDate.monthStarts (JSDate.leapDay y)) 0
  + d - 1.

(** The days of the years 0 to 9999. *)
Definition fourDigitYear (d : Z) : Prop := -719528 <= d <= 2932896.

(** The local day number of the Monday on or before the local date. *)
Definition localMonday (zone date : Z) : Z :=
  let today := JSDate.Day (date + zone) in
  today - (today + 3) mod 7.

(** The day number, in UTC, of local midnight of that Monday, for a zone
    less than a day from UTC: the Monday itself at or behind UTC, the
    day before it ahead of UTC. *)
Definition keyDay (zone date : Z) : Z :=
  if zone <=? 0 then localMonday zone date else localMonday zone date - 1.

(** Checks run over the days of a year and over the numbers that are
    padded to two and to four digits. *)
Definition monthDateOk (l w : Z) : bool :=
  negb (w <? 365 + l)
  || ((0 <=? JSDate.monthOf l w) && (JSDate.monthOf l w <=? 11)
      && (1 <=? JSDate.dateOf l w) && (JSDate.dateOf l w <=? 31)).

Definition padOk (width : nat) (n : Z) : bool :=
  Nat.eqb (String.length (JSDate.padZeros width (numberToString n))) width
  && (decimalValue (JSDate.padZeros width (numberToString n)) =? n).

(* ================================================================== *)
(** * Properties *)

(** ** Strings *)

Lemma string_length_append (s r : string) :
  String.length (s ++ r) = (String.length s + String.length r)%nat.
Proof. induction s as [|a s IH]; cbn; [reflexivity|rewrite IH; reflexivity]. Qed.

Lemma append_empty (s : string) : s ++ EmptyString = s.
Proof. induction s as [|a s IH]; cbn; [reflexivity|rewrite IH; reflexivity]. Qed.

Lemma substring_whole (s r : string) :
  substring 0 (String.length s) (s ++ r) = s.
Proof.
  induction s as [|a s IH]; cbn.
  - destruct r; reflexivity.
  - rewrite IH. reflexivity.
Qed.

Lemma substring_past (s r : string) (k m : nat) :
  substring (String.length s + k) m (s ++ r) = substring k m r.
Proof. induction s as [|a s IH]; cbn; [reflexivity|exact IH]. Qed.

Lemma toLowerCase_append (s r : string) :
  toLowerCase (s ++ r) = toLowerCase s ++ toLowerCase r.
Proof. induction s as [|a s IH]; cbn; [reflexivity|rewrite IH; reflexivity]. Qed.

(** Two texts of two characters each are read back from the four they
    make together. *)
Lemma two_and_two (x y : string) :
  String.length x = 2%nat -> String.length y = 2%nat ->
  slice 0 2 (x ++ y) = x /\ slice 2 4 (x ++ y) = y.
Proof.
  intros Hx Hy. unfold slice. cbn [Nat.sub]. split.
  - rewrite <- Hx. apply substring_whole.
  - change 2%nat with (2 + 0)%nat at 1. rewrite <- Hx at 1.
    rewrite substring_past. rewrite <- Hy.
    rewrite <- (append_empty y) at 2. apply substring_whole.
Qed.

(** ** Week selector *)

Lemma toUint32_range (x : Z) : 0 <= toUint32 x < 2 ^ 32.
Proof. unfold toUint32. apply Z.mod_pos_bound. reflexivity. Qed.

Lemma weekHash_snoc (w : jsstring) (c : Z) :
  weekHash (w ++ [c])%list = (weekHash w * 31 + c) mod 2 ^ 32.
Proof. unfold weekHash. rewrite fold_left_app. reflexivity. Qed.

Lemma weekHash_range (w : jsstring) : 0 <= weekHash w < 2 ^ 32.
Proof.
  destruct (rev w) as [|c r] eqn:Hr.
  - apply (f_equal (@rev Z)) in Hr. rewrite rev_involutive in Hr. subst w.
    cbn. lia.
  - apply (f_equal (@rev Z)) in Hr. rewrite rev_involutive in Hr. subst w.
    cbn [rev]. rewrite weekHash_snoc. apply Z.mod_pos_bound. reflexivity.
Qed.

(** The numbers the loop body forms stay below [2^53], so the
    double-precision arithmetic of the source is exact on them. *)
Lemma hashStep_exact (h c : Z) :
  0 <= h < 2 ^ 32 -> 0 <= c < 2 ^ 16 -> 0 <= h * 31 + c < 2 ^ 53.
Proof. intros Hh Hc. change (2 ^ 32) with 4294967296 in Hh.
  change (2 ^ 16) with 65536 in Hc. change (2 ^ 53) with 9007199254740992. lia.
Qed.

Lemma polyValue_mod_congr (u : jsstring) :
  forall x y,
    x mod 2 ^ 32 = y mod 2 ^ 32 ->
    polyValue x u mod 2 ^ 32 = polyValue y u mod 2 ^ 32.
Proof.
  induction u as [|e u IHu]; intros x y Hxy; cbn [polyValue].
  - exact Hxy.
  - apply IHu.
    rewrite (Z.add_mod (x * 31)), (Z.add_mod (y * 31)) by discriminate.
    rewrite (Z.mul_mod x), (Z.mul_mod y) by discriminate.
    rewrite Hxy. reflexivity.
Qed.

Lemma fold_hashStep_poly (w : jsstring) :
  forall a, fold_left hashStep w a mod 2 ^ 32 = polyValue a w mod 2 ^ 32.
Proof.
  induction w as [|c w IH]; intros a; cbn [fold_left polyValue].
  - reflexivity.
  - rewrite IH. apply polyValue_mod_congr.
    unfold hashStep, toUint32. apply Z.mod_mod. discriminate.
Qed.

(** The loop computes the polynomial hash of the specification. *)
Lemma weekHash_specHash (w : jsstring) : weekHash w = specHash w.
Proof.
  unfold specHash. rewrite <- fold_hashStep_poly. fold (weekHash w).
  symmetry. apply Z.mod_small. apply weekHash_range.
Qed.

Lemma item_in_range {A} (xs : list A) (i : Z) :
  0 <= i < Z.of_nat (List.length xs) ->
  exists x, item xs i = Some x /\ nth_error xs (Z.to_nat i) = Some x.
Proof.
  intros Hi. unfold item.
  destruct (i <? 0) eqn:Hneg; [apply Z.ltb_lt in Hneg; lia|].
  destruct (nth_error xs (Z.to_nat i)) as [x|] eqn:Hx.
  - exists x. split; reflexivity.
  - apply nth_error_None in Hx. lia.
Qed.

(** C6.  The weekly puzzle is picked from [PUZZLES], which is not empty.
    The puzzle of a week is the catalog's entry at [h mod size],
    where [h] starts at 0 and becomes [(h * 31 + charCode) mod 2^32] for
    each character in turn (which is the polynomial hash of the
    specification); the index is in range whenever the catalog is not
    empty, so a puzzle is always selected, and two week keys whose hashes
    fall in the same bucket select the same puzzle. *)
Theorem pickWeeklyPuzzle_by_hash :
  forall (catalog : list WeeklyPuzzle) (weekKey : jsstring),
    catalog <> [] ->
    let size := Z.of_nat (List.length catalog) in
    let h := weekHash weekKey in
    (PUZZLES <> [] /\ pickWeeklyPuzzle weekKey = pickFrom PUZZLES weekKey)
    /\ weekHash [] = 0
    /\ (forall w c, weekHash (w ++ [c])%list = (weekHash w * 31 + c) mod 2 ^ 32)
    /\ h = specHash weekKey
    /\ 0 <= h < 2 ^ 32
    /\ 0 <= h mod size < size
    /\ (exists p, pickFrom catalog weekKey = Some p
                  /\ nth_error catalog (Z.to_nat (h mod size)) = Some p)
    /\ (forall weekKey',
          weekHash weekKey' mod size = h mod size ->
          pickFrom catalog weekKey' = pickFrom catalog weekKey).
Proof.
  intros catalog weekKey Hne size h.
  assert (Hsize : 0 < size).
  { subst size. destruct catalog; [congruence|]. cbn [List.length]. lia. }
  assert (Hpick : forall k, pickFrom catalog k
                            = item catalog (weekHash k mod size)).
  { intros k. unfold pickFrom. destruct catalog as [|p0 rest]; [congruence|].
    fold size. rewrite Z.rem_mod_nonneg; [reflexivity| |exact Hsize].
    apply weekHash_range. }
  split; [split; [discriminate|reflexivity]|].
  split; [reflexivity|].
  split; [exact weekHash_snoc|].
  split; [apply weekHash_specHash|].
  split; [apply weekHash_range|].
  assert (Hidx : 0 <= h mod size < size) by (apply Z.mod_pos_bound; exact Hsize).
  split; [exact Hidx|].
  split.
  - destruct (item_in_range catalog (h mod size) Hidx) as [p [Hp Hn]].
    exists p. rewrite Hpick. split; assumption.
  - intros k Hk. rewrite !Hpick, Hk. reflexivity.
Qed.

(** The selection evaluated for the week of Monday 2026-11-02. *)
Lemma pickWeeklyPuzzle_by_hash_witness :
  weekHash (ofString "2026-11-02") = 1162589252
  /\ pickWeeklyPuzzle (ofString "2026-11-02") = Some italian5.
Proof.
  pose proof (pickWeeklyPuzzle_by_hash PUZZLES (ofString "2026-11-02")) as H.
  split; [vm_compute; reflexivity|].
  destruct H as [_ [_ [_ [_ [_ [_ [[p [Hp Hn]] _]]]]]]]; [discriminate|].
  unfold pickWeeklyPuzzle. rewrite Hp. vm_compute in Hn. symmetry. exact Hn.
Defined.

(** ** Names and the leaderboard write *)

Lemma trimStart_decompose (s : jsstring) :
  exists pre, s = (pre ++ trimStart s)%list /\ Forall (fun c => isWhite c = true) pre.
Proof.
  induction s as [|c r IH]; cbn [trimStart].
  - exists []. split; [reflexivity|constructor].
  - destruct (isWhite c) eqn:Hc.
    + destruct IH as [pre [Heq Hpre]]. exists (c :: pre). split.
      * cbn. rewrite <- Heq. reflexivity.
      * constructor; assumption.
    + exists []. split; [reflexivity|constructor].
Qed.

Lemma trimStart_head (s : jsstring) :
  match trimStart s with
  | c :: _ => isWhite c = false
  | [] => True
  end.
Proof.
  induction s as [|c r IH]; cbn [trimStart]; [exact I|].
  destruct (isWhite c) eqn:Hc; [exact IH|exact Hc].
Qed.

(** [trim] removes a run of white space at each end and nothing else. *)
Lemma trim_decompose (s : jsstring) :
  exists pre post,
    s = (pre ++ trim s ++ post)%list /\ Forall (fun c => isWhite c = true) pre
    /\ Forall (fun c => isWhite c = true) post.
Proof.
  destruct (trimStart_decompose s) as [pre [Hs Hpre]].
  destruct (trimStart_decompose (rev (trimStart s))) as [post [Hr Hpost]].
  exists pre, (rev post). repeat split.
  - unfold trim, trimEnd. rewrite Hs at 1. f_equal.
    rewrite <- rev_app_distr, <- Hr, rev_involutive. reflexivity.
  - exact Hpre.
  - apply Forall_rev. exact Hpost.
Qed.

Lemma clampName_length (s : jsstring) : (List.length (clampName s) <= 24)%nat.
Proof. unfold clampName, take. apply firstn_le_length. Qed.

Lemma clampName_empty (s : jsstring) : isEmpty (clampName s) = isEmpty (trim s).
Proof. unfold clampName, take. destruct (trim s); reflexivity. Qed.

Lemma isEmpty_false (s : jsstring) : isEmpty s = false <-> s <> [].
Proof. destruct s; cbn; split; congruence. Qed.

(** C7.  [submitScore] hands a row to the leaderboard exactly when the
    session is complete and the name is not empty once trimmed; the row
    holds the trimmed name cut to at most 24 code units, the week key, the
    elapsed milliseconds and the mistake count.  So neither a blank name
    nor an unfinished puzzle produces a write. *)
Theorem submitScore_writes_iff :
  forall (E : ChessEngine) (weekKey : jsstring) (s : @AppState E),
    ((exists row, submitScore weekKey s = Some row)
     <-> (phase s = Complete /\ trim (name s) <> []))
    /\ (forall row,
          submitScore weekKey s = Some row ->
          Leaderboard.name row = take 24 (trim (name s))
          /\ (List.length (Leaderboard.name row) <= 24)%nat
          /\ Leaderboard.week_key row = weekKey
          /\ Leaderboard.time_ms row = timeMs s
          /\ Leaderboard.mistakes row = mistakes s)
    /\ (trim (name s) = [] -> submitScore weekKey s = None)
    /\ (done s = false -> submitScore weekKey s = None).
Proof.
  intros E weekKey s. unfold submitScore, phase.
  rewrite clampName_empty.
  destruct (done s) eqn:Hd; cbn [negb orb].
  - destruct (isEmpty (trim (name s))) eqn:He.
    + assert (Ht : trim (name s) = [])
        by (destruct (trim (name s)); [reflexivity|discriminate]).
      split; [split|split; [|split]].
      * intros [row Hrow]. discriminate.
      * intros [_ Hne]. congruence.
      * intros row Hrow. discriminate.
      * reflexivity.
      * reflexivity.
    + apply isEmpty_false in He.
      split; [split|split; [|split]].
      * intros _. split; [reflexivity|exact He].
      * intros _. eexists. reflexivity.
      * intros row Hrow. injection Hrow as <-. cbn.
        repeat split. apply clampName_length.
      * congruence.
      * discriminate.
  - split; [split|split; [|split]].
    + intros [row Hrow]. discriminate.
    + intros [Hc _]. discriminate.
    + intros row Hrow. discriminate.
    + reflexivity.
    + reflexivity.
Qed.

(* ================================================================== *)
(** ** The session state machine *)

Section Machine.

Context {E : ChessEngine} {L : ChessLaws E}.
Variable puzzle : WeeklyPuzzle.

(** The state a move attempt leaves behind. *)
Local Abbreviation tryMove now from to s :=
  (stateOf (tryPlayerMove puzzle now from to s)).

(** *** The outcomes of a move attempt *)

Lemma tryPlayerMove_done now from to (s : AppState) :
  done s = true -> tryPlayerMove puzzle now from to s = Returned s.
Proof. intros Hd. unfold tryPlayerMove. rewrite Hd. reflexivity. Qed.

Lemma tryPlayerMove_illegal now from to (s : AppState) :
  legalAttempt s from to = false -> tryMove now from to s = s.
Proof.
  unfold legalAttempt, tryPlayerMove. intros Hl.
  destruct (done s); [reflexivity|].
  destruct (chess_move (game s) (mkArg from to "q")) as [[[g m]|]|e];
    [discriminate|reflexivity|reflexivity].
Qed.

Lemma tryPlayerMove_null now from to (s : AppState) :
  chess_move (game s) (mkArg from to "q") = Normal None ->
  tryPlayerMove puzzle now from to s = Returned s.
Proof.
  intros Hm. unfold tryPlayerMove. rewrite Hm.
  destruct (done s); reflexivity.
Qed.

Lemma tryPlayerMove_throws now from to (s : AppState) (e : JSError) :
  done s = false ->
  chess_move (game s) (mkArg from to "q") = Throw e ->
  tryPlayerMove puzzle now from to s = Threw e s.
Proof.
  intros Hd Hm. unfold tryPlayerMove. rewrite Hd, Hm. reflexivity.
Qed.

Lemma attempted_uci (g moved : Chess) (m : Move) from to :
  chess_move g (mkArg from to "q") = Normal (Some (moved, m)) ->
  mv_from m ++ mv_to m = from ++ to.
Proof.
  intros Hm. destruct (move_reports_squares _ _ _ _ Hm) as [Hf Ht].
  cbn in Hf, Ht. rewrite Hf, Ht. reflexivity.
Qed.

Lemma tryPlayerMove_wrong now from to (s : AppState) moved m :
  done s = false ->
  chess_move (game s) (mkArg from to "q") = Normal (Some (moved, m)) ->
  toLowerCase (from ++ to) <> toLowerCase (nextPlayerUci puzzle s) ->
  tryPlayerMove puzzle now from to s =
  Returned
    {| game := newChess (chess_fen (chess_undo moved));
       board := newChess (chess_fen (chess_undo moved));
       selected := selected s;
       playerMoveIndex := playerMoveIndex s;
       mistakes := mistakes s + 1;
       done := false;
       name := name s;
       startRef := startTimerIfNeeded now (startRef s);
       timeMs := timeMs s;
       hintStage := 0 |}.
Proof.
  intros Hd Hm Hne. unfold tryPlayerMove. rewrite Hd, Hm.
  rewrite (attempted_uci _ _ _ _ _ Hm).
  apply String.eqb_neq in Hne. rewrite Hne. reflexivity.
Qed.

Lemma tryPlayerMove_right now from to (s : AppState) moved m g :
  done s = false ->
  chess_move (game s) (mkArg from to "q") = Normal (Some (moved, m)) ->
  toLowerCase (from ++ to) = toLowerCase (nextPlayerUci puzzle s) ->
  applyOpponentMoveIfExists puzzle (playerMoveIndex s + 1)
    (newChess (chess_fen moved)) = Normal g ->
  tryPlayerMove puzzle now from to s =
  Returned
    {| game := g;
       board := g;
       selected := None;
       playerMoveIndex := playerMoveIndex s + 1;
       mistakes := mistakes s;
       done := playerMoveIndex s + 1 >=? 5;
       name := name s;
       startRef := startTimerIfNeeded now (startRef s);
       timeMs := timeMs s;
       hintStage := 0 |}.
Proof.
  intros Hd Hm Heq Hg. unfold tryPlayerMove. rewrite Hd, Hm.
  rewrite (attempted_uci _ _ _ _ _ Hm).
  apply String.eqb_eq in Heq. rewrite Heq. cbn [negb]. rewrite Hg.
  unfold REQUIRED_PLAYER_MOVES.
  destruct (playerMoveIndex s + 1 >=? 5); reflexivity.
Qed.

(** When the engine throws on the scripted reply, the error leaves the
    handler: the timer has been started and the game object holds the
    player's move, and nothing else has changed. *)
Lemma tryPlayerMove_reply_thrown now from to (s : AppState) moved m e :
  done s = false ->
  chess_move (game s) (mkArg from to "q") = Normal (Some (moved, m)) ->
  toLowerCase (from ++ to) = toLowerCase (nextPlayerUci puzzle s) ->
  applyOpponentMoveIfExists puzzle (playerMoveIndex s + 1)
    (newChess (chess_fen moved)) = Throw e ->
  tryPlayerMove puzzle now from to s =
  Threw e
    {| game := moved;
       board := board s;
       selected := selected s;
       playerMoveIndex := playerMoveIndex s;
       mistakes := mistakes s;
       done := false;
       name := name s;
       startRef := startTimerIfNeeded now (startRef s);
       timeMs := timeMs s;
       hintStage := hintStage s |}.
Proof.
  intros Hd Hm Heq Hg. unfold tryPlayerMove. rewrite Hd, Hm.
  rewrite (attempted_uci _ _ _ _ _ Hm).
  apply String.eqb_eq in Heq. rewrite Heq. cbn [negb]. rewrite Hg.
  reflexivity.
Qed.

(** Where the engine does not throw on the reply, the reply is played. *)
Lemma reply_played from to (s : AppState) moved m :
  replyThrows puzzle s from to = false ->
  done s = false ->
  chess_move (game s) (mkArg from to "q") = Normal (Some (moved, m)) ->
  toLowerCase (from ++ to) = toLowerCase (nextPlayerUci puzzle s) ->
  exists g,
    applyOpponentMoveIfExists puzzle (playerMoveIndex s + 1)
      (newChess (chess_fen moved)) = Normal g.
Proof.
  unfold replyThrows. intros Hno Hd Hm Heq. rewrite Hd, Hm in Hno.
  rewrite (attempted_uci _ _ _ _ _ Hm) in Hno.
  apply String.eqb_eq in Heq. rewrite Heq in Hno. cbn [negb andb] in Hno.
  destruct (applyOpponentMoveIfExists puzzle (playerMoveIndex s + 1)
              (newChess (chess_fen moved))) as [g|e];
    [exists g; reflexivity|discriminate].
Qed.

(** A reachable state is the end of a run of events. *)
Lemma reachable_is_run (s : AppState) :
  reachable puzzle s -> exists es, s = run puzzle es (initialState puzzle).
Proof.
  induction 1 as [|e s Hs [es ->] Hc].
  - exists []. reflexivity.
  - exists (es ++ [e])%list. unfold run. rewrite fold_left_app. reflexivity.
Qed.

(** *** The invariant *)

Lemma consistent_initial : consistent (initialState puzzle).
Proof. unfold consistent, initialState; cbn. repeat split; lia || congruence. Qed.

Lemma startTimer_positive now r :
  0 < now ->
  match r with None => True | Some t => 0 < t end ->
  exists t, startTimerIfNeeded now r = Some t /\ 0 < t
            /\ (forall t0, r = Some t0 -> t = t0)
            /\ (r = None -> t = now).
Proof.
  intros Hnow Hr. unfold startTimerIfNeeded, falsyNum.
  destruct r as [t0|].
  - destruct (t0 =? 0) eqn:Hz; [apply Z.eqb_eq in Hz; lia|].
    exists t0. repeat split; [assumption|congruence|discriminate].
  - exists now. repeat split; [assumption|discriminate].
Qed.

Lemma nextHintStage_range h : 0 <= nextHintStage h <= 2.
Proof.
  unfold nextHintStage. destruct (h =? 0); [lia|]. destruct (h =? 1); lia.
Qed.

Lemma consistent_step (e : Event) (s : AppState) :
  consistent s -> clockOk e -> consistent (step puzzle e s).
Proof.
  intros Hc Hclock. pose proof Hc as (Hidx & Hhint & Hdh & Hmis & Hst).
  destruct e as [now from to| | |now|n]; cbn [step clockOk] in *.
  - (* a move attempt *)
    unfold tryPlayerMove.
    destruct (done s) eqn:Hd; [exact Hc|].
    destruct (chess_move (game s) (mkArg from to "q")) as [[[moved m]|]|err];
      [|exact Hc|exact Hc].
    assert (Hr : match startRef s with None => True | Some t => 0 < t end)
      by (destruct (startRef s); [assumption|exact I]).
    destruct (startTimer_positive now _ Hclock Hr) as (t & Ht & Hpos & _).
    destruct (negb _).
    + unfold consistent; cbn; rewrite Ht.
      repeat split; try lia; try congruence.
    + destruct (applyOpponentMoveIfExists _ _ _) as [g|err];
        unfold consistent; cbn; rewrite Ht.
      * unfold REQUIRED_PLAYER_MOVES.
        destruct (playerMoveIndex s + 1 >=? 5) eqn:H5.
        -- apply Z.geb_le in H5. repeat split; try lia.
        -- assert (playerMoveIndex s + 1 < 5)
             by (destruct (Z.geb_spec (playerMoveIndex s + 1) 5);
                 [discriminate|lia]).
           repeat split; try lia; try congruence.
      * repeat split; try lia; try congruence.
  - (* the hint button *)
    unfold requestHint, hintDisabled.
    destruct (done s) eqn:Hd; cbn [orb]; [exact Hc|].
    destruct (hintSquares puzzle s); [|exact Hc].
    unfold consistent; cbn. try rewrite Hd.
    pose proof (nextHintStage_range (hintStage s)).
    repeat split; try lia; try congruence; try assumption.
  - (* restart *)
    unfold consistent, restartPuzzle; cbn. repeat split; lia || congruence.
  - (* a tick of the timer *)
    unfold tick. destruct (startRef s) as [t|] eqn:Hs; [|exact Hc].
    destruct (negb (t =? 0) && negb (done s)); [|exact Hc].
    unfold consistent; cbn. try rewrite Hs.
    repeat split; try lia; try assumption.
  - (* an edit of the name *)
    unfold consistent, setName; cbn.
    repeat split; try lia; try assumption.
Qed.

Lemma reachable_consistent (s : AppState) :
  reachable puzzle s -> consistent s.
Proof.
  induction 1 as [|e s Hs IH Hc].
  - apply consistent_initial.
  - apply consistent_step; assumption.
Qed.

(** *** Facts about the catalog *)

(** Every move of a catalog line is four lower-case characters: a source
    square and a destination square, with no promotion letter. *)
Lemma catalog_lines :
  In puzzle PUZZLES ->
  List.length (solution puzzle) = 9%nat
  /\ Forall (fun u => toLowerCase u = u
                     /\ u <> ""
                     /\ (4 <=? String.length u)%nat = true
                     /\ uciArg u = mkArg (slice 0 2 u) (slice 2 4 u) "q"
                     /\ slice 0 2 u ++ slice 2 4 u = u)
            (solution puzzle).
Proof.
  intros [<-|[]]. split; [reflexivity|].
  repeat constructor; discriminate.
Qed.

Lemma item_Some_range {A} (xs : list A) (i : Z) (x : A) :
  item xs i = Some x ->
  0 <= i < Z.of_nat (List.length xs) /\ In x xs.
Proof.
  unfold item. destruct (Z.ltb_spec i 0); [discriminate|]. intros Hx.
  split.
  - assert (Hlt : (Z.to_nat i < List.length xs)%nat)
      by (apply nth_error_Some; congruence). lia.
  - eapply nth_error_In. exact Hx.
Qed.

Lemma item_None_beyond {A} (xs : list A) (i : Z) :
  Z.of_nat (List.length xs) <= i -> item xs i = None.
Proof.
  intros Hi. unfold item. destruct (Z.ltb_spec i 0); [reflexivity|].
  apply nth_error_None. lia.
Qed.

Lemma phase_awaiting (s : AppState) (k : Z) :
  phase s = AwaitingMove k <-> done s = false /\ playerMoveIndex s = k.
Proof.
  unfold phase. destruct (done s); split.
  - discriminate.
  - intros [Hd _]. discriminate.
  - intros Hk. injection Hk as <-. split; reflexivity.
  - intros [_ <-]. reflexivity.
Qed.

Lemma phase_complete (s : AppState) : phase s = Complete <-> done s = true.
Proof. unfold phase. destruct (done s); split; congruence. Qed.

Lemma legalAttempt_true (s : AppState) from to :
  legalAttempt s from to = true ->
  exists moved m,
    chess_move (game s) (mkArg from to "q") = Normal (Some (moved, m)).
Proof.
  unfold legalAttempt.
  destruct (chess_move (game s) (mkArg from to "q")) as [[[moved m]|]|e];
    [eauto|discriminate|discriminate].
Qed.

(** In a reachable state of a catalog puzzle, the expected move exists
    only while the puzzle is not complete. *)
Lemma expected_move_not_done (s : AppState) (u : string) :
  In puzzle PUZZLES ->
  reachable puzzle s ->
  item (solution puzzle) (playerMoveIndex s * 2) = Some u ->
  done s = false.
Proof.
  intros Hcat Hreach Hu.
  destruct (reachable_consistent s Hreach) as (Hidx & _).
  destruct (item_Some_range _ _ _ Hu) as [Hr _].
  destruct (catalog_lines Hcat) as [Hlen _]. rewrite Hlen in Hr.
  destruct (done s); [|reflexivity]. lia.
Qed.

(** *** Move attempts *)

(** A move attempt that the engine refuses changes nothing: the cells
    are left as they were, so the board, the move index, the mistake
    count, the completion flag, the hint stage and the timer-start
    timestamp are the ones from before.  Where the engine answers [null]
    the handler returns; where it throws, before completion, the error
    leaves the handler: nothing in the handler catches it. *)
Lemma illegal_move_changes_nothing :
  forall (s : AppState) (now : Z) (from to : string),
    legalAttempt s from to = false ->
    let h := tryPlayerMove puzzle now from to s in
    let s' := stateOf h in
    s' = s
    /\ chess_fen (game s') = chess_fen (game s)
    /\ playerMoveIndex s' = playerMoveIndex s
    /\ mistakes s' = mistakes s
    /\ done s' = done s
    /\ hintStage s' = hintStage s
    /\ startRef s' = startRef s
    /\ (forall e,
          done s = false ->
          chess_move (game s) (mkArg from to "q") = Throw e ->
          h = Threw e s)
    /\ (thrown h = None
        <-> done s = true
            \/ chess_move (game s) (mkArg from to "q") = Normal None).
Proof.
  intros s now from to Hl h s'. subst s' h.
  rewrite (tryPlayerMove_illegal now from to s Hl).
  do 7 (split; [reflexivity|]). split.
  - intros e Hd He. apply tryPlayerMove_throws; assumption.
  - unfold legalAttempt in Hl. unfold tryPlayerMove.
    destruct (done s); [split; [left; reflexivity|reflexivity]|].
    destruct (chess_move (game s) (mkArg from to "q")) as [[[g m]|]|e].
    + discriminate.
    + split; [right; reflexivity|reflexivity].
    + cbn. split; [discriminate|]. intros [Hd|He]; discriminate.
Qed.

(** C2.  In a reachable session state whose move index is [slot], a move
    that the engine accepts but whose lower-cased [from + to] is not the
    expected [solution[slot * 2]] adds exactly one mistake, leaves the
    move index at [slot] (the state still awaits the same move), puts back
    the board of before the move (a fresh game loaded from the encoding
    the position had) and sets the hint stage to 0. *)
Theorem wrong_move_counts_one_mistake :
  In puzzle PUZZLES ->
  forall (s : AppState) (slot : Z) (expected : string)
         (now : Z) (from to : string),
    reachable puzzle s ->
    playerMoveIndex s = slot ->
    item (solution puzzle) (slot * 2) = Some expected ->
    legalAttempt s from to = true ->
    toLowerCase (from ++ to) <> expected ->
    let s' := tryMove now from to s in
    mistakes s' = mistakes s + 1
    /\ playerMoveIndex s' = slot
    /\ phase s' = AwaitingMove slot
    /\ game s' = newChess (chess_fen (game s))
    /\ (chess_fen (newChess (chess_fen (game s))) = chess_fen (game s) ->
        chess_fen (game s') = chess_fen (game s))
    /\ hintStage s' = 0.
Proof.
  intros Hcat s slot expected now from to Hreach Hslot Hexp Hl Hne s'.
  subst s'.
  assert (Hd : done s = false).
  { apply (expected_move_not_done s expected Hcat Hreach).
    rewrite Hslot. exact Hexp. }
  destruct (legalAttempt_true _ _ _ Hl) as (moved & m & Hm).
  destruct (catalog_lines Hcat) as [_ Hall].
  destruct (item_Some_range _ _ _ Hexp) as [_ Hin].
  rewrite Forall_forall in Hall. destruct (Hall _ Hin) as (Hlow & _).
  rewrite (tryPlayerMove_wrong now from to s moved m Hd Hm).
  - cbn. rewrite (undo_restores_fen _ _ _ _ Hm).
    repeat split; try assumption; try congruence.
  - unfold nextPlayerUci. rewrite Hslot, Hexp. cbn [orEmpty].
    rewrite Hlow. exact Hne.
Qed.

(** From here on the line of the puzzle is taken to be playable on the
    engine: the engine does not throw on a scripted reply.  Only the
    statements that say what a correct move leads to rest on it. *)
Hypothesis playable : LinePlayable puzzle.

(** C3.  In a reachable session state, a correct move at slot [n] (an
    accepted move whose lower-cased [from + to] is [solution[n * 2]])
    moves the index to [n + 1].  If
    [n + 1 < 5] the board is the position after the player's move with the
    scripted reply [solution[(n + 1) * 2 - 1]] played on it by a bare call
    of the engine, with no comparison against anything (so it is the
    position after the reply whenever the engine accepts the reply), and
    the state awaits move [n + 1].  If [n + 1 = 5] no reply is played and
    the state is complete.  The handler returns: the line being playable,
    the bare call does not throw. *)
Theorem right_move_advances_with_reply :
  In puzzle PUZZLES ->
  forall (s : AppState) (n : Z) (expected : string)
         (now : Z) (from to : string) (moved : Chess) (m : Move),
    reachable puzzle s ->
    playerMoveIndex s = n ->
    item (solution puzzle) (n * 2) = Some expected ->
    chess_move (game s) (mkArg from to "q") = Normal (Some (moved, m)) ->
    toLowerCase (from ++ to) = expected ->
    let s' := tryMove now from to s in
    let played := newChess (chess_fen moved) in
    playerMoveIndex s' = n + 1
    /\ (n + 1 < 5 ->
        exists reply,
          item (solution puzzle) ((n + 1) * 2 - 1) = Some reply
          /\ moveUnchecked played (uciArg reply) = Normal (game s')
          /\ uciArg reply = mkArg (slice 0 2 reply) (slice 2 4 reply) "q"
          /\ (forall g2 m2,
                chess_move played (uciArg reply) = Normal (Some (g2, m2)) ->
                game s' = g2)
          /\ phase s' = AwaitingMove (n + 1))
    /\ (n + 1 = 5 -> game s' = played /\ phase s' = Complete)
    /\ board s' = game s'
    /\ thrown (tryPlayerMove puzzle now from to s) = None.
Proof.
  intros Hcat s n expected now from to moved m Hreach Hn Hexp Hm Heq s' played.
  subst s' played.
  assert (Hd : done s = false).
  { apply (expected_move_not_done s expected Hcat Hreach).
    rewrite Hn. exact Hexp. }
  destruct (catalog_lines Hcat) as [Hlen Hall].
  rewrite Forall_forall in Hall.
  destruct (item_Some_range _ _ _ Hexp) as [Hrange Hin].
  destruct (Hall _ Hin) as (Hlow & _).
  rewrite Hlen in Hrange.
  assert (Hexpected : toLowerCase (from ++ to)
                      = toLowerCase (nextPlayerUci puzzle s)).
  { unfold nextPlayerUci. rewrite Hn, Hexp. cbn [orEmpty].
    rewrite Hlow. exact Heq. }
  destruct (reachable_is_run s Hreach) as [es Hes].
  assert (Hno : replyThrows puzzle s from to = false)
    by (rewrite Hes; apply playable).
  destruct (reply_played from to s moved m Hno Hd Hm Hexpected) as [g Hg].
  rewrite (tryPlayerMove_right now from to s moved m g Hd Hm Hexpected Hg).
  rewrite Hn in Hg.
  cbn [stateOf thrown game board playerMoveIndex done]. rewrite Hn.
  split; [reflexivity|]. split; [|split; [|split; reflexivity]].
  - intros Hlt.
    destruct (item_in_range (solution puzzle) ((n + 1) * 2 - 1))
      as (reply & Hreply & _); [rewrite Hlen; lia|].
    destruct (item_Some_range _ _ _ Hreply) as [_ Hrin].
    destruct (Hall _ Hrin) as (_ & Hnonempty & _ & Harg & _).
    assert (Hgame : moveUnchecked (newChess (chess_fen moved)) (uciArg reply)
                    = Normal g).
    { rewrite <- Hg. unfold applyOpponentMoveIfExists.
      rewrite Hreply. cbn [falsyStr orEmpty].
      apply String.eqb_neq in Hnonempty. rewrite Hnonempty. reflexivity. }
    exists reply. repeat split.
    + exact Hreply.
    + exact Hgame.
    + exact Harg.
    + intros g2 m2 Hg2. unfold moveUnchecked in Hgame. rewrite Hg2 in Hgame.
      congruence.
    + unfold phase; cbn [done playerMoveIndex].
      destruct (Z.geb_spec (n + 1) 5); [lia|]. reflexivity.
  - intros H5. split.
    + unfold applyOpponentMoveIfExists in Hg.
      rewrite item_None_beyond in Hg by (rewrite Hlen; lia).
      cbn [falsyStr] in Hg. congruence.
    + unfold phase; cbn [done playerMoveIndex].
      destruct (Z.geb_spec (n + 1) 5); [reflexivity|lia].
Qed.

(** *** Replaying the solution *)

Lemma run_snoc (es : list Event) (e : Event) (s : AppState) :
  run puzzle (es ++ [e])%list s = step puzzle e (run puzzle es s).
Proof. unfold run. rewrite fold_left_app. reflexivity. Qed.

Lemma attempt_expected (s : AppState) (now : Z) (u : string) :
  In puzzle PUZZLES ->
  (exists es, s = run puzzle es (initialState puzzle)) ->
  done s = false ->
  item (solution puzzle) (playerMoveIndex s * 2) = Some u ->
  legalUci s u = true ->
  let s' := attempt puzzle now u s in
  playerMoveIndex s' = playerMoveIndex s + 1
  /\ mistakes s' = mistakes s
  /\ done s' = (playerMoveIndex s + 1 >=? 5)
  /\ (exists es, s' = run puzzle es (initialState puzzle)).
Proof.
  intros Hcat [es Hes] Hd Hu Hl. unfold attempt, legalUci, parseUci in *.
  destruct (legalAttempt_true _ _ _ Hl) as (moved & m & Hm).
  destruct (catalog_lines Hcat) as [_ Hall]. rewrite Forall_forall in Hall.
  destruct (item_Some_range _ _ _ Hu) as [_ Hin].
  destruct (Hall _ Hin) as (_ & _ & _ & _ & Hcat4).
  assert (Hexpected : toLowerCase (slice 0 2 u ++ slice 2 4 u)
                      = toLowerCase (nextPlayerUci puzzle s)).
  { rewrite Hcat4. unfold nextPlayerUci. rewrite Hu. reflexivity. }
  assert (Hno : replyThrows puzzle s (slice 0 2 u) (slice 2 4 u) = false)
    by (rewrite Hes; apply playable).
  destruct (reply_played _ _ s moved m Hno Hd Hm Hexpected) as [g Hg].
  split; [|split; [|split]].
  4:{ exists (es ++ [EvMove now (slice 0 2 u) (slice 2 4 u)])%list.
      rewrite run_snoc, <- Hes. reflexivity. }
  all: rewrite (tryPlayerMove_right now _ _ s moved m g Hd Hm Hexpected Hg);
    reflexivity.
Qed.

Lemma replay_line :
  In puzzle PUZZLES ->
  forall (plays : list (Z * string)) (s : AppState),
    (exists es, s = run puzzle es (initialState puzzle)) ->
    done s = (playerMoveIndex s >=? 5) ->
    (forall i u,
        nth_error (map snd plays) i = Some u ->
        item (solution puzzle) ((playerMoveIndex s + Z.of_nat i) * 2) = Some u) ->
    legalRun puzzle plays s ->
    let s' := replay puzzle plays s in
    playerMoveIndex s' = playerMoveIndex s + Z.of_nat (List.length plays)
    /\ mistakes s' = mistakes s
    /\ done s' = (playerMoveIndex s' >=? 5).
Proof.
  intros Hcat plays.
  induction plays as [|[now u] rest IH]; intros s Hrun Hd Hline Hlegal.
  - cbn. rewrite Z.add_0_r. repeat split. exact Hd.
  - cbn [replay legalRun] in *. destruct Hlegal as [Hl Hrest].
    assert (Hu : item (solution puzzle) (playerMoveIndex s * 2) = Some u).
    { specialize (Hline 0%nat u eq_refl). rewrite Z.add_0_r in Hline.
      exact Hline. }
    assert (Hd0 : done s = false).
    { destruct (item_Some_range _ _ _ Hu) as [Hr _].
      destruct (catalog_lines Hcat) as [Hlen _]. rewrite Hlen in Hr.
      rewrite Hd. destruct (Z.geb_spec (playerMoveIndex s) 5); [lia|reflexivity]. }
    destruct (attempt_expected s now u Hcat Hrun Hd0 Hu Hl)
      as (Hi & Hmis & Hdone & Hrun').
    destruct (IH (attempt puzzle now u s)) as (Hi' & Hmis' & Hdone').
    + exact Hrun'.
    + rewrite Hdone, Hi. reflexivity.
    + intros i v Hv. rewrite Hi.
      replace (playerMoveIndex s + 1 + Z.of_nat i)
        with (playerMoveIndex s + Z.of_nat (S i)) by lia.
      apply Hline. exact Hv.
    + exact Hrest.
    + cbn zeta. rewrite Hi', Hmis', Hi, Hmis. cbn [List.length].
      repeat split; [lia|].
      rewrite Hdone', Hi', Hi. reflexivity.
Qed.

(** C1.  For every puzzle of the catalog: from the initial state (slot 0,
    no mistake, not complete), attempting the five player half-moves
    [solution[0]], [solution[2]], [solution[4]], [solution[6]],
    [solution[8]] in order, each accepted by the engine in the position
    it is made in, ends in the complete state with no mistake.  (The
    line being playable: the replies in between are moves the engine
    does not throw on.) *)
Theorem solution_replay_completes :
  In puzzle PUZZLES ->
  forall plays : list (Z * string),
    map snd plays = playerMoves puzzle ->
    legalRun puzzle plays (initialState puzzle) ->
    let s0 := initialState puzzle in
    let s := replay puzzle plays s0 in
    (playerMoveIndex s0 = 0 /\ mistakes s0 = 0 /\ done s0 = false)
    /\ phase s = Complete
    /\ mistakes s = 0.
Proof.
  intros Hcat plays Hmoves Hlegal s0 s.
  split; [repeat split|].
  destruct (replay_line Hcat plays s0) as (Hi & Hmis & Hdone).
  - exists []. reflexivity.
  - reflexivity.
  - intros i u Hu. rewrite Hmoves in Hu. cbn [playerMoveIndex s0 initialState].
    destruct Hcat as [<-|[]].
    do 5 (destruct i as [|i]; [injection Hu as <-; reflexivity|]).
    destruct i; discriminate.
  - exact Hlegal.
  - fold s in Hi, Hmis, Hdone.
    assert (Hlen : List.length plays = 5%nat).
    { rewrite <- (length_map snd), Hmoves. reflexivity. }
    rewrite Hlen in Hi. cbn in Hi. split.
    + apply phase_complete. rewrite Hdone, Hi. reflexivity.
    + rewrite Hmis. reflexivity.
Qed.

(** *** Hints *)

Lemma hintDisabled_iff (s : AppState) :
  hintDisabled puzzle s = true
  <-> done s = true \/ (String.length (nextPlayerUci puzzle s) < 4)%nat.
Proof.
  unfold hintDisabled, hintSquares.
  destruct (done s); cbn [orb]; [split; auto|].
  destruct (nextPlayerUci puzzle s) as [|a u] eqn:Hu.
  - cbn. split; [intros _; right; lia|reflexivity].
  - cbn [String.eqb orb].
    destruct (Nat.ltb_spec (String.length (String a u)) 4).
    + split; [intros _; right; assumption|reflexivity].
    + unfold parseUci. split; [discriminate|].
      intros [Hd|Hlt]; [discriminate|lia].
Qed.

Lemma tryPlayerMove_hint_reset now from to (s : AppState) :
  done s = false ->
  legalAttempt s from to = true ->
  replyThrows puzzle s from to = false ->
  hintStage (tryMove now from to s) = 0.
Proof.
  intros Hd Hl Hno. unfold tryPlayerMove, legalAttempt, replyThrows in *.
  rewrite Hd in *. cbn [negb andb] in Hno.
  destruct (chess_move (game s) (mkArg from to "q")) as [[[moved m]|]|e];
    [|discriminate|discriminate].
  destruct (String.eqb _ _); [|reflexivity]. cbn [negb andb] in *.
  destruct (applyOpponentMoveIfExists _ _ _); [reflexivity|discriminate].
Qed.

(** C5 (as the code has it).  A press of the hint button takes the stage
    from 0 to 1, from 1 to 2 and from 2 to 0; the button is disabled
    exactly when the puzzle is complete or there is no next expected move
    (no solution entry of at least four characters), and then a press does
    nothing.  A move attempt that the engine accepts, made before
    completion, sets the stage to 0 whether the move is the expected one
    or not (the handler getting as far as that: the engine not throwing
    on the scripted reply), and in a reachable state every accepted
    attempt leaves it at 0.  An attempt that the engine refuses, or one
    made after completion, leaves the stage as it was. *)
Theorem hint_stage_cycles_and_resets :
  (nextHintStage 0 = 1 /\ nextHintStage 1 = 2 /\ nextHintStage 2 = 0)
  /\ forall s : AppState,
       (hintDisabled puzzle s = true
        <-> done s = true \/ (String.length (nextPlayerUci puzzle s) < 4)%nat)
       /\ (hintDisabled puzzle s = true -> requestHint puzzle s = s)
       /\ (hintDisabled puzzle s = false ->
           hintStage (requestHint puzzle s) = nextHintStage (hintStage s))
       /\ forall (now : Z) (from to : string),
           (done s = false -> legalAttempt s from to = true ->
            replyThrows puzzle s from to = false ->
            hintStage (tryMove now from to s) = 0)
           /\ (reachable puzzle s -> legalAttempt s from to = true ->
               hintStage (tryMove now from to s) = 0)
           /\ (done s = true \/ legalAttempt s from to = false ->
               hintStage (tryMove now from to s) = hintStage s).
Proof.
  split; [repeat split|].
  intros s. split; [apply hintDisabled_iff|].
  split; [|split].
  - intros Hdis. unfold requestHint. rewrite Hdis. reflexivity.
  - intros Hdis. unfold requestHint. rewrite Hdis. reflexivity.
  - intros now from to. split; [|split].
    + apply tryPlayerMove_hint_reset.
    + intros Hreach Hl. destruct (done s) eqn:Hd.
      * rewrite tryPlayerMove_done by exact Hd.
        destruct (reachable_consistent s Hreach) as (_ & _ & Hdh & _).
        apply Hdh. exact Hd.
      * apply tryPlayerMove_hint_reset; try assumption.
        destruct (reachable_is_run s Hreach) as [es ->]. apply playable.
    + intros [Hd|Hl].
      * rewrite tryPlayerMove_done by exact Hd. reflexivity.
      * rewrite tryPlayerMove_illegal by exact Hl. reflexivity.
Qed.

(** *** The range of the move index and of the hint stage *)

(** What the code keeps: in every reachable state the move index is
    between 0 and 5, it is 5 exactly in the complete state, so a state
    that awaits a move awaits one of the moves 0 to 4; and the hint stage
    is between 0 and 2. *)
Lemma reachable_ranges :
  forall s : AppState,
    reachable puzzle s ->
    0 <= playerMoveIndex s <= 5
    /\ (playerMoveIndex s = 5 <-> phase s = Complete)
    /\ (forall slot, phase s = AwaitingMove slot -> 0 <= slot <= 4)
    /\ 0 <= hintStage s <= 2.
Proof.
  intros s Hreach.
  destruct (reachable_consistent s Hreach) as (Hidx & Hhint & _).
  unfold phase. destruct (done s).
  - split; [lia|]. split; [split; [reflexivity|intros _; exact Hidx]|].
    split; [intros slot Hs; discriminate|exact Hhint].
  - split; [lia|]. split; [split; [lia|discriminate]|].
    split; [|exact Hhint]. intros slot Hs. injection Hs as <-. exact Hidx.
Qed.

(** *** The timer *)

Lemma step_keeps_started (e : Event) (s : AppState) (t : Z) :
  consistent s -> isRestart e = false ->
  startRef s = Some t -> startRef (step puzzle e s) = Some t.
Proof.
  intros (_ & _ & _ & _ & Hst) He Hs. rewrite Hs in Hst.
  assert (Hkeep : forall now, startTimerIfNeeded now (Some t) = Some t).
  { intros now. unfold startTimerIfNeeded, falsyNum.
    destruct (Z.eqb_spec t 0); [lia|reflexivity]. }
  destruct e as [now from to| | |now|n]; cbn [step isRestart] in *.
  - unfold tryPlayerMove. destruct (done s); [exact Hs|].
    destruct (chess_move (game s) (mkArg from to "q")) as [[[moved m]|]|err];
      [|exact Hs|exact Hs].
    destruct (negb _); [cbn [stateOf startRef]; rewrite Hs; apply Hkeep|].
    destruct (applyOpponentMoveIfExists _ _ _);
      cbn [stateOf startRef]; rewrite Hs; apply Hkeep.
  - unfold requestHint. destruct (hintDisabled puzzle s); exact Hs.
  - discriminate.
  - unfold tick. rewrite Hs.
    destruct (negb (t =? 0) && negb (done s)); [reflexivity|exact Hs].
  - exact Hs.
Qed.

Lemma step_unstarted (e : Event) (s : AppState) :
  consistent s -> isRestart e = false -> startRef s = None ->
  startRef (step puzzle e s)
  = match e with
    | EvMove now from to => if legalAttempt s from to then Some now else None
    | _ => None
    end.
Proof.
  intros (_ & _ & _ & _ & Hst) He Hs. rewrite Hs in Hst.
  destruct Hst as (Hd & _).
  destruct e as [now from to| | |now|n]; cbn [step isRestart] in *.
  - unfold tryPlayerMove, legalAttempt. rewrite Hd.
    destruct (chess_move (game s) (mkArg from to "q")) as [[[moved m]|]|err];
      [|exact Hs|exact Hs].
    destruct (negb _); [cbn [stateOf startRef]; rewrite Hs; reflexivity|].
    destruct (applyOpponentMoveIfExists _ _ _);
      cbn [stateOf startRef]; rewrite Hs; reflexivity.
  - unfold requestHint. destruct (hintDisabled puzzle s); exact Hs.
  - discriminate.
  - unfold tick. rewrite Hs. exact Hs.
  - exact Hs.
Qed.

Lemma run_startRef (es : list Event) :
  forall s : AppState,
    consistent s ->
    Forall clockOk es ->
    existsb isRestart es = false ->
    startRef (run puzzle es s)
    = match startRef s with
      | Some t => Some t
      | None => firstLegalAttempt puzzle es s
      end.
Proof.
  induction es as [|e es IH]; intros s Hc Hclock Hno.
  - cbn. destruct (startRef s); reflexivity.
  - inversion Hclock as [|e' es' Hce Hces]; subst.
    cbn [existsb] in Hno. apply orb_false_iff in Hno. destruct Hno as [He Hes].
    change (run puzzle (e :: es) s) with (run puzzle es (step puzzle e s)).
    rewrite (IH (step puzzle e s)
               (consistent_step e s Hc Hce) Hces Hes).
    destruct (startRef s) as [t|] eqn:Hs.
    + rewrite (step_keeps_started e s t Hc He Hs). reflexivity.
    + rewrite (step_unstarted e s Hc He Hs). cbn [firstLegalAttempt].
      destruct e as [now from to| | |now|n]; try reflexivity.
      destruct (legalAttempt s from to); reflexivity.
Qed.

(** C9.  The timer-start cell is empty in the initial state.  Clock
    readings being positive, as those of [Date.now()] are: over any run
    of events without a restart it ends up holding the clock reading
    of the first move attempt that the engine accepted, whether that move
    was the expected one or not, and stays empty if there was none: so an
    accepted attempt sets it when it is empty, a refused attempt never
    does, and once set no event other than a restart changes it.  A
    restart empties it. *)
Theorem timer_starts_on_first_legal_attempt :
  startRef (initialState puzzle) = None
  /\ (forall es : list Event,
        Forall clockOk es ->
        existsb isRestart es = false ->
        startRef (run puzzle es (initialState puzzle))
        = firstLegalAttempt puzzle es (initialState puzzle))
  /\ (forall s : AppState,
        reachable puzzle s ->
        (forall now from to,
            0 < now ->
            let s' := tryMove now from to s in
            (legalAttempt s from to = false -> startRef s' = startRef s)
            /\ (legalAttempt s from to = true -> startRef s = None ->
                startRef s' = Some now)
            /\ (forall t, startRef s = Some t -> startRef s' = Some t))
        /\ (forall e t,
              isRestart e = false -> startRef s = Some t ->
              startRef (step puzzle e s) = Some t)
        /\ startRef (restartPuzzle puzzle s) = None).
Proof.
  split; [reflexivity|]. split.
  - intros es Hclock Hno.
    rewrite (run_startRef es _ consistent_initial Hclock Hno).
    reflexivity.
  - intros s Hreach. pose proof (reachable_consistent s Hreach) as Hc.
    split; [|split; [|reflexivity]].
    + intros now from to Hnow s'. subst s'. split; [|split].
      * intros Hl. rewrite tryPlayerMove_illegal by exact Hl. reflexivity.
      * intros Hl Hs.
        change (stateOf (tryPlayerMove puzzle now from to s))
          with (step puzzle (EvMove now from to) s).
        rewrite (step_unstarted (EvMove now from to) s Hc eq_refl Hs).
        rewrite Hl. reflexivity.
      * intros t Hs.
        change (stateOf (tryPlayerMove puzzle now from to s))
          with (step puzzle (EvMove now from to) s).
        apply step_keeps_started; [exact Hc|reflexivity|exact Hs].
    + intros e t He Hs. apply step_keeps_started; assumption.
Qed.

(** *** The complete state *)

(** C10.  In the complete state a move attempt returns the state it was
    given: board, move index, mistake count, hint stage, completion flag
    and timer-start timestamp stay as they are.  No event other than a
    restart leaves the complete state or changes the mistake count there.
    A restart gives the initial state again (the name field apart): the
    starting position, slot 0, no mistake, hint stage 0, the timer
    cleared. *)
Theorem complete_until_restart :
  forall s : AppState,
    phase s = Complete ->
    (forall now from to,
        let s' := tryMove now from to s in
        s' = s
        /\ chess_fen (game s') = chess_fen (game s)
        /\ playerMoveIndex s' = playerMoveIndex s
        /\ mistakes s' = mistakes s
        /\ hintStage s' = hintStage s
        /\ done s' = done s
        /\ startRef s' = startRef s)
    /\ (forall e,
          isRestart e = false ->
          phase (step puzzle e s) = Complete
          /\ mistakes (step puzzle e s) = mistakes s)
    /\ restartPuzzle puzzle s = setName (name s) (initialState puzzle)
    /\ (let r := restartPuzzle puzzle s in
        game r = newChess (fen puzzle)
        /\ phase r = AwaitingMove 0
        /\ mistakes r = 0
        /\ hintStage r = 0
        /\ startRef r = None
        /\ timeMs r = 0).
Proof.
  intros s Hph. apply phase_complete in Hph.
  split; [|split; [|split]].
  - intros now from to s'. subst s'.
    rewrite (tryPlayerMove_done now from to s Hph). repeat split.
  - intros e He. unfold phase.
    destruct e as [now from to| | |now|n]; cbn [step isRestart] in *.
    + rewrite (tryPlayerMove_done now from to s Hph). cbn [stateOf].
      rewrite Hph. split; reflexivity.
    + unfold requestHint, hintDisabled. rewrite Hph. cbn [orb].
      rewrite Hph. split; reflexivity.
    + discriminate.
    + unfold tick. destruct (startRef s) as [t|]; rewrite ?Hph.
      * rewrite andb_false_r, Hph. split; reflexivity.
      * split; reflexivity.
    + cbn. rewrite Hph. split; reflexivity.
  - reflexivity.
  - repeat split.
Qed.

End Machine.

Lemma reachable_run {E : ChessEngine} (puzzle : WeeklyPuzzle)
  (es : list Event) :
  forall s : AppState,
    reachable puzzle s -> Forall clockOk es -> reachable puzzle (run puzzle es s).
Proof.
  induction es as [|e es IH]; intros s Hs Hclock.
  - exact Hs.
  - inversion Hclock as [|e' es' He Hes]; subst.
    apply (IH (step puzzle e s)); [|exact Hes].
    apply reach_step; assumption.
Qed.

(* ================================================================== *)
(** ** The reference engine and the catalog's puzzle *)

Lemma refEngine_laws : ChessLaws RefChess.engine.
Proof.
  split.
  - intros g a g' m Hm.
    change (RefChess.move g a = Normal (Some (g', m))) in Hm.
    unfold RefChess.move in Hm.
    destruct (RefChess.parseSquare (arg_from a)); [|discriminate].
    destruct (RefChess.parseSquare (arg_to a)); [|discriminate].
    destruct (RefChess.makeMove _ _ _ _); [|discriminate].
    injection Hm as _ <-. split; reflexivity.
  - intros g a g' m Hm.
    change (RefChess.move g a = Normal (Some (g', m))) in Hm.
    unfold RefChess.move in Hm.
    destruct (RefChess.parseSquare (arg_from a)); [|discriminate].
    destruct (RefChess.parseSquare (arg_to a)); [|discriminate].
    destruct (RefChess.makeMove _ _ _ _); [|discriminate].
    injection Hm as <- _. reflexivity.
Qed.

(** The reference engine never answers [null]: a move it does not make
    it refuses with an error that names the move. *)
Lemma refEngine_throws (g : RefChess.Game) (a : MoveArg) :
  RefChess.move g a <> Normal None
  /\ forall e, RefChess.move g a = Throw e -> e = InvalidMove a.
Proof.
  unfold RefChess.move.
  destruct (RefChess.parseSquare (arg_from a));
    destruct (RefChess.parseSquare (arg_to a));
    try destruct (RefChess.makeMove _ _ _ _);
    (split; [discriminate|intros e He; congruence]).
Qed.

(** The reference engine counts the move sequences that the rules of
    chess give: from the starting position, and from two test positions
    with castling, pins, checks and en-passant captures. *)
Example refEngine_perft :
  RefChess.perft 2
    (RefChess.parseFen
       "rnbqkbnr/pppppppp/8/8/8/8/PPPPPPPP/RNBQKBNR w KQkq - 0 1") = 400
  /\ RefChess.perft 1
       (RefChess.parseFen
          "r3k2r/p1ppqpb1/bn2pnp1/3PN3/1p2P3/2N2Q1p/PPPBBPPP/R3K2R w KQkq - 0 1")
     = 48
  /\ RefChess.perft 2
       (RefChess.parseFen "8/2p5/3p4/KP5r/1R3p1k/8/4P1P1/8 w - - 0 1") = 191.
Proof. vm_compute. repeat split. Qed.

(** Printing undoes parsing on the catalog's position. *)
Example refEngine_fen_roundtrip :
  RefChess.printFen (RefChess.parseFen (fen italian5)) = fen italian5.
Proof. vm_compute. reflexivity. Qed.

#[local] Existing Instance RefChess.engine.

(** *** The catalog's line on the reference engine *)

Lemma lowerAscii_square_char (a : ascii) :
  (97 <=? code a) && (code a <=? 104) || (49 <=? code a) && (code a <=? 56)
  = true ->
  lowerAscii a = a.
Proof.
  destruct a as [[] [] [] [] [] [] [] []]; vm_compute; intros H;
    (reflexivity || discriminate).
Qed.

(** The name of a square is two characters that are their own lower
    case. *)
Lemma parseSquare_name (x : string) (q : RefChess.Square) :
  RefChess.parseSquare x = Some q ->
  String.length x = 2%nat /\ toLowerCase x = x.
Proof.
  destruct x as [|f [|d [|c r]]]; try discriminate.
  unfold RefChess.parseSquare, RefChess.onBoard.
  destruct (_ && _) eqn:Hon; [|discriminate]. intros _.
  rewrite !andb_true_iff, !Z.leb_le, !Z.ltb_lt in Hon.
  split; [reflexivity|]. cbn [toLowerCase].
  rewrite (lowerAscii_square_char f), (lowerAscii_square_char d).
  - reflexivity.
  - apply orb_true_iff. right. rewrite andb_true_iff, !Z.leb_le. lia.
  - apply orb_true_iff. left. rewrite andb_true_iff, !Z.leb_le. lia.
Qed.

(** An accepted attempt that reads as the expected move is that move. *)
Lemma expected_squares (from to u : string) (f t : RefChess.Square) :
  RefChess.parseSquare from = Some f ->
  RefChess.parseSquare to = Some t ->
  toLowerCase (from ++ to) = u ->
  from = slice 0 2 u /\ to = slice 2 4 u.
Proof.
  intros Hf Ht Hu.
  destruct (parseSquare_name from f Hf) as [Hlf Hlow].
  destruct (parseSquare_name to t Ht) as [Hlt Hlow'].
  rewrite toLowerCase_append, Hlow, Hlow' in Hu. subst u.
  destruct (two_and_two from to Hlf Hlt) as [H1 H2].
  split; congruence.
Qed.

Lemma lineFens_roundtrip (k : Z) (F : string) :
  item lineFens k = Some F ->
  RefChess.printFen (RefChess.parseFen F) = F.
Proof.
  intros HF. destruct (item_Some_range _ _ _ HF) as [Hk _].
  change (Z.of_nat (List.length lineFens)) with 6 in Hk.
  assert (Hcase : k = 0 \/ k = 1 \/ k = 2 \/ k = 3 \/ k = 4 \/ k = 5) by lia.
  destruct Hcase as [->|[->|[->|[->|[->| ->]]]]];
    injection HF as <-; vm_compute; reflexivity.
Qed.

Ltac line_step :=
  intros u f t Q Hu Hf Ht HQ;
  injection Hu as <-;
  vm_compute in Hf; injection Hf as <-;
  vm_compute in Ht; injection Ht as <-;
  vm_compute in HQ; injection HQ as <-;
  vm_compute; reflexivity.

Lemma lineFens_steps (k : Z) (F F' : string) :
  0 <= k <= 4 ->
  item lineFens k = Some F ->
  item lineFens (k + 1) = Some F' ->
  lineStep k F F'.
Proof.
  intros Hk HF HF'.
  assert (Hcase : k = 0 \/ k = 1 \/ k = 2 \/ k = 3 \/ k = 4) by lia.
  destruct Hcase as [->|[->|[->|[->| ->]]]];
    injection HF as <-; injection HF' as <-; line_step.
Qed.

(** A move attempt keeps the session on the line, and the engine does not
    throw on the reply to it. *)
Lemma onLine_move (s : AppState) (now : Z) (from to : string) :
  onLine s ->
  replyThrows italian5 s from to = false
  /\ onLine (stateOf (tryPlayerMove italian5 now from to s)).
Proof.
  intros (k & F & Hk & Hidx & Hdone & HF & Hcur).
  assert (Hsame : onLine s) by (exists k, F; auto).
  unfold replyThrows, tryPlayerMove.
  destruct (done s) eqn:Hd; [split; [reflexivity|exact Hsame]|].
  cbn [negb andb].
  assert (Hk4 : 0 <= k <= 4)
    by (destruct (Z.geb_spec k 5); [discriminate|lia]).
  change (chess_move (game s) (mkArg from to "q"))
    with (RefChess.move (game s) (mkArg from to "q")).
  unfold RefChess.move. cbn [arg_from arg_to arg_promotion].
  destruct (RefChess.parseSquare from) as [f|] eqn:Hf;
    [|split; [reflexivity|exact Hsame]].
  destruct (RefChess.parseSquare to) as [t|] eqn:Ht;
    [|split; [reflexivity|exact Hsame]].
  rewrite Hcur.
  destruct (RefChess.makeMove (RefChess.parseFen F) f t "q") as [Q|] eqn:HQ;
    [|split; [reflexivity|exact Hsame]].
  cbn [mv_from mv_to].
  destruct (String.eqb (toLowerCase (from ++ to))
              (toLowerCase (nextPlayerUci italian5 s))) eqn:Heq;
    cbn [negb andb].
  - (* the expected move *)
    apply String.eqb_eq in Heq.
    destruct (item_in_range (solution italian5) (k * 2)) as (u & Hu & _);
      [change (Z.of_nat (List.length (solution italian5))) with 9; lia|].
    destruct (catalog_lines italian5 (or_introl eq_refl)) as [_ Hall].
    rewrite Forall_forall in Hall.
    destruct (item_Some_range _ _ _ Hu) as [_ Hin].
    destruct (Hall u Hin) as (Hlow & _).
    unfold nextPlayerUci in Heq. rewrite Hidx, Hu in Heq.
    cbn [orEmpty] in Heq. rewrite Hlow in Heq.
    destruct (expected_squares from to u f t Hf Ht Heq) as [Hfrom Hto].
    rewrite Hfrom in Hf. rewrite Hto in Ht.
    destruct (item_in_range lineFens (k + 1)) as (F' & HF' & _);
      [change (Z.of_nat (List.length lineFens)) with 6; lia|].
    pose proof (lineFens_steps k F F' Hk4 HF HF' u f t Q Hu Hf Ht HQ) as Hstep.
    rewrite Hidx.
    cbn [newChess chess_fen RefChess.engine RefChess.cur].
    destruct (@applyOpponentMoveIfExists RefChess.engine italian5 (k + 1)
                (RefChess.load (RefChess.printFen Q))) as [g|e];
      [|contradiction].
    split; [reflexivity|]. exists (k + 1), F'.
    cbn [stateOf playerMoveIndex done game]. unfold REQUIRED_PLAYER_MOVES.
    repeat split; try lia; try assumption.
    destruct (k + 1 >=? 5); reflexivity.
  - (* another move *)
    split; [reflexivity|]. exists k, F.
    cbn [stateOf playerMoveIndex done game].
    repeat split; try lia; try assumption.
    cbn [newChess chess_fen chess_undo RefChess.engine RefChess.undo
         RefChess.past RefChess.cur RefChess.load].
    rewrite (lineFens_roundtrip k F HF). reflexivity.
Qed.

Lemma onLine_run (es : list Event) : onLine (run italian5 es start).
Proof.
  induction es as [|e es IH] using rev_ind.
  - exists 0, (fen italian5). repeat split; try lia.
  - rewrite run_snoc.
    destruct e as [now from to| | |now|n]; cbn [step].
    + apply onLine_move. exact IH.
    + unfold requestHint. destruct (hintDisabled italian5 _); exact IH.
    + exists 0, (fen italian5). repeat split; try lia.
    + unfold tick. destruct (startRef _) as [t|]; [|exact IH].
      destruct (negb (t =? 0) && negb (done _)); exact IH.
    + exact IH.
Qed.

(** The catalog's line can be played on the reference engine. *)
Lemma refEngine_plays_line : @LinePlayable RefChess.engine italian5.
Proof.
  intros es from to. apply (onLine_move _ 0 from to (onLine_run es)).
Qed.

(** The example of the specification: [c3d4] as the first move leaves
    slot 1 with the reply [c5b4] on the board. *)
Example first_move_and_reply :
  let s := stateOf (tryPlayerMove italian5 1000 "c3" "d4" start) in
  playerMoveIndex s = 1
  /\ mistakes s = 0
  /\ chess_fen (game s)
     = "r1bqk2r/pppp1ppp/2n2n2/8/1bBPP3/5N2/PP3PPP/RNBQK2R w KQkq - 1 7".
Proof. vm_compute. repeat split. Qed.

(** [c3c4] is not legal in the starting position (the bishop stands on
    c4); a legal move off the line, such as [e4e5], is a mistake. *)
Example off_line_moves :
  legalAttempt start "c3" "c4" = false
  /\ (let s := stateOf (tryPlayerMove italian5 1000 "e4" "e5" start) in
      playerMoveIndex s = 0 /\ mistakes s = 1
      /\ chess_fen (game s) = fen italian5).
Proof. vm_compute. repeat split. Qed.

(** The boards after each of the player's five moves along the line:
    after the first four the reply has been played as well and White is to
    move again; after the fifth it is Black's turn and no reply comes. *)
Example line_boards :
  map (fun k => chess_fen (game (replay italian5 (firstn k solving) start)))
      [0; 1; 2; 3; 4; 5]%nat
  = lineFens.
Proof. vm_compute. reflexivity. Qed.

Example solved_state :
  playerMoveIndex solved = 5 /\ done solved = true
  /\ mistakes solved = 0 /\ startRef solved = Some 1000
  /\ chess_fen (game solved)
     = "r1bqk2r/pppp1ppp/2n5/b7/2BP4/2P2N2/P4PPP/R1BQR1K1 b kq - 2 10".
Proof. vm_compute. repeat split. Qed.

(** The finished session submits one row: the name trimmed, the time of
    the last tick since the first legal attempt, one mistake.  A blank
    name, or a session that is not complete, submits nothing. *)
Example submit_examples :
  let week := ofString "2026-11-02" in
  submitScore week finished
  = Some (Leaderboard.mkInsert week (ofString "Khai") 7900 1)
  /\ submitScore week (setName (ofString "   ") finished) = None
  /\ submitScore week (setName (ofString "Khai") start) = None.
Proof. vm_compute. repeat split. Qed.

Lemma solved_reachable : reachable italian5 solved.
Proof.
  apply reachable_run; [apply reach_init|].
  repeat constructor.
Qed.

(** *** The theorems at work on the catalog's puzzle *)

(** The five moves of the line are legal one after the other, and playing
    them solves the puzzle without a mistake. *)
Lemma solution_replay_completes_witness :
  legalRun italian5 solving start
  /\ phase (replay italian5 solving start) = Complete
  /\ mistakes (replay italian5 solving start) = 0.
Proof.
  assert (Hl : legalRun italian5 solving start) by (vm_compute; repeat split).
  split; [exact Hl|].
  exact (proj2 (@solution_replay_completes RefChess.engine refEngine_laws
                  italian5 refEngine_plays_line (or_introl eq_refl)
                  solving eq_refl Hl)).
Defined.

(** The pawn push [e4e5] is legal in the starting position and is not the
    expected [c3d4]. *)
Lemma wrong_move_counts_one_mistake_witness :
  let s' := stateOf (tryPlayerMove italian5 1000 "e4" "e5" start) in
  mistakes s' = 1
  /\ playerMoveIndex s' = 0
  /\ chess_fen (game s') = fen italian5
  /\ hintStage s' = 0.
Proof.
  destruct (@wrong_move_counts_one_mistake RefChess.engine refEngine_laws
              italian5 (or_introl eq_refl) start 0 "c3d4" 1000 "e4" "e5")
    as (Hm & Hi & _ & _ & Hf & Hh).
  - apply reach_init.
  - reflexivity.
  - reflexivity.
  - vm_compute. reflexivity.
  - vm_compute. discriminate.
  - cbv zeta. split; [exact Hm|]. split; [exact Hi|]. split; [|exact Hh].
    rewrite Hf; vm_compute; reflexivity.
Defined.

(** The capture [c3d4] is the expected first move; the reply [c5b4]
    follows. *)
Lemma right_move_advances_with_reply_witness :
  let s' := stateOf (tryPlayerMove italian5 1000 "c3" "d4" start) in
  playerMoveIndex s' = 1
  /\ phase s' = AwaitingMove 1
  /\ chess_fen (game s')
     = "r1bqk2r/pppp1ppp/2n2n2/8/1bBPP3/5N2/PP3PPP/RNBQK2R w KQkq - 1 7".
Proof.
  destruct (chess_move (game start) (mkArg "c3" "d4" "q"))
    as [[[moved m]|]|e] eqn:Hm;
    [|vm_compute in Hm; discriminate|vm_compute in Hm; discriminate].
  destruct (@right_move_advances_with_reply RefChess.engine refEngine_laws
              italian5 refEngine_plays_line (or_introl eq_refl) start 0
              "c3d4" 1000 "c3" "d4"
              moved m (reach_init italian5) eq_refl eq_refl Hm eq_refl)
    as (Hi & Hlt & _).
  destruct (Hlt eq_refl) as (reply & _ & _ & _ & _ & Hph).
  cbv zeta. split; [exact Hi|]. split; [exact Hph|].
  vm_compute. reflexivity.
Defined.

(** C4 (a defect of the code).  [c3c4] is not legal in the starting
    position of the catalog's puzzle: the bishop stands on c4.  The
    attempt leaves every cell as it was, as the claim says; but the
    engine refuses the move with an error, [tryPlayerMove] has nothing
    that catches it, and the error leaves the handler: the test
    [if (!attempted) return] after the call, which is there to pass over
    an illegal move in silence, is not reached. *)
Theorem illegal_move_throws :
  let h := tryPlayerMove italian5 1000 "c3" "c4" start in
  legalAttempt start "c3" "c4" = false
  /\ chess_fen (game (stateOf h)) = chess_fen (game start)
  /\ playerMoveIndex (stateOf h) = playerMoveIndex start
  /\ mistakes (stateOf h) = mistakes start
  /\ done (stateOf h) = done start
  /\ hintStage (stateOf h) = hintStage start
  /\ startRef (stateOf h) = startRef start
  /\ thrown h = Some (InvalidMove (mkArg "c3" "c4" "q"))
  /\ thrown h <> None.
Proof.
  cbv zeta.
  assert (Hl : legalAttempt start "c3" "c4" = false)
    by (vm_compute; reflexivity).
  assert (Hm : chess_move (game start) (mkArg "c3" "c4" "q")
               = Throw (InvalidMove (mkArg "c3" "c4" "q")))
    by (vm_compute; reflexivity).
  destruct (@illegal_move_changes_nothing RefChess.engine italian5
              start 1000 "c3" "c4" Hl)
    as (_ & Hf & Hi & Hmis & Hd & Hh & Hs & Hthrow & _).
  cbv zeta in Hf, Hi, Hmis, Hd, Hh, Hs, Hthrow.
  do 7 (split; [assumption|]).
  rewrite (Hthrow _ eq_refl Hm). split; [reflexivity|discriminate].
Qed.

(** C5, the claim as stated, fails: with the source square of the hint
    shown (stage 1), the refused attempt [c3c4] leaves the stage at 1. *)
Lemma hint_survives_refused_attempt :
  let s := requestHint italian5 start in
  reachable italian5 s
  /\ hintStage s = 1
  /\ legalAttempt s "c3" "c4" = false
  /\ hintStage (stateOf (tryPlayerMove italian5 1000 "c3" "c4" s)) = 1
  /\ hintStage (stateOf (tryPlayerMove italian5 1000 "c3" "c4" s)) <> 0.
Proof.
  cbv zeta. split.
  - exact (reach_step italian5 EvHint start (reach_init italian5) I).
  - split; [vm_compute; reflexivity|].
    split; [vm_compute; reflexivity|].
    split; [vm_compute; reflexivity|].
    vm_compute. discriminate.
Qed.

(** With the hint at stage 1, the pawn push [e4e5], a legal move off the
    line, puts the stage back to 0, and so does the expected [c3d4]. *)
Lemma hint_stage_cycles_and_resets_witness :
  let s := requestHint italian5 start in
  hintStage s = 1
  /\ hintStage (stateOf (tryPlayerMove italian5 1000 "e4" "e5" s)) = 0
  /\ hintStage (stateOf (tryPlayerMove italian5 1000 "c3" "d4" s)) = 0.
Proof.
  cbv zeta.
  pose proof (reach_step italian5 EvHint start (reach_init italian5) I)
    as Hreach.
  destruct (@hint_stage_cycles_and_resets RefChess.engine italian5
              refEngine_plays_line) as [_ H].
  destruct (H (requestHint italian5 start)) as (_ & _ & _ & Hmove).
  split; [vm_compute; reflexivity|]. split.
  - apply (proj1 (proj2 (Hmove 1000 "e4" "e5")) Hreach).
    vm_compute. reflexivity.
  - apply (proj1 (proj2 (Hmove 1000 "c3" "d4")) Hreach).
    vm_compute. reflexivity.
Defined.

(** C8 (a defect of the code).  The cell of the move index is declared
    [useState(0); // 0..4], and the fifth correct move stores [5] in it:
    once the line has been played (five move attempts from the initial
    state) the move index is 5, outside the range the declaration
    gives. *)
Theorem move_index_five_reachable :
  reachable italian5 solved
  /\ playerMoveIndex solved = 5
  /\ ~ (0 <= playerMoveIndex solved <= 4).
Proof.
  assert (H5 : playerMoveIndex solved = 5) by (vm_compute; reflexivity).
  split; [exact solved_reachable|]. split; [exact H5|].
  rewrite H5. lia.
Qed.

Lemma reachable_ranges_witness :
  0 <= playerMoveIndex solved <= 5
  /\ (playerMoveIndex solved = 5 <-> phase solved = Complete)
  /\ (forall slot, phase solved = AwaitingMove slot -> 0 <= slot <= 4)
  /\ 0 <= hintStage solved <= 2.
Proof.
  exact (@reachable_ranges RefChess.engine italian5 solved solved_reachable).
Defined.

(** After the puzzle is solved the king move [e8f8], legal on the board
    (it answers the check of the rook), changes nothing; a restart gives
    the starting state. *)
Lemma complete_until_restart_witness :
  stateOf (tryPlayerMove italian5 11000 "e8" "f8" solved) = solved
  /\ legalAttempt solved "e8" "f8" = true
  /\ restartPuzzle italian5 solved = start.
Proof.
  assert (Hph : phase solved = Complete) by (vm_compute; reflexivity).
  destruct (@complete_until_restart RefChess.engine italian5 solved Hph)
    as (Hmove & _ & Hrestart & _).
  split; [exact (proj1 (Hmove 11000 "e8" "f8"))|].
  split; [vm_compute; reflexivity|].
  exact Hrestart.
Defined.

(* ================================================================== *)
(** * Further properties of the component *)

(** ** Squares *)

Lemma below_eight (n : Z) :
  0 <= n < 8 ->
  n = 0 \/ n = 1 \/ n = 2 \/ n = 3 \/ n = 4 \/ n = 5 \/ n = 6 \/ n = 7.
Proof. lia. Qed.

Lemma coords_of_name (r c : Z) :
  0 <= r < 8 -> 0 <= c < 8 ->
  coordsFromSq (sqName r c) = Coords.mk (Num r) c
  /\ String.length (sqName r c) = 2%nat.
Proof.
  intros Hr Hc.
  destruct (below_eight r Hr) as [->|[->|[->|[->|[->|[->|[->| ->]]]]]]];
    destruct (below_eight c Hc) as [->|[->|[->|[->|[->|[->|[->| ->]]]]]]];
    split; reflexivity.
Qed.

Lemma indexOfChar_range (files : string) (a : ascii) :
  -1 <= indexOfChar files a < Z.of_nat (String.length files).
Proof.
  induction files as [|f rest IH]; cbn [indexOfChar String.length].
  - lia.
  - destruct (Ascii.eqb f a); [lia|].
    destruct (Z.ltb_spec (indexOfChar rest a) 0); lia.
Qed.

Lemma indexOfChar_found (files : string) (a : ascii) :
  0 <= indexOfChar files a ->
  String.get (Z.to_nat (indexOfChar files a)) files = Some a.
Proof.
  induction files as [|f rest IH]; cbn [indexOfChar]; [lia|].
  destruct (Ascii.eqb_spec f a) as [->|Hne]; [reflexivity|].
  destruct (Z.ltb_spec (indexOfChar rest a) 0) as [Hlt|Hge]; [lia|].
  intros _. replace (Z.to_nat (indexOfChar rest a + 1))
    with (S (Z.to_nat (indexOfChar rest a))) by lia.
  cbn [String.get]. apply IH. exact Hge.
Qed.

Lemma indexOfChar_absent (files : string) (a : ascii) :
  indexOfChar files a = -1 ->
  forall i, String.get i files <> Some a.
Proof.
  induction files as [|f rest IH]; cbn [indexOfChar]; intros Hi i.
  - destruct i; discriminate.
  - destruct (Ascii.eqb_spec f a) as [->|Hne]; [discriminate|].
    destruct (Z.ltb_spec (indexOfChar rest a) 0) as [Hlt|Hge];
      [|pose proof (indexOfChar_range rest a); lia].
    assert (Hrest : indexOfChar rest a = -1)
      by (pose proof (indexOfChar_range rest a); lia).
    destruct i as [|i]; cbn [String.get]; [congruence|].
    apply IH. exact Hrest.
Qed.

(** The character whose digit value is [d]. *)
Lemma numberOfChar_digit (a : ascii) (d : Z) :
  numberOfChar (Some a) = Num d -> 1 <= d ->
  a = ascii_of_N (Z.to_N (48 + d)) /\ d <= 9.
Proof.
  unfold numberOfChar, code.
  destruct ((48 <=? Z.of_N (N_of_ascii a)) && (Z.of_N (N_of_ascii a) <=? 57))
    eqn:Hdigit.
  - intros Hd Hpos. injection Hd as <-.
    apply andb_prop in Hdigit. destruct Hdigit as [Hlo Hhi].
    apply Z.leb_le in Hlo, Hhi. split; [|lia].
    replace (48 + (Z.of_N (N_of_ascii a) - 48)) with (Z.of_N (N_of_ascii a))
      by lia.
    rewrite N2Z.id, ascii_N_embedding. reflexivity.
  - destruct (isWhite _); intros Hd Hpos; [injection Hd as <-; lia|discriminate].
Qed.

Lemma coordsFromSq_two (a b : ascii) (rest : string) :
  coordsFromSq (String a (String b rest))
  = Coords.mk
      match numberOfChar (Some b) with
      | Num d => Num (8 - d)
      | NaN => NaN
      end
      (indexOfChar "abcdefgh" a).
Proof. reflexivity. Qed.

Lemma coordsFromSq_short (sq : string) :
  (String.length sq < 2)%nat -> Coords.r (coordsFromSq sq) = NaN.
Proof.
  destruct sq as [|a [|b rest]]; cbn [String.length]; intros Hlen;
    [reflexivity|reflexivity|lia].
Qed.

Lemma coords_on_board_prefix (sq : string) (r c : Z) :
  coordsFromSq sq = Coords.mk (Num r) c ->
  0 <= r < 8 -> 0 <= c < 8 ->
  exists rest, sq = sqName r c ++ rest.
Proof.
  intros Hco Hr Hc.
  destruct sq as [|a [|b rest]].
  - apply (f_equal Coords.r) in Hco.
    rewrite coordsFromSq_short in Hco by (cbn; lia). discriminate.
  - apply (f_equal Coords.r) in Hco.
    rewrite coordsFromSq_short in Hco by (cbn; lia). discriminate.
  - rewrite coordsFromSq_two in Hco.
    destruct (numberOfChar (Some b)) as [d|] eqn:Hd; [|discriminate].
    assert (Hrow : 8 - d = r) by congruence.
    assert (Hcol : indexOfChar "abcdefgh" a = c) by congruence.
    clear Hco.
    destruct (numberOfChar_digit b d Hd) as [Hb _]; [lia|].
    pose proof (indexOfChar_found "abcdefgh" a) as Hfound.
    rewrite Hcol in Hfound. specialize (Hfound (proj1 Hc)).
    exists rest. subst b.
    assert (Hd8 : d = 8 - r) by lia. subst d. clear Hd Hrow Hcol.
    destruct (below_eight r Hr) as [->|[->|[->|[->|[->|[->|[->| ->]]]]]]];
      destruct (below_eight c Hc) as [->|[->|[->|[->|[->|[->|[->| ->]]]]]]];
      cbn in Hfound; injection Hfound as <-; reflexivity.
Qed.

(** X1.  On the board, [coordsFromSq] undoes [sqName]: for a row and a
    column between 0 and 7 the name has two characters and its
    coordinates are the row and the column; so two cells of the board
    never share a name. *)
Theorem coordsFromSq_undoes_sqName :
  forall r c : Z,
    0 <= r < 8 -> 0 <= c < 8 ->
    coordsFromSq (sqName r c) = Coords.mk (Num r) c
    /\ String.length (sqName r c) = 2%nat
    /\ (forall r' c',
          0 <= r' < 8 -> 0 <= c' < 8 ->
          sqName r' c' = sqName r c -> r' = r /\ c' = c).
Proof.
  intros r c Hr Hc.
  destruct (coords_of_name r c Hr Hc) as [Hco Hlen].
  split; [exact Hco|]. split; [exact Hlen|].
  intros r' c' Hr' Hc' Heq.
  destruct (coords_of_name r' c' Hr' Hc') as [Hco' _].
  rewrite Heq, Hco in Hco'. injection Hco' as -> ->. split; reflexivity.
Qed.

Lemma coordsFromSq_undoes_sqName_witness :
  coordsFromSq (sqName 4 4) = Coords.mk (Num 4) 4 /\ sqName 4 4 = "e4".
Proof.
  split; [|reflexivity].
  refine (proj1 (coordsFromSq_undoes_sqName 4 4 _ _)); lia.
Defined.

(** X2.  [coordsFromSq] reads the first two characters only and never
    fails: the column is between -1 and 7, and -1 exactly when the text
    does not begin with one of the letters a to h; and whenever the
    coordinates it gives are on the board, the text begins with the name
    of that cell. *)
Theorem coordsFromSq_on_board_names_prefix :
  forall sq : string,
    -1 <= Coords.c (coordsFromSq sq) <= 7
    /\ (Coords.c (coordsFromSq sq) = -1 <->
        forall a, String.get 0 sq = Some a ->
                  forall i, String.get i "abcdefgh" <> Some a)
    /\ (forall r c,
          coordsFromSq sq = Coords.mk (Num r) c ->
          0 <= r < 8 -> 0 <= c < 8 ->
          exists rest, sq = sqName r c ++ rest).
Proof.
  intros sq. split; [|split].
  - unfold coordsFromSq; cbn [Coords.c].
    destruct (String.get 0 sq) as [a|]; [|lia].
    pose proof (indexOfChar_range "abcdefgh" a) as H.
    change (Z.of_nat (String.length "abcdefgh")) with 8 in H. lia.
  - unfold coordsFromSq; cbn [Coords.c].
    destruct (String.get 0 sq) as [a|]; split.
    + intros Habs b Hb. injection Hb as <-.
      apply indexOfChar_absent. exact Habs.
    + intros Habs.
      destruct (Z.eq_dec (indexOfChar "abcdefgh" a) (-1)) as [Hm|Hm]; [exact Hm|].
      exfalso. pose proof (indexOfChar_range "abcdefgh" a) as Hr.
      apply (Habs a eq_refl (Z.to_nat (indexOfChar "abcdefgh" a))).
      apply indexOfChar_found. lia.
    + intros _ a Ha. discriminate.
    + reflexivity.
  - apply coords_on_board_prefix.
Qed.

(** ** Move strings *)

(** X3.  [parseUci] cuts a move string at 2 and 4: the two squares put
    together are the first four characters of the string; a string of at
    most four characters has no promotion and is given back whole by its
    two squares, and one of five or more has its fifth character as the
    promotion. *)
Theorem parseUci_splits :
  forall (uci from to : string) (promotion : option string),
    parseUci uci = (from, to, promotion) ->
    from ++ to = slice 0 4 uci
    /\ ((String.length uci <= 4)%nat -> promotion = None /\ from ++ to = uci)
    /\ ((4 <= String.length uci)%nat ->
        String.length from = 2%nat /\ String.length to = 2%nat)
    /\ ((5 <= String.length uci)%nat ->
        exists p, promotion = Some p /\ String.length p = 1%nat
                  /\ from ++ to ++ p = slice 0 5 uci).
Proof.
  intros uci from to promotion H. unfold parseUci in H.
  destruct uci as [|a [|b [|c [|d [|e rest]]]]];
    cbn in H; injection H as <- <- <-; cbn [String.length];
    (split; [reflexivity|]);
    (split; [intros Hl; try lia; split; reflexivity|]);
    (split; [intros Hl; try lia; split; reflexivity|]);
    intros Hl; try lia.
  exists (String e EmptyString).
  split; [reflexivity|]. split; [reflexivity|]. destruct rest; reflexivity.
Qed.

Lemma parseUci_splits_witness :
  parseUci "e7e8q" = ("e7", "e8", Some "q")
  /\ "e7" ++ "e8" = slice 0 4 "e7e8q".
Proof.
  split; [reflexivity|].
  exact (proj1 (parseUci_splits "e7e8q" "e7" "e8" (Some "q") eq_refl)).
Defined.

(** ** The clock display *)

Lemma uint_string_digits (d : Decimal.uint) :
  allDigits (NilEmpty.string_of_uint d) = true.
Proof. induction d; cbn; try reflexivity; exact IHd. Qed.

Lemma uint_string_value (d : Decimal.uint) :
  d <> Decimal.Nil ->
  decimalValue (NilEmpty.string_of_uint d) = Z.of_uint d.
Proof.
  intros Hd. unfold decimalValue, NilZero.int_of_string.
  pose proof (NilEmpty.usu d) as Husu.
  destruct d; try congruence;
    cbn [NilEmpty.string_of_uint] in *;
    match goal with
    | |- context [Ascii.eqb ?a "-"] =>
        change (Ascii.eqb a "-") with false; cbv iota
    end;
    unfold NilZero.uint_of_string; rewrite Husu; reflexivity.
Qed.

(** The text of a non-negative integer is made of the digits of a
    decimal numeral with that value. *)
Lemma numberToString_numeral (n : Z) :
  0 <= n ->
  exists d, d <> Decimal.Nil
            /\ numberToString n = NilEmpty.string_of_uint d
            /\ Z.of_uint d = n.
Proof.
  intros Hn. unfold numberToString. destruct n as [|p|p]; [| |lia].
  - exists (Decimal.D0 Decimal.Nil). repeat split. discriminate.
  - exists (Pos.to_uint p). split; [apply DecimalPos.Unsigned.to_uint_nonnil|]. split.
    + cbn. pose proof (DecimalPos.Unsigned.to_uint_nonnil p) as Hnn.
      destruct (Pos.to_uint p); [congruence|reflexivity..].
    + unfold Z.of_uint. rewrite DecimalPos.Unsigned.of_to. reflexivity.
Qed.

Lemma padStart2_numeral (n : Z) :
  0 <= n ->
  exists d, d <> Decimal.Nil
            /\ padStart2 (numberToString n) = NilEmpty.string_of_uint d
            /\ Z.of_uint d = n
            /\ (2 <= String.length (padStart2 (numberToString n)))%nat.
Proof.
  intros Hn. destruct (numberToString_numeral n Hn) as (d & Hd & Hs & Hv).
  unfold padStart2. rewrite Hs.
  destruct (NilEmpty.string_of_uint d) as [|a [|b r]] eqn:Hstr.
  - destruct d; cbn in Hstr; congruence.
  - exists (Decimal.D0 d). cbn. rewrite Hstr.
    repeat split; [discriminate|exact Hv|lia].
  - exists d. cbn. rewrite Hstr. repeat split; [exact Hd|exact Hv|lia].
Qed.

Lemma colon_split (s r : string) :
  allDigits s = true ->
  beforeColon (s ++ String ":" r) = s /\ afterColon (s ++ String ":" r) = r.
Proof.
  induction s as [|a s IH]; cbn [allDigits append beforeColon afterColon].
  - intros _. split; reflexivity.
  - intros Hd. apply andb_prop in Hd. destruct Hd as [Ha Hs].
    apply andb_prop in Ha. destruct Ha as [Hlo Hhi].
    apply Z.leb_le in Hlo, Hhi.
    destruct (Ascii.eqb_spec a ":") as [->|Hne].
    + cbn in Hhi. lia.
    + destruct (IH Hs) as [Hb Ha]. rewrite Hb, Ha. split; reflexivity.
Qed.

(** Rounding to the nearest of [N] parts and then taking the whole part
    gives the whole part, when a part is less than twice [1 / y]. *)
Lemma round_then_floor (x y N : Z) :
  0 <= x -> 0 < y -> 0 < N -> y < 2 * N ->
  roundHalfEven (x * N) y / N = x / y.
Proof.
  intros Hx Hy HN Hfine.
  pose proof (Z.div_mod x y ltac:(lia)) as Hxy.
  pose proof (Z.mod_pos_bound x y Hy) as Hr.
  pose proof (Z.div_mod (x * N) y ltac:(lia)) as Ha.
  pose proof (Z.mod_pos_bound (x * N) y Hy) as Ht.
  remember (x / y) as F eqn:EF. remember (x mod y) as r eqn:Er.
  remember ((x * N) / y) as f eqn:Ef. remember ((x * N) mod y) as t eqn:Et.
  assert (Hlow : F * N <= f) by nia.
  assert (Hhigh : f < (F + 1) * N) by nia.
  assert (Hup : y <= 2 * t -> f + 1 < (F + 1) * N) by nia.
  unfold roundHalfEven. rewrite <- Ef, <- Et.
  symmetry.
  destruct (Z.ltb_spec (2 * t) y) as [Hlt|Hge].
  - apply (Z.div_unique _ _ _ (f - F * N)); lia.
  - assert (Hnext : f + 1 < (F + 1) * N) by (apply Hup; lia).
    destruct (Z.ltb_spec y (2 * t)).
    + apply (Z.div_unique _ _ _ (f + 1 - F * N)); lia.
    + destruct (Z.even f).
      * apply (Z.div_unique _ _ _ (f - F * N)); lia.
      * apply (Z.div_unique _ _ _ (f + 1 - F * N)); lia.
Qed.

(** On the safe integers [Math.floor(x / y)] is the whole part of the
    quotient: the double nearest to the quotient has the same whole part
    as the quotient. *)
Lemma floorDiv_exact (x y : Z) :
  0 <= x < 2 ^ 53 -> 2 <= y -> floorDiv x y = x / y.
Proof.
  intros Hx Hy. unfold floorDiv.
  destruct (Z.eqb_spec x 0) as [->|Hx0]; [reflexivity|].
  destruct (Z.ltb_spec 0 x) as [Hpos|]; [|lia].
  unfold nearestDouble, floorOf.
  assert (Hlx : Z.log2 x < 53) by (apply Z.log2_lt_pow2; lia).
  assert (Hly : 1 <= Z.log2 y)
    by (change 1 with (Z.log2 2); apply Z.log2_le_mono; lia).
  pose proof (Z.log2_spec y ltac:(lia)) as Hspec.
  remember (Z.log2 x - Z.log2 y) as k0 eqn:Ek0.
  remember (if (if 0 <=? k0 then x <? y * 2 ^ k0 else x * 2 ^ (- k0) <? y)
            then k0 - 1 else k0) as k eqn:Ek.
  assert (Hk : k <= k0) by (subst k; destruct (if 0 <=? k0 then _ else _); lia).
  destruct (Z.leb_spec 0 (k - 52)) as [Hge|Hneg]; [lia|].
  assert (Hpow : 2 ^ Z.log2 y <= 2 ^ (- (k - 52)))
    by (apply Z.pow_le_mono_r; lia).
  rewrite Z.pow_succ_r in Hspec by lia.
  apply round_then_floor; lia.
Qed.

Lemma floorDiv_negative (x y : Z) : x < 0 -> 0 < y -> floorDiv x y <= 0.
Proof.
  intros Hx Hy. unfold floorDiv.
  destruct (Z.eqb_spec x 0); [lia|].
  destruct (Z.ltb_spec 0 x); [lia|].
  unfold nearestDouble, ceilOf.
  remember (Z.log2 (- x) - Z.log2 y) as k0 eqn:Ek0.
  remember (if (if 0 <=? k0 then - x <? y * 2 ^ k0
                else - x * 2 ^ (- k0) <? y)
            then k0 - 1 else k0) as k eqn:Ek.
  assert (Hround : forall p q, 0 <= p -> 0 < q -> 0 <= roundHalfEven p q).
  { intros p q Hp Hq. unfold roundHalfEven.
    pose proof (Z.div_pos p q Hp Hq) as Hf. revert Hf.
    generalize (p / q). intros f Hf.
    destruct (2 * (p mod q) <? q); [exact Hf|].
    destruct (q <? 2 * (p mod q)); [lia|].
    destruct (Z.even f); lia. }
  destruct (Z.leb_spec 0 (k - 52)) as [Hge|Hneg].
  - pose proof (Hround (- x) (y * 2 ^ (k - 52)) ltac:(lia)
                  ltac:(apply Z.mul_pos_pos;
                        [lia|apply Z.pow_pos_nonneg; lia])).
    pose proof (Z.pow_pos_nonneg 2 (k - 52) ltac:(lia) Hge). nia.
  - pose proof (Z.pow_pos_nonneg 2 (- (k - 52)) ltac:(lia) ltac:(lia)) as HN.
    pose proof (Hround (- x * 2 ^ (- (k - 52))) y ltac:(nia) Hy) as Hm.
    assert (- roundHalfEven (- x * 2 ^ (- (k - 52))) y / 2 ^ (- (k - 52)) <= 0);
      [|lia].
    apply Z.div_le_upper_bound; lia.
Qed.

(** On the safe integers the clock display is made of the whole seconds
    [max 0 (floor (ms / 1000))], in decimal numerals. *)
Lemma formatTime_safe (ms : Z) :
  safeInteger ms ->
  let total := Z.max 0 (ms / 1000) in
  formatTime ms
  = padStart2 (numberToString (total / 60)) ++ ":"
    ++ padStart2 (numberToString (total mod 60)).
Proof.
  intros Hms total. unfold safeInteger in Hms.
  assert (Htotal : Z.max 0 (floorDiv ms 1000) = total).
  { subst total. destruct (Z.lt_ge_cases ms 0) as [Hneg|Hpos].
    - pose proof (floorDiv_negative ms 1000 Hneg ltac:(lia)).
      assert (ms / 1000 < 0) by (apply Z.div_lt_upper_bound; lia). lia.
    - rewrite floorDiv_exact by lia. reflexivity. }
  assert (Hrange : 0 <= total < 2 ^ 53).
  { subst total. destruct (Z.lt_ge_cases ms 0) as [Hneg|Hpos].
    - assert (ms / 1000 < 0) by (apply Z.div_lt_upper_bound; lia).
      change (2 ^ 53) with 9007199254740992. lia.
    - pose proof (Z.div_pos ms 1000 Hpos ltac:(lia)).
      assert (ms / 1000 <= ms)
        by (apply Z.div_le_upper_bound; lia).
      lia. }
  unfold formatTime. cbv zeta. rewrite Htotal.
  rewrite (floorDiv_exact total 60 Hrange ltac:(lia)).
  assert (Hm : 0 <= total / 60 < 2 ^ 53).
  { split; [apply Z.div_pos; lia|].
    apply Z.div_lt_upper_bound; lia. }
  assert (Hs : 0 <= total mod 60 < 2 ^ 53).
  { pose proof (Z.mod_pos_bound total 60 ltac:(lia)).
    change (2 ^ 53) with 9007199254740992. lia. }
  unfold stringOfNumber.
  destruct (Z.ltb_spec (total / 60) (2 ^ 53)); [|lia].
  destruct (Z.ltb_spec (total mod 60) (2 ^ 53)); [|lia].
  reflexivity.
Qed.

Lemma formatTime_parts (ms : Z) :
  safeInteger ms ->
  let total := Z.max 0 (ms / 1000) in
  beforeColon (formatTime ms) = padStart2 (numberToString (total / 60))
  /\ afterColon (formatTime ms) = padStart2 (numberToString (total mod 60)).
Proof.
  intros Hms total. rewrite (formatTime_safe ms Hms). fold total.
  destruct (padStart2_numeral (total / 60)) as (d & _ & Hs & _).
  { apply Z.div_pos; [subst total; lia|lia]. }
  apply colon_split. rewrite Hs. apply uint_string_digits.
Qed.

Lemma below_sixty_two_chars (n : Z) :
  0 <= n < 100 -> String.length (padStart2 (numberToString n)) = 2%nat.
Proof.
  intros Hn.
  assert (Hcheck : forallb
            (fun k => Nat.eqb (String.length
                                 (padStart2 (numberToString (Z.of_nat k)))) 2)
            (seq 0 100) = true) by (vm_compute; reflexivity).
  rewrite forallb_forall in Hcheck.
  specialize (Hcheck (Z.to_nat n)).
  rewrite Z2Nat.id in Hcheck by lia.
  apply Nat.eqb_eq. apply Hcheck. apply in_seq. lia.
Qed.

(** X4.  For a number of milliseconds that is a safe integer (below
    [2^53] in size, as every difference of two clock readings is), the
    clock display reads back as the whole seconds it was made from:
    minutes before the colon, seconds after it, together
    [max 0 (floor (ms / 1000))].  The seconds take two characters and the
    minutes at least two; below one second, negative times included, the
    display is [00:00], and below a hundred minutes it has exactly five
    characters. *)
Theorem formatTime_reads_back :
  forall ms : Z,
    safeInteger ms ->
    secondsShown (formatTime ms) = Z.max 0 (ms / 1000)
    /\ decimalValue (afterColon (formatTime ms)) < 60
    /\ String.length (afterColon (formatTime ms)) = 2%nat
    /\ (2 <= String.length (beforeColon (formatTime ms)))%nat
    /\ (ms < 1000 -> formatTime ms = "00:00")
    /\ (ms < 6000000 -> String.length (formatTime ms) = 5%nat).
Proof.
  intros ms Hsafe. destruct (formatTime_parts ms Hsafe) as [Hb Ha].
  cbv zeta in Hb, Ha.
  pose proof (formatTime_safe ms Hsafe) as Hfmt. cbv zeta in Hfmt.
  remember (Z.max 0 (ms / 1000)) as total eqn:Ht.
  assert (Htotal : 0 <= total) by lia.
  assert (Hm : 0 <= total / 60) by (apply Z.div_pos; lia).
  assert (Hs : 0 <= total mod 60 < 60) by (apply Z.mod_pos_bound; lia).
  destruct (padStart2_numeral (total / 60) Hm) as (dm & Hdm & Hsm & Hvm & Hlm).
  destruct (padStart2_numeral (total mod 60) (proj1 Hs))
    as (ds & Hds & Hss & Hvs & Hls).
  assert (Hsec : decimalValue (afterColon (formatTime ms)) = total mod 60).
  { rewrite Ha, Hss, uint_string_value by exact Hds. exact Hvs. }
  split; [|split; [|split; [|split; [|split]]]].
  - unfold secondsShown. rewrite Hsec, Hb, Hsm, uint_string_value by exact Hdm.
    rewrite Hvm. symmetry. apply Z.div_mod. lia.
  - rewrite Hsec. lia.
  - rewrite Ha. apply below_sixty_two_chars. lia.
  - rewrite Hb. exact Hlm.
  - intros Hlt. rewrite Hfmt.
    assert (H0 : total = 0).
    { assert (ms / 1000 <= 0); [|lia].
      pose proof (Z.mul_div_le ms 1000). lia. }
    rewrite H0. reflexivity.
  - intros Hlt. rewrite Hfmt.
    assert (Hmin : 0 <= total / 60 < 100).
    { split; [exact Hm|]. apply Z.div_lt_upper_bound; [lia|].
      assert (ms / 1000 < 6000); [|lia].
      apply Z.div_lt_upper_bound; lia. }
    rewrite !string_length_append.
    rewrite (below_sixty_two_chars (total / 60) Hmin).
    rewrite (below_sixty_two_chars (total mod 60)) by lia.
    reflexivity.
Qed.

(** The display of three seconds and a half, and of an hour and a
    minute. *)
Lemma formatTime_reads_back_witness :
  secondsShown (formatTime 3661500) = 3661
  /\ formatTime 3500 = "00:03".
Proof.
  assert (H1 : safeInteger 3661500) by (vm_compute; reflexivity).
  assert (H2 : safeInteger 3500) by (vm_compute; reflexivity).
  split.
  - exact (proj1 (formatTime_reads_back 3661500 H1)).
  - vm_compute. reflexivity.
Defined.

(** Beyond the safe integers the display is not that of the whole
    seconds any more: of the [2^60] milliseconds, 1152921504606846 whole
    seconds and 976 milliseconds, the quotient by 1000 is rounded up to
    the next second; and the minutes of [2^90] milliseconds are written
    with an exponent. *)
Example formatTime_large :
  formatTime (2 ^ 60) = "19215358410114:07"
  /\ (2 ^ 60 / 1000) mod 60 = 6
  /\ formatTime (2 ^ 90) = "2.0632333988089672e+22:28".
Proof. vm_compute. repeat split. Qed.

(** ** Trimming and clamping a name *)

Lemma trimStart_fixed (s : jsstring) :
  match s with c :: _ => isWhite c = false | [] => True end ->
  trimStart s = s.
Proof.
  destruct s as [|c r]; [reflexivity|]. cbn [trimStart]. intros ->. reflexivity.
Qed.

Lemma trimEnd_decompose (s : jsstring) :
  exists post,
    s = (trimEnd s ++ post)%list /\ Forall (fun c => isWhite c = true) post.
Proof.
  destruct (trimStart_decompose (rev s)) as [pre [Hr Hpre]].
  exists (rev pre). split.
  - unfold trimEnd. rewrite <- rev_app_distr, <- Hr, rev_involutive.
    reflexivity.
  - apply Forall_rev. exact Hpre.
Qed.

Lemma trimEnd_last (s front : jsstring) (c : Z) :
  trimEnd s = (front ++ [c])%list -> isWhite c = false.
Proof.
  unfold trimEnd. intros H. apply (f_equal (@rev Z)) in H.
  rewrite rev_involutive, rev_app_distr in H. cbn in H.
  pose proof (trimStart_head (rev s)) as Hh. rewrite H in Hh. exact Hh.
Qed.

Lemma trimEnd_fixed (s : jsstring) :
  (forall front c, s = (front ++ [c])%list -> isWhite c = false) ->
  trimEnd s = s.
Proof.
  intros Hlast. unfold trimEnd. rewrite trimStart_fixed.
  - apply rev_involutive.
  - destruct (rev s) as [|c r] eqn:Hr; [exact I|].
    apply (Hlast (rev r) c). rewrite <- (rev_involutive s), Hr. reflexivity.
Qed.

Lemma trimEnd_keeps_head (s : jsstring) :
  match s with c :: _ => isWhite c = false | [] => True end ->
  match trimEnd s with c :: _ => isWhite c = false | [] => True end.
Proof.
  intros Hs. destruct (trimEnd_decompose s) as [post [Heq _]].
  destruct (trimEnd s) as [|c r]; [exact I|].
  rewrite Heq in Hs. exact Hs.
Qed.

Lemma trim_head (s : jsstring) :
  match trim s with c :: _ => isWhite c = false | [] => True end.
Proof. unfold trim. apply trimEnd_keeps_head. apply trimStart_head. Qed.

Lemma trim_fixed (s : jsstring) :
  match s with c :: _ => isWhite c = false | [] => True end ->
  (forall front c, s = (front ++ [c])%list -> isWhite c = false) ->
  trim s = s.
Proof.
  intros Hh Hl. unfold trim. rewrite (trimStart_fixed s Hh).
  apply trimEnd_fixed. exact Hl.
Qed.

(** X5.  [trim] strips white space at the two ends and nothing else: the
    text is a run of white space, the trimmed text, a run of white space;
    the trimmed text neither begins nor ends with white space; and
    trimming it again changes nothing. *)
Theorem trim_strips_both_ends :
  forall s : jsstring,
    (exists pre post,
        s = (pre ++ trim s ++ post)%list
        /\ Forall (fun c => isWhite c = true) pre
        /\ Forall (fun c => isWhite c = true) post)
    /\ (forall c rest, trim s = c :: rest -> isWhite c = false)
    /\ (forall front c, trim s = (front ++ [c])%list -> isWhite c = false)
    /\ trim (trim s) = trim s.
Proof.
  intros s.
  assert (Hhead : forall c rest, trim s = c :: rest -> isWhite c = false).
  { intros c rest H. pose proof (trim_head s) as Hh. rewrite H in Hh. exact Hh. }
  assert (Hlast : forall front c,
             trim s = (front ++ [c])%list -> isWhite c = false).
  { intros front c H. apply (trimEnd_last (trimStart s) front c). exact H. }
  split; [apply trim_decompose|]. split; [exact Hhead|]. split; [exact Hlast|].
  apply trim_fixed; [apply trim_head|exact Hlast].
Qed.

(** X6.  The clamped name is the first 24 code units of the trimmed name:
    a prefix of it, at most 24 long, equal to it when it is no longer
    than that, and never beginning with white space.  It can end with
    white space (where the cut falls inside the name), so clamping a
    second time gives the clamped name stripped of white space at its
    end, and a name exists for which that differs. *)
Theorem clampName_is_prefix_of_trimmed :
  forall s : jsstring,
    (exists tail, trim s = (clampName s ++ tail)%list)
    /\ (List.length (clampName s) <= 24)%nat
    /\ ((List.length (trim s) <= 24)%nat -> clampName s = trim s)
    /\ (forall c rest, clampName s = c :: rest -> isWhite c = false)
    /\ clampName (clampName s) = trimEnd (clampName s)
    /\ (exists n : jsstring, clampName (clampName n) <> clampName n).
Proof.
  intros s.
  assert (Hhead : match clampName s with
                  | c :: _ => isWhite c = false
                  | [] => True
                  end).
  { unfold clampName, take. pose proof (trim_head s) as Hh.
    destruct (trim s) as [|c r]; [exact I|exact Hh]. }
  split; [|split; [|split; [|split; [|split]]]].
  - exists (skipn 24 (trim s)). unfold clampName, take.
    symmetry. apply firstn_skipn.
  - apply clampName_length.
  - intros Hlen. unfold clampName, take. apply firstn_all2. exact Hlen.
  - intros c rest H. rewrite H in Hhead. exact Hhead.
  - unfold clampName at 1. unfold trim.
    rewrite (trimStart_fixed (clampName s) Hhead).
    unfold take. apply firstn_all2.
    destruct (trimEnd_decompose (clampName s)) as [post [Heq _]].
    pose proof (clampName_length s) as Hlen.
    rewrite Heq, length_app in Hlen. lia.
  - exists (ofString "a                       b"). vm_compute. discriminate.
Qed.

(* ================================================================== *)
(** ** Clicks on the board *)

Section Clicks.

Context {E : ChessEngine} {V : ChessView E}.
Variable puzzle : WeeklyPuzzle.

Lemma setSelected_twice (v v' : option (Z * Z)) (s : AppState) :
  setSelected v (setSelected v' s) = setSelected v s.
Proof. reflexivity. Qed.

Lemma setSelected_same (s : AppState) : setSelected (selected s) s = s.
Proof. destruct s; reflexivity. Qed.

(** The selection has no part in what a move attempt does, and a move
    attempt that throws leaves the selection as it is. *)
Lemma tryPlayerMove_forgets_selection now from to v (s : AppState) :
  setSelected None (stateOf (tryPlayerMove puzzle now from to (setSelected v s)))
  = setSelected None (stateOf (tryPlayerMove puzzle now from to s))
  /\ thrown (tryPlayerMove puzzle now from to (setSelected v s))
     = thrown (tryPlayerMove puzzle now from to s)
  /\ (thrown (tryPlayerMove puzzle now from to s) <> None ->
      selected (stateOf (tryPlayerMove puzzle now from to s)) = selected s).
Proof.
  unfold tryPlayerMove. cbn [setSelected done game].
  destruct (done s); [repeat split|].
  destruct (chess_move (game s) (mkArg from to "q")) as [[[moved m]|]|e];
    [|repeat split..].
  change (nextPlayerUci puzzle (setSelected v s)) with (nextPlayerUci puzzle s).
  destruct (negb _); [repeat split; cbn; congruence|].
  cbn [playerMoveIndex].
  destruct (applyOpponentMoveIfExists _ _ _); repeat split;
    cbn; congruence.
Qed.

Lemma replyThrows_forgets_selection from to v (s : AppState) :
  replyThrows puzzle (setSelected v s) from to = replyThrows puzzle s from to.
Proof. reflexivity. Qed.

(** A move attempt on whose reply the engine does not throw: if an error
    leaves the handler, the engine refused the attempt itself and no cell
    has changed; and a board on screen that shows the game object still
    does so afterwards. *)
Lemma tryPlayerMove_reply_not_thrown now from to (s : AppState) :
  replyThrows puzzle s from to = false ->
  (thrown (tryPlayerMove puzzle now from to s) <> None ->
   stateOf (tryPlayerMove puzzle now from to s) = s
   /\ legalAttempt s from to = false)
  /\ (board s = game s ->
      board (stateOf (tryPlayerMove puzzle now from to s))
      = game (stateOf (tryPlayerMove puzzle now from to s))).
Proof.
  unfold replyThrows, tryPlayerMove, legalAttempt.
  destruct (done s); [intros _; split; [intros H; contradiction|auto]|].
  cbn [negb andb].
  destruct (chess_move (game s) (mkArg from to "q")) as [[[moved m]|]|e].
  - destruct (String.eqb _ _); cbn [negb andb].
    + destruct (applyOpponentMoveIfExists _ _ _); [|discriminate].
      intros _. split; [intros H; contradiction|reflexivity].
    + intros _. split; [intros H; contradiction|reflexivity].
  - intros _. split; [intros H; contradiction|auto].
  - intros _. split; [split; reflexivity|auto].
Qed.

Lemma reachable_no_selection (s : AppState) :
  reachable puzzle s -> selected s = None.
Proof.
  induction 1 as [|e s Hs IH Hc]; [reflexivity|].
  destruct e as [now from to| | |now|n]; cbn [step].
  - unfold tryPlayerMove. destruct (done s); [exact IH|].
    destruct (chess_move (game s) (mkArg from to "q")) as [[[moved m]|]|err];
      [|exact IH|exact IH].
    destruct (negb _); [exact IH|].
    destruct (applyOpponentMoveIfExists _ _ _); [reflexivity|exact IH].
  - unfold requestHint. destruct (hintDisabled puzzle s); exact IH.
  - reflexivity.
  - unfold tick. destruct (startRef s) as [t|]; [|exact IH].
    destruct (negb (t =? 0) && negb (done s)); exact IH.
  - exact IH.
Qed.

Lemma unselected_step (e : Event) (s : AppState) :
  reachable puzzle (setSelected None s) -> clockOk e ->
  setSelected None (step puzzle e s) = step puzzle e (setSelected None s)
  /\ reachable puzzle (setSelected None (step puzzle e s)).
Proof.
  intros Hr Hc.
  assert (Heq : setSelected None (step puzzle e s)
                = setSelected None (step puzzle e (setSelected None s))).
  { destruct e as [now from to| | |now|n]; cbn [step].
    - symmetry. apply tryPlayerMove_forgets_selection.
    - unfold requestHint, hintDisabled, hintSquares.
      change (nextPlayerUci puzzle (setSelected None s))
        with (nextPlayerUci puzzle s).
      cbn [setSelected done].
      destruct (done s || _); reflexivity.
    - reflexivity.
    - unfold tick. cbn [setSelected startRef done].
      destruct (startRef s) as [t|]; [|reflexivity].
      destruct (negb (t =? 0) && negb (done s)); reflexivity.
    - reflexivity. }
  pose proof (reach_step puzzle e _ Hr Hc) as Hstep.
  pose proof (reachable_no_selection _ Hstep) as Hsel.
  assert (Hfix : setSelected None (step puzzle e (setSelected None s))
                 = step puzzle e (setSelected None s)).
  { pose proof (setSelected_same (step puzzle e (setSelected None s))) as H.
    rewrite Hsel in H. exact H. }
  rewrite Heq, Hfix. split; [reflexivity|exact Hstep].
Qed.

(** A click on a cell while a cell is selected is, the selection apart,
    a move attempt. *)
Lemma click_is_attempt now r c sr sc (s : AppState) :
  selected s = Some (sr, sc) ->
  setSelected None (stateOf (onCellClick puzzle now r c s))
  = setSelected None (step puzzle (EvMove now (sqName sr sc) (sqName r c)) s)
  /\ thrown (onCellClick puzzle now r c s)
     = thrown (tryPlayerMove puzzle now (sqName sr sc) (sqName r c) s).
Proof.
  intros Hsel. unfold onCellClick. rewrite Hsel. cbn [step].
  destruct (tryPlayerMove puzzle now (sqName sr sc) (sqName r c) s);
    split; reflexivity.
Qed.

Lemma uiReachable_unselected (s : AppState) :
  uiReachable puzzle s -> reachable puzzle (setSelected None s).
Proof.
  intros Hui. induction Hui as [|e s Hs IH Hok].
  - apply reach_init.
  - destruct e as [now r c| | |now|n]; cbn [uiStep uiOk] in *.
    + destruct (selected s) as [[sr sc]|] eqn:Hsel.
      * rewrite (proj1 (click_is_attempt now r c sr sc s Hsel)).
        apply (unselected_step (EvMove now (sqName sr sc) (sqName r c)) s IH).
        exact (proj1 Hok).
      * unfold onCellClick. rewrite Hsel. cbn [stateOf].
        destruct (ownPieceAt s r c); [rewrite setSelected_twice|]; exact IH.
    + apply (unselected_step EvHint s IH I).
    + apply (unselected_step EvRestart s IH I).
    + apply (unselected_step (EvTick now) s IH Hok).
    + apply (unselected_step (EvName n) s IH I).
Qed.

(** X7.  The machine the user drives by clicking is the machine of move
    attempts: every state reachable by clicks on the board, the hint and
    restart buttons, ticks and name edits is, the selected cell apart, a
    state reachable by move attempts, hint requests, restarts, ticks and
    name edits; so it keeps the same invariant. *)
Theorem clicks_refine_move_attempts :
  forall s : AppState,
    uiReachable puzzle s ->
    reachable puzzle (setSelected None s) /\ consistent s.
Proof.
  intros s Hui.
  pose proof (uiReachable_unselected s Hui) as Hreach.
  split; [exact Hreach|].
  exact (reachable_consistent puzzle _ Hreach).
Qed.

(** From here on the line of the puzzle is taken to be playable on the
    engine: the engine does not throw on a scripted reply. *)
Hypothesis playable : LinePlayable puzzle.

Lemma uiReachable_replies (s : AppState) (from to : string) :
  uiReachable puzzle s -> replyThrows puzzle s from to = false.
Proof.
  intros Hui.
  destruct (reachable_is_run puzzle _ (uiReachable_unselected s Hui))
    as [es Hes].
  rewrite <- (replyThrows_forgets_selection from to None s), Hes.
  apply playable.
Qed.

(** The board on screen shows the game object, and a selected cell is a
    cell of the board that holds a piece of the side to move. *)
Lemma uiReachable_selection (s : AppState) :
  uiReachable puzzle s ->
  board s = game s
  /\ forall r c,
       selected s = Some (r, c) ->
       0 <= r < 8 /\ 0 <= c < 8 /\ ownPieceAt s r c = true.
Proof.
  intros Hui. induction Hui as [|e s Hs [Hfresh IH] Hok].
  - split; [reflexivity|discriminate].
  - destruct e as [now r0 c0| | |now|n]; cbn [uiStep uiOk] in *.
    + unfold onCellClick. destruct (selected s) as [[sr sc]|] eqn:Hs0.
      * destruct (tryPlayerMove_reply_not_thrown now (sqName sr sc)
                    (sqName r0 c0) s (uiReachable_replies s _ _ Hs))
          as [Hthrown Hboard].
        destruct (tryPlayerMove puzzle now (sqName sr sc) (sqName r0 c0) s)
          as [s'|e s'] eqn:Hmove; cbn [stateOf thrown] in *.
        -- split; [exact (Hboard Hfresh)|discriminate].
        -- destruct Hthrown as [-> _]; [discriminate|].
           split; [exact Hfresh|]. rewrite Hs0. exact IH.
      * cbn [stateOf]. destruct (ownPieceAt s r0 c0) eqn:Hown.
        -- split; [exact Hfresh|]. cbn [setSelected selected].
           intros r c Hsel. injection Hsel as <- <-.
           split; [apply Hok|]. split; [apply Hok|]. exact Hown.
        -- split; [exact Hfresh|]. rewrite Hs0. discriminate.
    + unfold requestHint. destruct (hintDisabled puzzle s);
        split; assumption.
    + split; [reflexivity|discriminate].
    + unfold tick. destruct (startRef s) as [t|]; [|split; assumption].
      destruct (negb (t =? 0) && negb (done s)); split; assumption.
    + split; assumption.
Qed.

(** X8.  Whatever the user does, a selected cell is a cell of the board
    that holds a piece of the side to move, and the board on screen
    shows the game object as it is.  (The line being playable: an error
    thrown by a scripted reply would leave the player's move on the game
    object and the board on screen without it.) *)
Theorem selection_holds_own_piece :
  forall s : AppState,
    uiReachable puzzle s ->
    board s = game s
    /\ forall r c,
         selected s = Some (r, c) ->
         0 <= r < 8 /\ 0 <= c < 8 /\ ownPieceAt s r c = true.
Proof. exact uiReachable_selection. Qed.

(** X9.  Two clicks are one move attempt, and an attempt that throws
    keeps the selection.  With nothing selected, a click on a cell
    holding a piece of the side to move selects it, and the next click,
    on any cell, is the attempt to move from the first cell's square to
    the second's: the cells are left as the attempt leaves them, the
    selection apart.  If the handler of the attempt returns, nothing is
    selected afterwards.  If an error leaves it, the first cell is still
    selected, and when the engine threw on the attempt itself nothing at
    all has changed: the click after that is again an attempt from the
    first cell.  A first click on any other cell does nothing. *)
Theorem two_clicks_one_attempt :
  forall (s : AppState) (now1 now2 r1 c1 r2 c2 : Z),
    selected s = None ->
    (ownPieceAt s r1 c1 = true ->
     let s1 := uiStep puzzle (UiClick now1 r1 c1) s in
     let s2 := uiStep puzzle (UiClick now2 r2 c2) s1 in
     let h := tryPlayerMove puzzle now2 (sqName r1 c1) (sqName r2 c2) s in
     s1 = setSelected (Some (r1, c1)) s
     /\ setSelected None s2 = setSelected None (stateOf h)
     /\ thrown (onCellClick puzzle now2 r2 c2 s1) = thrown h
     /\ (thrown h = None -> selected s2 = None)
     /\ (thrown h <> None -> selected s2 = Some (r1, c1))
     /\ (thrown h <> None -> legalAttempt s (sqName r1 c1) (sqName r2 c2) = false ->
         s2 = s1))
    /\ (ownPieceAt s r1 c1 = false ->
        uiStep puzzle (UiClick now1 r1 c1) s = s).
Proof.
  intros s now1 now2 r1 c1 r2 c2 Hsel.
  assert (H1 : forall b, ownPieceAt s r1 c1 = b ->
                 uiStep puzzle (UiClick now1 r1 c1) s
                 = if b then setSelected (Some (r1, c1)) s else s).
  { intros b Hb. cbn [uiStep]. unfold onCellClick. rewrite Hsel, Hb.
    reflexivity. }
  split; intros Hown; [|exact (H1 false Hown)].
  cbv zeta. rewrite (H1 true Hown).
  destruct (tryPlayerMove_forgets_selection now2 (sqName r1 c1)
              (sqName r2 c2) (Some (r1, c1)) s) as (Hstate & Hthrown & _).
  destruct (tryPlayerMove_forgets_selection now2 (sqName r1 c1)
              (sqName r2 c2) None (setSelected (Some (r1, c1)) s))
    as (_ & _ & Hkeep).
  pose proof (tryPlayerMove_illegal puzzle now2 (sqName r1 c1) (sqName r2 c2)
                (setSelected (Some (r1, c1)) s)) as Hsame.
  cbn [uiStep]. unfold onCellClick. cbn [setSelected selected].
  destruct (tryPlayerMove puzzle now2 (sqName r1 c1) (sqName r2 c2)
              (setSelected (Some (r1, c1)) s)) as [s'|e s'] eqn:Hmove;
    cbn [stateOf thrown] in *.
  - split; [reflexivity|]. split; [exact Hstate|]. split; [exact Hthrown|].
    split; [reflexivity|]. rewrite <- Hthrown.
    split; intros H; contradiction.
  - split; [reflexivity|]. split; [exact Hstate|]. split; [exact Hthrown|].
    rewrite <- Hthrown.
    split; [discriminate|]. split.
    + intros _. apply Hkeep. discriminate.
    + intros _ Hl. apply Hsame. exact Hl.
Qed.

End Clicks.

(* ================================================================== *)
(** ** The highlighted cells of a hint *)

Section HintCells.

Context {E : ChessEngine} {V : ChessView E}.
Variable puzzle : WeeklyPuzzle.

Lemma coords_match_name (sq : string) (r c : Z) :
  String.length sq = 2%nat ->
  0 <= r < 8 -> 0 <= c < 8 ->
  (numIs (Coords.r (coordsFromSq sq)) r && (Coords.c (coordsFromSq sq) =? c)
   = true
   <-> sqName r c = sq).
Proof.
  intros Hlen Hr Hc. split.
  - intros H. apply andb_prop in H. destruct H as [Hrow Hcol].
    apply Z.eqb_eq in Hcol.
    destruct (Coords.r (coordsFromSq sq)) as [z|] eqn:Hz; [|discriminate].
    apply Z.eqb_eq in Hrow. subst z.
    destruct (coords_on_board_prefix sq r c) as [rest Hrest];
      [|exact Hr|exact Hc|].
    + destruct (coordsFromSq sq) as [r0 c0]. cbn in Hz, Hcol. congruence.
    + destruct (coords_of_name r c Hr Hc) as [_ Hn].
      rewrite Hrest, string_length_append, Hn in Hlen.
      destruct rest; [|cbn in Hlen; lia].
      rewrite Hrest. clear. induction (sqName r c); cbn; congruence.
  - intros <-. destruct (coords_of_name r c Hr Hc) as [Hco _].
    rewrite Hco. cbn. rewrite !Z.eqb_refl. reflexivity.
Qed.

Lemma slice_lengths (u : string) :
  (4 <= String.length u)%nat ->
  String.length (slice 0 2 u) = 2%nat /\ String.length (slice 2 4 u) = 2%nat.
Proof.
  destruct u as [|a [|b [|c [|d rest]]]]; cbn [String.length]; try lia.
  intros _. destruct rest; split; reflexivity.
Qed.

(** X10.  A hint lights up the squares of the expected move and nothing
    else: while the puzzle is not complete and the expected move has at
    least four characters, a cell of the board is marked as the source
    exactly when the hint stage is 1 or more and the cell's name is the
    first two characters of the expected move, and as the destination
    exactly when the stage is 2 or more and its name is the next two;
    when the puzzle is complete no cell is marked. *)
Theorem hint_marks_expected_squares :
  forall (s : AppState) (r c : Z),
    0 <= r < 8 -> 0 <= c < 8 ->
    (done s = false ->
     (4 <= String.length (nextPlayerUci puzzle s))%nat ->
     (isHintFrom puzzle s r c = true
      <-> 1 <= hintStage s /\ sqName r c = slice 0 2 (nextPlayerUci puzzle s))
     /\ (isHintTo puzzle s r c = true
         <-> 2 <= hintStage s
             /\ sqName r c = slice 2 4 (nextPlayerUci puzzle s)))
    /\ (done s = true ->
        isHintFrom puzzle s r c = false /\ isHintTo puzzle s r c = false).
Proof.
  intros s r c Hr Hc. split.
  - intros Hd Hlen.
    destruct (slice_lengths _ Hlen) as [Hlf Hlt].
    assert (Hsq : hintSquares puzzle s
                  = Some (slice 0 2 (nextPlayerUci puzzle s),
                          slice 2 4 (nextPlayerUci puzzle s))).
    { unfold hintSquares. rewrite Hd.
      destruct (nextPlayerUci puzzle s) as [|a u]; [cbn in Hlen; lia|].
      cbn [String.eqb orb].
      destruct (Nat.ltb_spec (String.length (String a u)) 4); [lia|].
      reflexivity. }
    unfold isHintFrom, isHintTo, hintCoords. rewrite Hsq.
    split.
    + rewrite <- (coords_match_name _ r c Hlf Hr Hc).
      rewrite <- andb_assoc, andb_true_iff, Z.geb_le. reflexivity.
    + rewrite <- (coords_match_name _ r c Hlt Hr Hc).
      rewrite <- andb_assoc, andb_true_iff, Z.geb_le. reflexivity.
  - intros Hd. unfold isHintFrom, isHintTo, hintCoords, hintSquares.
    rewrite Hd. split; reflexivity.
Qed.

End HintCells.

(* ================================================================== *)
(** ** Progress, mistakes and the elapsed time *)

Section Progress.

Context {E : ChessEngine}.
Variable puzzle : WeeklyPuzzle.

(** X11.  For a puzzle of the catalog a hint is on offer at every move:
    in a reachable state the hint button is disabled exactly when the
    puzzle is complete, and until then the hint squares are the two
    halves of the expected solution entry. *)
Theorem hint_offered_until_complete :
  In puzzle PUZZLES ->
  forall s : AppState,
    reachable puzzle s ->
    hintDisabled puzzle s = done s
    /\ (done s = false ->
        exists u from to,
          item (solution puzzle) (playerMoveIndex s * 2) = Some u
          /\ hintSquares puzzle s = Some (from, to)
          /\ from ++ to = u).
Proof.
  intros Hcat s Hreach.
  destruct (reachable_consistent puzzle s Hreach) as (Hidx & _).
  destruct (done s) eqn:Hd.
  - split; [|discriminate]. unfold hintDisabled. rewrite Hd. reflexivity.
  - destruct (catalog_lines puzzle Hcat) as [Hlen Hall].
    rewrite Forall_forall in Hall.
    destruct (item_in_range (solution puzzle) (playerMoveIndex s * 2))
      as (u & Hu & _); [rewrite Hlen; lia|].
    destruct (item_Some_range _ _ _ Hu) as [_ Hin].
    destruct (Hall u Hin) as (_ & Hne & H4 & _ & Hcat4).
    assert (Hsq : hintSquares puzzle s = Some (slice 0 2 u, slice 2 4 u)).
    { unfold hintSquares, nextPlayerUci. rewrite Hd, Hu. cbn [orEmpty].
      apply String.eqb_neq in Hne. rewrite Hne. cbn [orb].
      destruct (Nat.ltb_spec (String.length u) 4) as [Hlt|_];
        [apply Nat.leb_le in H4; lia|reflexivity]. }
    split.
    + unfold hintDisabled. rewrite Hd, Hsq. reflexivity.
    + intros _. exists u, (slice 0 2 u), (slice 2 4 u).
      split; [exact Hu|]. split; [exact Hsq|exact Hcat4].
Qed.

Lemma step_accounting (e : Event) (s : AppState) :
  isRestart e = false ->
  let s' := step puzzle e s in
  playerMoveIndex s' + mistakes s'
  = playerMoveIndex s + mistakes s
    + match e with
      | EvMove now from to =>
          (if negb (done s) && legalAttempt s from to then 1 else 0)
          - (if replyThrows puzzle s from to then 1 else 0)
      | _ => 0
      end
  /\ playerMoveIndex s <= playerMoveIndex s'
  /\ mistakes s <= mistakes s'.
Proof.
  intros He. destruct e as [now from to| | |now|n]; cbn [step isRestart] in *.
  - unfold tryPlayerMove, legalAttempt, replyThrows.
    destruct (done s); cbn [negb andb stateOf]; [lia|].
    destruct (chess_move (game s) (mkArg from to "q")) as [[[moved m]|]|err];
      cbn [stateOf]; [|lia|lia].
    destruct (String.eqb _ _); cbn [negb andb stateOf]; [|cbn; lia].
    destruct (applyOpponentMoveIfExists _ _ _); cbn; lia.
  - unfold requestHint. destruct (hintDisabled puzzle s); cbn; lia.
  - discriminate.
  - unfold tick. destruct (startRef s) as [t|]; [|lia].
    destruct (negb (t =? 0) && negb (done s)); cbn; lia.
  - cbn. lia.
Qed.

Lemma run_accounting (es : list Event) :
  forall s : AppState,
    existsb isRestart es = false ->
    let s' := run puzzle es s in
    playerMoveIndex s' + mistakes s'
    = playerMoveIndex s + mistakes s
      + acceptedAttempts puzzle es s - refusedReplies puzzle es s
    /\ playerMoveIndex s <= playerMoveIndex s'
    /\ mistakes s <= mistakes s'.
Proof.
  induction es as [|e es IH]; intros s Hno.
  - cbn. lia.
  - cbn [existsb] in Hno. apply orb_false_iff in Hno. destruct Hno as [He Hes].
    change (run puzzle (e :: es) s) with (run puzzle es (step puzzle e s)).
    destruct (step_accounting e s He) as (Hsum & Hi & Hm).
    destruct (IH (step puzzle e s) Hes) as (Hsum' & Hi' & Hm').
    cbn zeta in *. cbn [acceptedAttempts refusedReplies].
    destruct e; repeat split; lia.
Qed.

(** On a playable line no reply is refused. *)
Lemma playable_no_refusal (es : list Event) :
  LinePlayable puzzle ->
  forall es0 : list Event,
    refusedReplies puzzle es (run puzzle es0 (initialState puzzle)) = 0.
Proof.
  intros Hplay. induction es as [|e es IH]; intros es0; [reflexivity|].
  cbn [refusedReplies]. rewrite <- run_snoc, IH.
  destruct e as [now from to| | |now|n]; try reflexivity.
  rewrite (Hplay es0 from to). reflexivity.
Qed.

(** X12.  Every move attempt that is carried through counts once: over a
    run of events without a restart, the move index plus the mistake
    count grows by exactly the number of attempts that were made before
    completion and accepted by the engine, less those on whose scripted
    reply the engine threw, and neither of the two ever goes down.  In a
    session on a playable line there are none of the latter, and every
    accepted attempt counts. *)
Theorem accepted_attempts_are_counted :
  forall (es : list Event) (s : AppState),
    existsb isRestart es = false ->
    let s' := run puzzle es s in
    playerMoveIndex s' + mistakes s'
    = playerMoveIndex s + mistakes s
      + acceptedAttempts puzzle es s - refusedReplies puzzle es s
    /\ playerMoveIndex s <= playerMoveIndex s'
    /\ mistakes s <= mistakes s'
    /\ (LinePlayable puzzle ->
        (exists es0, s = run puzzle es0 (initialState puzzle)) ->
        refusedReplies puzzle es s = 0
        /\ playerMoveIndex s' + mistakes s'
           = playerMoveIndex s + mistakes s + acceptedAttempts puzzle es s).
Proof.
  intros es s Hno s'.
  destruct (run_accounting es s Hno) as (Hsum & Hi & Hm).
  fold s' in Hsum, Hi, Hm.
  split; [exact Hsum|]. split; [exact Hi|]. split; [exact Hm|].
  intros Hplay [es0 ->].
  pose proof (playable_no_refusal es Hplay es0) as H0.
  split; [exact H0|]. subst s'. lia.
Qed.

(** What holds of the elapsed time when the last clock reading was
    [latest]. *)
Lemma elapsed_step (e : Event) (s : AppState) (latest : Z) :
  clockOk e ->
  match clockOf e with Some now => latest <= now | None => True end ->
  match startRef s with
  | None => timeMs s = 0
  | Some t => 0 < t <= latest /\ 0 <= timeMs s <= latest - t
  end ->
  let latest' := match clockOf e with Some now => now | None => latest end in
  match startRef (step puzzle e s) with
  | None => timeMs (step puzzle e s) = 0
  | Some t =>
      0 < t <= latest' /\ 0 <= timeMs (step puzzle e s) <= latest' - t
  end.
Proof.
  intros Hclock Hasc Hinv.
  destruct e as [now from to| | |now|n];
    cbn [step clockOk clockOf] in *; cbv zeta.
  - unfold tryPlayerMove. destruct (done s).
    + cbn [stateOf]. destruct (startRef s); lia.
    + destruct (chess_move (game s) (mkArg from to "q")) as [[[moved m]|]|err].
      * assert (Hst : match startTimerIfNeeded now (startRef s) with
                      | None => False
                      | Some t => 0 < t <= now /\ 0 <= timeMs s <= now - t
                      end).
        { unfold startTimerIfNeeded, falsyNum.
          destruct (startRef s) as [t|].
          - destruct (Z.eqb_spec t 0); lia.
          - lia. }
        destruct (negb _);
          [|destruct (applyOpponentMoveIfExists _ _ _)];
          cbn [stateOf startRef timeMs];
          destruct (startTimerIfNeeded now (startRef s)); tauto.
      * cbn [stateOf]. destruct (startRef s); lia.
      * cbn [stateOf]. destruct (startRef s); lia.
  - unfold requestHint. destruct (hintDisabled puzzle s); exact Hinv.
  - cbn. reflexivity.
  - unfold tick. destruct (startRef s) as [t|] eqn:Hs;
      [|rewrite Hs; exact Hinv].
    destruct (negb (t =? 0) && negb (done s)); cbn [startRef timeMs];
      rewrite ?Hs; lia.
  - exact Hinv.
Qed.

Lemma elapsed_run (es : list Event) :
  forall (s : AppState) (latest : Z),
    Forall clockOk es ->
    clockAscends latest es ->
    match startRef s with
    | None => timeMs s = 0
    | Some t => 0 < t <= latest /\ 0 <= timeMs s <= latest - t
    end ->
    match startRef (run puzzle es s) with
    | None => timeMs (run puzzle es s) = 0
    | Some t =>
        0 < t <= latestClock latest es
        /\ 0 <= timeMs (run puzzle es s) <= latestClock latest es - t
    end.
Proof.
  induction es as [|e es IH]; intros s latest Hok Hasc Hinv.
  - exact Hinv.
  - inversion Hok as [|e' es' He Hes]; subst.
    change (run puzzle (e :: es) s) with (run puzzle es (step puzzle e s)).
    cbn [clockAscends latestClock] in *.
    pose proof (elapsed_step e s latest He) as Hstep.
    destruct (clockOf e) as [now|].
    + destruct Hasc as [Hle Hasc]. apply IH; [exact Hes|exact Hasc|].
      apply Hstep; [exact Hle|exact Hinv].
    + apply IH; [exact Hes|exact Hasc|]. apply Hstep; [exact I|exact Hinv].
Qed.

(** X13.  The elapsed time never runs ahead of the clock: over any run
    of events from the initial state whose clock readings are positive
    and never go back, the time shown is 0 as long as the timer has not
    started, and afterwards between 0 and the time from the first legal
    attempt to the last reading; a restart brings it back to 0, and once
    the puzzle is complete no tick changes it. *)
Theorem elapsed_time_within_clock :
  forall es : list Event,
    Forall clockOk es ->
    clockAscends 0 es ->
    let s := run puzzle es (initialState puzzle) in
    match startRef s with
    | None => timeMs s = 0
    | Some t =>
        0 < t <= latestClock 0 es
        /\ 0 <= timeMs s <= latestClock 0 es - t
    end
    /\ timeMs (restartPuzzle puzzle s) = 0
    /\ (done s = true -> forall now, tick now s = s).
Proof.
  intros es Hok Hasc s. split; [|split].
  - apply (elapsed_run es (initialState puzzle) 0 Hok Hasc). reflexivity.
  - reflexivity.
  - intros Hd now. unfold tick. rewrite Hd.
    destruct (startRef s) as [t|]; [|reflexivity].
    rewrite andb_false_r. reflexivity.
Qed.

End Progress.

Lemma accepted_attempts_are_counted_witness :
  playerMoveIndex (run italian5 sessionEvents start)
  + mistakes (run italian5 sessionEvents start) = 6.
Proof.
  rewrite (proj1 (@accepted_attempts_are_counted RefChess.engine italian5
                    sessionEvents start eq_refl)).
  vm_compute. reflexivity.
Defined.

Lemma elapsed_time_within_clock_witness :
  startRef finished = Some 900
  /\ 0 <= timeMs finished <= 9000 - 900.
Proof.
  pose proof (@elapsed_time_within_clock RefChess.engine italian5
                sessionEvents) as H.
  assert (Hs : startRef finished = Some 900) by (vm_compute; reflexivity).
  destruct H as [H _].
  - repeat constructor.
  - cbn. lia.
  - change (run italian5 sessionEvents (initialState italian5))
      with finished in H.
    rewrite Hs in H. split; [reflexivity|]. exact (proj2 H).
Defined.

(** *** The clicks at work on the catalog's puzzle *)

Lemma afterFirstClick_reachable :
  @uiReachable RefChess.engine RefView.view italian5 afterFirstClick.
Proof.
  apply (ui_step italian5 (UiClick 1000 5 2)); [|cbn; lia].
  apply ui_init.
Qed.

Lemma afterSecondClick_reachable :
  @uiReachable RefChess.engine RefView.view italian5 afterSecondClick.
Proof.
  apply (ui_step italian5 (UiClick 1000 4 3)); [|cbn; lia].
  exact afterFirstClick_reachable.
Qed.

Lemma afterThirdClick_reachable :
  @uiReachable RefChess.engine RefView.view italian5 afterThirdClick.
Proof.
  apply (ui_step italian5 (UiClick 2000 4 3)); [|cbn; lia].
  apply (ui_step italian5 (UiClick 1000 4 2)); [|cbn; lia].
  exact afterFirstClick_reachable.
Qed.

(** The two clicks c3, d4 play the first move of the line. *)
Example two_clicks_play_c3d4 :
  selected afterFirstClick = Some (5, 2)
  /\ selected afterSecondClick = None
  /\ playerMoveIndex afterSecondClick = 1
  /\ chess_fen (game afterSecondClick)
     = "r1bqk2r/pppp1ppp/2n2n2/8/1bBPP3/5N2/PP3PPP/RNBQK2R w KQkq - 1 7".
Proof. vm_compute. repeat split. Qed.

(** The clicks c3, c4, d4: the engine refuses c3c4 with an error, c3
    stays selected, and the click on d4 plays c3d4. *)
Example refused_click_keeps_selection :
  thrown (@onCellClick RefChess.engine RefView.view italian5 1000 4 2
            afterFirstClick)
  = Some (InvalidMove (mkArg "c3" "c4" "q"))
  /\ selected afterRefusedClick = Some (5, 2)
  /\ playerMoveIndex afterRefusedClick = 0
  /\ chess_fen (game afterRefusedClick) = fen italian5
  /\ selected afterThirdClick = None
  /\ playerMoveIndex afterThirdClick = 1
  /\ chess_fen (game afterThirdClick)
     = "r1bqk2r/pppp1ppp/2n2n2/8/1bBPP3/5N2/PP3PPP/RNBQK2R w KQkq - 1 7".
Proof. vm_compute. repeat split. Qed.

Lemma clicks_refine_move_attempts_witness :
  reachable italian5 (setSelected None afterThirdClick)
  /\ consistent afterThirdClick.
Proof.
  exact (@clicks_refine_move_attempts RefChess.engine RefView.view italian5
           afterThirdClick afterThirdClick_reachable).
Defined.

(** After the refused click on c4 the cell of c3 is still selected, and
    it holds a white pawn with White to move. *)
Lemma selection_holds_own_piece_witness :
  selected afterRefusedClick = Some (5, 2)
  /\ 0 <= 5 < 8 /\ 0 <= 2 < 8
  /\ @ownPieceAt RefChess.engine RefView.view afterRefusedClick 5 2 = true.
Proof.
  assert (Hsel : selected afterRefusedClick = Some (5, 2))
    by (vm_compute; reflexivity).
  split; [exact Hsel|].
  refine (proj2 (@selection_holds_own_piece RefChess.engine RefView.view
                   italian5 refEngine_plays_line afterRefusedClick _) 5 2 Hsel).
  apply (ui_step italian5 (UiClick 1000 4 2)); [|cbn; lia].
  exact afterFirstClick_reachable.
Defined.

(** The clicks c3, c4 in the starting position: the attempt c3c4 throws
    and c3 stays selected. *)
Lemma two_clicks_one_attempt_witness :
  afterFirstClick = setSelected (Some (5, 2)) start
  /\ selected afterRefusedClick = Some (5, 2)
  /\ afterRefusedClick = afterFirstClick.
Proof.
  assert (Hown : @ownPieceAt RefChess.engine RefView.view start 5 2 = true)
    by (vm_compute; reflexivity).
  assert (Hthrown : thrown (tryPlayerMove italian5 1000 "c3" "c4" start)
                    <> None) by (vm_compute; discriminate).
  assert (Hl : legalAttempt start "c3" "c4" = false)
    by (vm_compute; reflexivity).
  destruct (proj1 (@two_clicks_one_attempt RefChess.engine RefView.view
                     italian5 start 1000 1000 5 2 4 2 eq_refl) Hown)
    as (H1 & _ & _ & _ & Hkeep & Hsame).
  split; [exact H1|]. split; [exact (Hkeep Hthrown)|].
  exact (Hsame Hthrown Hl).
Defined.

(** With the hint at stage 1 the cell of c3 is marked as the source. *)
Lemma hint_marks_expected_squares_witness :
  @isHintFrom RefChess.engine italian5 (requestHint italian5 start) 5 2 = true
  /\ @isHintTo RefChess.engine italian5 (requestHint italian5 start) 4 3
     = false.
Proof.
  destruct (@hint_marks_expected_squares RefChess.engine italian5
              (requestHint italian5 start) 5 2) as [Hfrom _]; [lia|lia|].
  destruct (Hfrom eq_refl) as [Hf _]; [cbn; lia|].
  split; [|vm_compute; reflexivity].
  apply Hf. split; [vm_compute; discriminate|reflexivity].
Defined.

Lemma hint_offered_until_complete_witness :
  hintDisabled italian5 start = false.
Proof.
  exact (proj1 (@hint_offered_until_complete RefChess.engine italian5
                  (or_introl eq_refl) start (reach_init italian5))).
Defined.

(* ================================================================== *)
(** ** The week key *)

Module WeekKey.

Import JSDate.

Lemma Day_add_days (t k : Z) : Day (t + k * msPerDay) = Day t + k.
Proof. unfold Day, msPerDay. apply Z.div_add. discriminate. Qed.

(** The date the key is made from is local midnight of the Monday on or
    before the local date. *)
Lemma week_start (zone date : Z) :
  let day := getDay zone date in
  let diff := (if day =? 0 then -6 else 1) - day in
  startOfLocalDay zone (addDays diff date)
  = localMonday zone date * msPerDay - zone.
Proof.
  cbv zeta. unfold startOfLocalDay, addDays, localMonday, getDay.
  replace (date + ((if (Day (date + zone) + 4) mod 7 =? 0 then -6 else 1)
                   - (Day (date + zone) + 4) mod 7) * msPerDay + zone)
    with (date + zone
          + ((if (Day (date + zone) + 4) mod 7 =? 0 then -6 else 1)
             - (Day (date + zone) + 4) mod 7) * msPerDay) by ring.
  rewrite Day_add_days. f_equal. f_equal.
  generalize (Day (date + zone)). intros today.
  destruct (Z.eqb_spec ((today + 4) mod 7) 0);
    Z.to_euclidean_division_equations; lia.
Qed.

Lemma Day_of_week_start (zone monday : Z) :
  - msPerDay < zone <= msPerDay ->
  Day (monday * msPerDay - zone)
  = if zone <=? 0 then monday else monday - 1.
Proof.
  unfold Day, msPerDay. intros Hz.
  destruct (Z.leb_spec zone 0).
  - symmetry. apply (Z.div_unique _ _ _ (- zone)); lia.
  - symmetry. apply (Z.div_unique _ _ _ (86400000 - zone)); lia.
Qed.

Lemma DayFromYear_next (y : Z) :
  DayFromYear (y + 1) = DayFromYear y + 365 + leapDay y.
Proof.
  unfold DayFromYear, leapDay.
  destruct (Z.eqb_spec (y mod 4) 0); destruct (Z.eqb_spec (y mod 100) 0);
    destruct (Z.eqb_spec (y mod 400) 0); cbn [negb orb andb];
    Z.to_euclidean_division_equations; lia.
Qed.

Lemma leapDay_bit (y : Z) : 0 <= leapDay y <= 1.
Proof. unfold leapDay. destruct (_ && _); lia. Qed.

Lemma DayFromYear_mono (y y' : Z) :
  y <= y' -> DayFromYear y <= DayFromYear y'.
Proof.
  unfold DayFromYear. intros Hy. Z.to_euclidean_division_equations. lia.
Qed.

Lemma climb_spec (d : Z) (fuel : nat) :
  forall y,
    DayFromYear y <= d ->
    d < DayFromYear y + 365 * Z.of_nat fuel ->
    DayFromYear (climb fuel y d) <= d < DayFromYear (climb fuel y d + 1).
Proof.
  induction fuel as [|f IH]; intros y Hlo Hhi.
  - lia.
  - cbn [climb]. destruct (Z.leb_spec (DayFromYear (y + 1)) d) as [Hle|Hgt].
    + apply IH; [exact Hle|].
      pose proof (DayFromYear_next y). pose proof (leapDay_bit y). lia.
    + lia.
Qed.

(** [yearOfDay] is the year of ECMAScript: the one whose first day is on
    or before [d] and whose successor's first day is after it. *)
Lemma yearOfDay_spec (d : Z) :
  DayFromYear (yearOfDay d) <= d < DayFromYear (yearOfDay d + 1).
Proof.
  unfold yearOfDay. apply climb_spec.
  - unfold DayFromYear. destruct (Z.leb_spec 0 d);
      Z.to_euclidean_division_equations; lia.
  - rewrite Z2Nat.id
      by (pose proof (Z.abs_nonneg d); Z.to_euclidean_division_equations; lia).
    unfold DayFromYear. destruct (Z.leb_spec 0 d);
      Z.to_euclidean_division_equations; lia.
Qed.

Lemma all_below (n : nat) (P : Z -> bool) :
  forallb (fun k => P (Z.of_nat k)) (seq 0 n) = true ->
  forall z, 0 <= z < Z.of_nat n -> P z = true.
Proof.
  intros Hall z Hz. rewrite forallb_forall in Hall.
  specialize (Hall (Z.to_nat z)). rewrite Z2Nat.id in Hall by lia.
  apply Hall. apply in_seq. lia.
Qed.

Lemma month_and_date_range (leap within : Z) :
  0 <= leap <= 1 -> 0 <= within < 365 + leap ->
  0 <= monthOf leap within <= 11 /\ 1 <= dateOf leap within <= 31.
Proof.
  intros Hleap Hw.
  assert (Hall : forallb
            (fun l => forallb (fun k => monthDateOk (Z.of_nat l) (Z.of_nat k))
                              (seq 0 366))
            (seq 0 2) = true) by (vm_compute; reflexivity).
  rewrite forallb_forall in Hall.
  specialize (Hall (Z.to_nat leap) ltac:(apply in_seq; lia)).
  rewrite Z2Nat.id in Hall by lia.
  pose proof (all_below 366 (monthDateOk leap) Hall within ltac:(lia)) as H.
  unfold monthDateOk in H.
  destruct (Z.ltb_spec within (365 + leap)); [|lia]. cbn [negb orb] in H.
  rewrite !andb_true_iff, !Z.leb_le in H. lia.
Qed.

Lemma two_digits (n : Z) :
  0 <= n < 100 ->
  String.length (padZeros 2 (numberToString n)) = 2%nat
  /\ decimalValue (padZeros 2 (numberToString n)) = n.
Proof.
  intros Hn.
  assert (Hall : forallb (fun k => padOk 2 (Z.of_nat k)) (seq 0 100) = true)
    by (vm_compute; reflexivity).
  pose proof (all_below 100 (padOk 2) Hall n Hn) as H.
  apply andb_prop in H. destruct H as [Hl Hv].
  split; [apply Nat.eqb_eq; exact Hl|apply Z.eqb_eq; exact Hv].
Qed.

Lemma four_digits (n : Z) :
  0 <= n < 10000 ->
  String.length (padZeros 4 (numberToString n)) = 4%nat
  /\ decimalValue (padZeros 4 (numberToString n)) = n.
Proof.
  intros Hn.
  assert (Hall : forallb (fun k => padOk 4 (Z.of_nat k)) (seq 0 10000) = true)
    by (vm_compute; reflexivity).
  pose proof (all_below 10000 (padOk 4) Hall n Hn) as H.
  apply andb_prop in H. destruct H as [Hl Hv].
  split; [apply Nat.eqb_eq; exact Hl|apply Z.eqb_eq; exact Hv].
Qed.

(** A text made of a four-character year, a two-character month and a
    two-character day with dashes between has ten characters, and its
    parts are read back by the slices at 0, 5 and 8. *)
Lemma dashed_parts (y m d : string) :
  String.length y = 4%nat -> String.length m = 2%nat ->
  String.length d = 2%nat ->
  let key := y ++ "-" ++ m ++ "-" ++ d in
  slice 0 10 key = key /\ String.length key = 10%nat
  /\ slice 0 4 key = y /\ slice 5 7 key = m /\ slice 8 10 key = d.
Proof.
  intros Hy Hm Hd key. unfold slice. cbn [Nat.sub].
  assert (Hlen : String.length key = 10%nat).
  { subst key. rewrite !string_length_append, Hy, Hm, Hd. reflexivity. }
  split; [|split; [exact Hlen|split; [|split]]].
  - rewrite <- Hlen. rewrite <- (append_empty key) at 2.
    apply substring_whole.
  - subst key. rewrite <- Hy. apply substring_whole.
  - subst key. change 5%nat with (4 + 1)%nat. rewrite <- Hy at 1.
    rewrite substring_past. cbn [append substring]. rewrite <- Hm.
    apply substring_whole.
  - subst key. change 8%nat with (4 + 4)%nat. rewrite <- Hy at 1.
    rewrite substring_past. cbn [append substring].
    change 3%nat with (2 + 1)%nat. rewrite <- Hm at 1.
    rewrite substring_past. cbn [append substring]. rewrite <- Hd.
    rewrite <- (append_empty d) at 2. apply substring_whole.
Qed.

Lemma fourDigitYear_year (d : Z) :
  fourDigitYear d -> 0 <= yearOfDay d <= 9999.
Proof.
  unfold fourDigitYear. intros Hd.
  pose proof (yearOfDay_spec d) as Hspec.
  assert (H0 : DayFromYear 0 = -719528) by reflexivity.
  assert (H1 : DayFromYear 10000 = 2932897) by reflexivity.
  split.
  - destruct (Z.le_gt_cases 0 (yearOfDay d)) as [Hle|Hgt]; [exact Hle|].
    pose proof (DayFromYear_mono (yearOfDay d + 1) 0 ltac:(lia)). lia.
  - destruct (Z.le_gt_cases (yearOfDay d) 9999) as [Hle|Hgt]; [exact Hle|].
    pose proof (DayFromYear_mono 10000 (yearOfDay d) ltac:(lia)). lia.
Qed.

Lemma isoDate_reads_back (d : Z) :
  fourDigitYear d ->
  slice 0 10 (isoDate d) = isoDate d
  /\ String.length (isoDate d) = 10%nat
  /\ dayOfKey (isoDate d) = d.
Proof.
  intros Hd. pose proof (fourDigitYear_year d Hd) as Hy.
  pose proof (yearOfDay_spec d) as Hspec.
  pose proof (DayFromYear_next (yearOfDay d)) as Hnext.
  pose proof (leapDay_bit (yearOfDay d)) as Hleap.
  remember (yearOfDay d) as y eqn:Ey.
  remember (leapDay y) as leap eqn:El.
  remember (d - DayFromYear y) as within eqn:Ew.
  assert (Hw : 0 <= within < 365 + leap) by lia.
  destruct (month_and_date_range leap within Hleap Hw) as [Hm Hdate].
  destruct (four_digits y ltac:(lia)) as [Hly Hvy].
  destruct (two_digits (monthOf leap within + 1) ltac:(lia)) as [Hlm Hvm].
  destruct (two_digits (dateOf leap within) ltac:(lia)) as [Hld Hvd].
  assert (Hiso : isoDate d
                 = padZeros 4 (numberToString y) ++ "-"
                   ++ padZeros 2 (numberToString (monthOf leap within + 1))
                   ++ "-" ++ padZeros 2 (numberToString (dateOf leap within))).
  { unfold isoDate. cbv zeta. rewrite <- Ey, <- El, <- Ew.
    destruct (Z.leb_spec 0 y); [|lia]. destruct (Z.leb_spec y 9999); [|lia].
    reflexivity. }
  destruct (dashed_parts _ _ _ Hly Hlm Hld) as (Hs & Hl & H4 & H7 & H10).
  cbv zeta in Hs, Hl, H4, H7, H10. rewrite <- Hiso in Hs, Hl, H4, H7, H10.
  split; [exact Hs|]. split; [exact Hl|].
  unfold dayOfKey. cbv zeta. rewrite H4, H7, H10, Hvy, Hvm, Hvd, <- El.
  replace (monthOf leap within + 1 - 1) with (monthOf leap within) by lia.
  unfold dateOf. lia.
Qed.

Lemma getWeekKey_week_start (zone t : Z) :
  getWeekKey zone t = yyyyMmDd (localMonday zone t * msPerDay - zone).
Proof.
  unfold getWeekKey. cbv zeta. f_equal. apply week_start.
Qed.

Lemma getWeekKey_keyDay (zone t : Z) :
  - msPerDay < zone <= msPerDay ->
  getWeekKey zone t = slice 0 10 (isoDate (keyDay zone t)).
Proof.
  intros Hz. rewrite getWeekKey_week_start. unfold yyyyMmDd, keyDay.
  rewrite (Day_of_week_start zone _ Hz). reflexivity.
Qed.

Lemma localMonday_is_monday (zone t : Z) :
  (localMonday zone t + 4) mod 7 = 1
  /\ localMonday zone t <= Day (t + zone) < localMonday zone t + 7.
Proof.
  unfold localMonday. cbv zeta. generalize (Day (t + zone)). intros today.
  Z.to_euclidean_division_equations. lia.
Qed.

(** Two Mondays that are not the same are a week or more apart. *)
Lemma keyDay_same (zone t1 t2 : Z) :
  keyDay zone t1 = keyDay zone t2 <-> localMonday zone t1 = localMonday zone t2.
Proof. unfold keyDay. destruct (zone <=? 0); lia. Qed.

(** X14 (getWeekKey).  In a zone less than a day from UTC, and within
    the years 0 to 9999, the week key is the UTC calendar date, written
    YYYY-MM-DD, of local midnight of the Monday on or before the local
    date: that Monday is a Monday, at most six days back, and the key
    reads back as its day number at or behind UTC and as the day number
    of the Sunday before it ahead of UTC. *)
Theorem week_key_names_week_start (zone t : Z) :
  - msPerDay < zone <= msPerDay ->
  fourDigitYear (keyDay zone t) ->
  let today := Day (t + zone) in
  let monday := localMonday zone t in
  (monday + 4) mod 7 = 1
  /\ monday <= today < monday + 7
  /\ getWeekKey zone t = isoDate (keyDay zone t)
  /\ String.length (getWeekKey zone t) = 10%nat
  /\ dayOfKey (getWeekKey zone t)
     = (if zone <=? 0 then monday else monday - 1).
Proof.
  intros Hz Hd today monday. subst today monday.
  destruct (localMonday_is_monday zone t) as [Hmon Hnear].
  destruct (isoDate_reads_back _ Hd) as (Hs & Hl & Hk).
  rewrite (getWeekKey_keyDay zone t Hz), Hs.
  repeat split; try assumption; try lia.
Qed.

(** X15 (getWeekKey, pickWeeklyPuzzle).  In one zone, two instants get
    the same week key exactly when their local dates fall in the same
    week from Monday to Sunday; instants of one week are given the same
    weekly puzzle. *)
Theorem week_key_identifies_week (zone t1 t2 : Z) :
  - msPerDay < zone <= msPerDay ->
  fourDigitYear (keyDay zone t1) -> fourDigitYear (keyDay zone t2) ->
  (getWeekKey zone t1 = getWeekKey zone t2
   <-> localMonday zone t1 = localMonday zone t2)
  /\ (localMonday zone t1 = localMonday zone t2 ->
      pickWeeklyPuzzle (ofString (getWeekKey zone t1))
      = pickWeeklyPuzzle (ofString (getWeekKey zone t2))).
Proof.
  intros Hz H1 H2.
  assert (Hback : localMonday zone t1 = localMonday zone t2 ->
                  getWeekKey zone t1 = getWeekKey zone t2).
  { intros Hm. rewrite !getWeekKey_week_start, Hm. reflexivity. }
  split; [split; [|exact Hback]|].
  - intros Hk. apply keyDay_same.
    rewrite !(getWeekKey_keyDay zone _ Hz) in Hk.
    destruct (isoDate_reads_back _ H1) as (Hs1 & _ & Hk1).
    destruct (isoDate_reads_back _ H2) as (Hs2 & _ & Hk2).
    rewrite Hs1, Hs2 in Hk. rewrite <- Hk1, <- Hk2. f_equal. exact Hk.
  - intros Hm. rewrite (Hback Hm). reflexivity.
Qed.

(** X16 (yyyyMmDd).  For an instant in the years 0 to 9999 the text has
    ten characters and reads back as the UTC day of the instant, so two
    such instants get the same text exactly when they are on the same
    UTC day. *)
Theorem yyyyMmDd_reads_back (t t' : Z) :
  fourDigitYear (Day t) -> fourDigitYear (Day t') ->
  String.length (yyyyMmDd t) = 10%nat
  /\ dayOfKey (yyyyMmDd t) = Day t
  /\ (yyyyMmDd t = yyyyMmDd t' <-> Day t = Day t').
Proof.
  intros H1 H2. unfold yyyyMmDd.
  destruct (isoDate_reads_back _ H1) as (Hs1 & Hl1 & Hk1).
  destruct (isoDate_reads_back _ H2) as (Hs2 & _ & Hk2).
  rewrite Hs1, Hs2. split; [exact Hl1|]. split; [exact Hk1|].
  split; intros H.
  - rewrite <- Hk1, <- Hk2, H. reflexivity.
  - rewrite H. reflexivity.
Qed.

(** Noon UTC of Monday 2 November 2026, seen at UTC, one hour ahead of
    it and five hours behind it; the Sunday after it; and the first
    instant of 1970. *)
Example week_key_examples :
  getWeekKey 0 1793620800000 = "2026-11-02"
  /\ getWeekKey 3600000 1793620800000 = "2026-11-01"
  /\ getWeekKey (-18000000) 1793620800000 = "2026-11-02"
  /\ getWeekKey 0 (1793620800000 + 6 * msPerDay) = "2026-11-02"
  /\ getWeekKey 0 (1793620800000 + 7 * msPerDay) = "2026-11-09"
  /\ getWeekKey 0 0 = "1969-12-29"
  /\ yyyyMmDd 951782400000 = "2000-02-29".
Proof. vm_compute. repeat split. Qed.

Lemma week_key_names_week_start_witness :
  (localMonday 3600000 1793620800000 + 4) mod 7 = 1
  /\ getWeekKey 3600000 1793620800000
     = isoDate (keyDay 3600000 1793620800000).
Proof.
  assert (Hz : - msPerDay < 3600000 <= msPerDay) by (unfold msPerDay; lia).
  assert (Hd : fourDigitYear (keyDay 3600000 1793620800000))
    by (vm_compute; split; discriminate).
  pose proof (week_key_names_week_start 3600000 1793620800000 Hz Hd) as H.
  cbv zeta in H. split; [exact (proj1 H)|exact (proj1 (proj2 (proj2 H)))].
Defined.

Lemma week_key_identifies_week_witness :
  getWeekKey 0 1793620800000 = getWeekKey 0 (1793620800000 + 6 * msPerDay)
  <-> localMonday 0 1793620800000
      = localMonday 0 (1793620800000 + 6 * msPerDay).
Proof.
  assert (Hz : - msPerDay < 0 <= msPerDay) by (unfold msPerDay; lia).
  assert (H1 : fourDigitYear (keyDay 0 1793620800000))
    by (vm_compute; split; discriminate).
  assert (H2 : fourDigitYear (keyDay 0 (1793620800000 + 6 * msPerDay)))
    by (vm_compute; split; discriminate).
  exact (proj1 (week_key_identifies_week 0 _ _ Hz H1 H2)).
Defined.

Lemma yyyyMmDd_reads_back_witness :
  dayOfKey (yyyyMmDd 1793620800000) = Day 1793620800000.
Proof.
  assert (H1 : fourDigitYear (Day 1793620800000))
    by (vm_compute; split; discriminate).
  exact (proj1 (proj2 (yyyyMmDd_reads_back _ _ H1 H1))).
Defined.

End WeekKey.
